(** * mold: the link pipeline of [main.cc] and [input_sections.cc]

    A shallow embedding of the layout, string-merging, relocation-scanning
    and relocation-applying code of the linker, and the properties its
    specification states about them.

    Conventions.  Machine integers are [Z] with the wrap-around written
    out ([u64], [i64], [u32]).  Pointers into the output buffer are
    byte offsets relative to [out::buf].  [mold.h] is not part of the
    sources at hand: the ELF constants carry their System V ABI values,
    and the helpers it declares are introduced where they are used. *)

From Stdlib Require Import ZArith List Bool Lia Permutation Sorted.
From stdpp Require Import base numbers strings pretty list gmap.

Local Open Scope Z_scope.

(* ================================================================== *)
(** * Part I: definitions *)
(* ================================================================== *)

(** ** Machine integers *)

Definition u32 (z : Z) : Z := z mod 2 ^ 32.
Definition u64 (z : Z) : Z := z mod 2 ^ 64.

(** Conversion to the signed 64-bit type (two's complement). *)
Definition i64 (z : Z) : Z := (z + 2 ^ 63) mod 2 ^ 64 - 2 ^ 63.

(** C++ [bool] to integer promotion. *)
Definition b2z (b : bool) : Z := if b then 1 else 0.

(** ** ELF constants (System V ABI, x86-64 psABI) *)

Module Elf.

Definition SHT_NOTE : Z := 7.
Definition SHT_NOBITS : Z := 8.

Definition SHF_WRITE : Z := 1.
Definition SHF_ALLOC : Z := 2.
Definition SHF_EXECINSTR : Z := 4.
Definition SHF_TLS : Z := 1024.

Definition STT_OBJECT : Z := 1.
Definition STT_GNU_IFUNC : Z := 10.

Definition R_X86_64_NONE : Z := 0.
Definition R_X86_64_64 : Z := 1.
Definition R_X86_64_PC32 : Z := 2.
Definition R_X86_64_GOT32 : Z := 3.
Definition R_X86_64_PLT32 : Z := 4.
Definition R_X86_64_GOTPCREL : Z := 9.
Definition R_X86_64_32 : Z := 10.
Definition R_X86_64_32S : Z := 11.
Definition R_X86_64_16 : Z := 12.
Definition R_X86_64_PC16 : Z := 13.
Definition R_X86_64_8 : Z := 14.
Definition R_X86_64_PC8 : Z := 15.
Definition R_X86_64_DTPOFF64 : Z := 17.
Definition R_X86_64_TPOFF64 : Z := 18.
Definition R_X86_64_TLSGD : Z := 19.
Definition R_X86_64_TLSLD : Z := 20.
Definition R_X86_64_DTPOFF32 : Z := 21.
Definition R_X86_64_GOTTPOFF : Z := 22.
Definition R_X86_64_TPOFF32 : Z := 23.
Definition R_X86_64_PC64 : Z := 24.
Definition R_X86_64_GOTPC32 : Z := 26.
Definition R_X86_64_GOTPCRELX : Z := 41.
Definition R_X86_64_REX_GOTPCRELX : Z := 42.

End Elf.
Import Elf.

(** The fields of [ElfShdr] the pipeline reads and writes. *)
Record ElfShdr : Type := mkShdr {
  sh_type : Z;
  sh_flags : Z;
  sh_addr : Z;
  sh_offset : Z;
  sh_size : Z;
  sh_addralign : Z
}.

(** [shdr.sh_flags & FLAG] converted to [bool]. *)
Definition has_flag (shdr : ElfShdr) (flag : Z) : bool :=
  negb (Z.land (sh_flags shdr) flag =? 0).

(** ** Output-section ordering: [get_section_rank] *)

Definition get_section_rank (shdr : ElfShdr) : Z :=
  let note := sh_type shdr =? SHT_NOTE in
  let alloc := has_flag shdr SHF_ALLOC in
  let writable := has_flag shdr SHF_WRITE in
  let exec := has_flag shdr SHF_EXECINSTR in
  let tls := has_flag shdr SHF_TLS in
  let nobits := sh_type shdr =? SHT_NOBITS in
  Z.lor (Z.lor (Z.lor (Z.lor (Z.lor
    (Z.shiftl (b2z (negb note)) 6)
    (Z.shiftl (b2z (negb alloc)) 5))
    (Z.shiftl (b2z writable) 4))
    (Z.shiftl (b2z exec) 3))
    (Z.shiftl (b2z (negb tls)) 2))
    (b2z nobits).

(** The bit tuple the rank packs, most significant first. *)
Definition rank_bits (shdr : ElfShdr) : list bool :=
  [ negb (sh_type shdr =? SHT_NOTE);
    negb (has_flag shdr SHF_ALLOC);
    has_flag shdr SHF_WRITE;
    has_flag shdr SHF_EXECINSTR;
    negb (has_flag shdr SHF_TLS);
    sh_type shdr =? SHT_NOBITS ].

Definition bool_compare (a b : bool) : comparison :=
  match a, b with
  | false, true => Lt
  | true, false => Gt
  | _, _ => Eq
  end.

(** Lexicographic comparison of bit tuples. *)
Fixpoint lex_compare (xs ys : list bool) : comparison :=
  match xs, ys with
  | [], [] => Eq
  | [], _ :: _ => Lt
  | _ :: _, [] => Gt
  | x :: xs', y :: ys' =>
      match bool_compare x y with
      | Eq => lex_compare xs' ys'
      | c => c
      end
  end.

(** The section classes named in the comment above [get_section_rank],
    in the order the comment lists them. *)
Inductive SectionClass : Type :=
  | NOTE
  | ALLOC_RO_DATA
  | ALLOC_RO_CODE
  | ALLOC_RW_TDATA
  | ALLOC_RW_TBSS
  | ALLOC_RW_DATA
  | ALLOC_RW_BSS
  | NONALLOC.

Definition class_index (c : SectionClass) : Z :=
  match c with
  | NOTE => 0
  | ALLOC_RO_DATA => 1
  | ALLOC_RO_CODE => 2
  | ALLOC_RW_TDATA => 3
  | ALLOC_RW_TBSS => 4
  | ALLOC_RW_DATA => 5
  | ALLOC_RW_BSS => 6
  | NONALLOC => 7
  end.

(** Which class a header falls in.  Code is what is executable, data what
    is not; an allocated section that is both writable and executable is
    in none of the eight classes. *)
Definition classify (shdr : ElfShdr) : option SectionClass :=
  let alloc := has_flag shdr SHF_ALLOC in
  let writable := has_flag shdr SHF_WRITE in
  let exec := has_flag shdr SHF_EXECINSTR in
  let tls := has_flag shdr SHF_TLS in
  let nobits := sh_type shdr =? SHT_NOBITS in
  if sh_type shdr =? SHT_NOTE then Some NOTE
  else if negb alloc then Some NONALLOC
  else if negb writable then Some (if exec then ALLOC_RO_CODE else ALLOC_RO_DATA)
  else if exec then None
  else if tls then Some (if nobits then ALLOC_RW_TBSS else ALLOC_RW_TDATA)
  else Some (if nobits then ALLOC_RW_BSS else ALLOC_RW_DATA).

(** The interval of ranks of each class: the intervals are disjoint and
    follow the order of the classes. *)
Definition class_lo (c : SectionClass) : Z :=
  match c with
  | NOTE => 0 | ALLOC_RO_DATA => 64 | ALLOC_RO_CODE => 72
  | ALLOC_RW_TDATA => 80 | ALLOC_RW_TBSS => 81
  | ALLOC_RW_DATA => 84 | ALLOC_RW_BSS => 85 | NONALLOC => 96
  end.

Definition class_hi (c : SectionClass) : Z :=
  match c with
  | NOTE => 63 | ALLOC_RO_DATA => 69 | ALLOC_RO_CODE => 77
  | ALLOC_RW_TDATA => 80 | ALLOC_RW_TBSS => 81
  | ALLOC_RW_DATA => 84 | ALLOC_RW_BSS => 85 | NONALLOC => 125
  end.

(** Modelled from the spec: [sort], the helper of [mold.h] that [main]
    calls as [sort(out::chunks, cmp)] with [cmp a b = rank a < rank b], is
    not among the sources; the spec has the chunks in ascending rank after
    it.  Whatever algorithm it is, its result is a permutation of its
    input in which no element has a greater rank than a later one;
    [sort_chunks] is one such sort (insertion). *)
Definition rank_le (a b : ElfShdr) : Prop :=
  get_section_rank a <= get_section_rank b.

Fixpoint insert_chunk (x : ElfShdr) (l : list ElfShdr) : list ElfShdr :=
  match l with
  | [] => [x]
  | y :: l' =>
      if get_section_rank x <? get_section_rank y then x :: y :: l'
      else y :: insert_chunk x l'
  end.

Definition sort_chunks (l : list ElfShdr) : list ElfShdr :=
  fold_right insert_chunk [] l.

(** ** Alignment *)

(** Modelled from the spec: [align_to] is declared in [mold.h], which is
    not among the sources; the spec describes it as rounding a value up to
    the given alignment.  Both arguments and the result are [u64]. *)
Definition align_to (val align : Z) : Z :=
  u64 ((val + align - 1) / align * align).

(** ** File and virtual address assignment: [set_osec_offsets] *)

Record OutputChunk : Type := mkChunk {
  shdr : ElfShdr;
  starts_new_ptload : bool
}.

Definition set_sh_offset (v : Z) (h : ElfShdr) : ElfShdr :=
  mkShdr (sh_type h) (sh_flags h) (sh_addr h) v (sh_size h) (sh_addralign h).

Definition set_sh_addr (v : Z) (h : ElfShdr) : ElfShdr :=
  mkShdr (sh_type h) (sh_flags h) v (sh_offset h) (sh_size h) (sh_addralign h).

(** The body of the loop over the chunks.  [fileoff] and [vaddr] are
    [i64]; [%] on them is the truncating remainder [Z.rem]; the header
    fields are [u64].  [PAGE_SIZE] is a constant of [mold.h]. *)
Definition place_chunk (PAGE_SIZE : Z) (st : Z * Z) (chunk : OutputChunk)
  : OutputChunk * (Z * Z) :=
  let '(fileoff, vaddr) := st in
  let vaddr :=
    if starts_new_ptload chunk then i64 (align_to (u64 vaddr) PAGE_SIZE)
    else vaddr in
  let fileoff :=
    if Z.rem vaddr PAGE_SIZE >? Z.rem fileoff PAGE_SIZE then
      i64 (fileoff + (Z.rem vaddr PAGE_SIZE - Z.rem fileoff PAGE_SIZE))
    else if Z.rem vaddr PAGE_SIZE <? Z.rem fileoff PAGE_SIZE then
      i64 (align_to (u64 fileoff) PAGE_SIZE + Z.rem vaddr PAGE_SIZE)
    else fileoff in
  let fileoff := i64 (align_to (u64 fileoff) (sh_addralign (shdr chunk))) in
  let vaddr := i64 (align_to (u64 vaddr) (sh_addralign (shdr chunk))) in
  let h := set_sh_offset (u64 fileoff) (shdr chunk) in
  let h := if has_flag h SHF_ALLOC then set_sh_addr (u64 vaddr) h else h in
  let is_bss := sh_type h =? SHT_NOBITS in
  let fileoff := if negb is_bss then i64 (fileoff + sh_size h) else fileoff in
  let is_tbss := is_bss && has_flag h SHF_TLS in
  let vaddr := if negb is_tbss then i64 (vaddr + sh_size h) else vaddr in
  (mkChunk h (starts_new_ptload chunk), (fileoff, vaddr)).

Fixpoint place_chunks (PAGE_SIZE : Z) (st : Z * Z) (chunks : list OutputChunk)
  : list OutputChunk * (Z * Z) :=
  match chunks with
  | [] => ([], st)
  | chunk :: rest =>
      let '(chunk', st') := place_chunk PAGE_SIZE st chunk in
      let '(rest', st'') := place_chunks PAGE_SIZE st' rest in
      (chunk' :: rest', st'')
  end.

(** [set_osec_offsets]: the chunks with their headers updated, and the
    returned file size.  [image_base] is [config.image_base]. *)
Definition set_osec_offsets (PAGE_SIZE image_base : Z)
  (chunks : list OutputChunk) : list OutputChunk * Z :=
  let '(chunks', (fileoff, _)) :=
    place_chunks PAGE_SIZE (0, i64 image_base) chunks in
  (chunks', fileoff).

(** An alignment that is a power of two no greater than the page size. *)
Definition pow2_upto (bound a : Z) : Prop :=
  exists j : Z, 0 <= j /\ a = 2 ^ j /\ a <= bound.

(** What the claim states of a chunk after [set_osec_offsets]: its file
    offset is a multiple of its alignment and, if it is allocated, its
    address and its file offset are congruent modulo the page size. *)
Definition chunk_placed (PAGE_SIZE : Z) (c : OutputChunk) : Prop :=
  sh_offset (shdr c) mod sh_addralign (shdr c) = 0 /\
  (has_flag (shdr c) SHF_ALLOC = true ->
   sh_addr (shdr c) mod PAGE_SIZE = sh_offset (shdr c) mod PAGE_SIZE).

(** ** Offsets of input sections within an output section *)

(** [split]: cut a vector into spans of [unit] elements, the last one
    possibly shorter.  The [while] loop is run with the length of the
    input as fuel, which is enough whenever [unit] is positive (lemma
    [split_loop_fuel]; with [unit = 0] the loop of the code does not end,
    and the model is not meant for it). *)
Fixpoint split_loop {T : Type} (fuel : nat) (span : list T) (unit : nat)
  : list (list T) :=
  match fuel with
  | O => match span with [] => [] | _ => [span] end
  | S fuel' =>
      if (unit <=? length span)%nat then
        take unit span :: split_loop fuel' (drop unit span) unit
      else
        match span with [] => [] | _ => [span] end
  end.

Definition split {T : Type} (input : list T) (unit : nat) : list (list T) :=
  split_loop (length input) input unit.

(** The part of an [InputChunk] that [set_isec_offsets] touches. *)
Record InputChunk : Type := mkInputChunk {
  ishdr : ElfShdr;
  offset : Z
}.

Record OutputSection : Type := mkOutputSection {
  members : list InputChunk;
  oshdr : ElfShdr
}.

Definition set_offset (off : Z) (isec : InputChunk) : InputChunk :=
  mkInputChunk (ishdr isec) off.

(** First parallel pass, on one slice: running offset and maximal
    alignment, both [i64]. *)
Fixpoint slice_pass (off align : Z) (slice : list InputChunk)
  : list InputChunk * Z * Z :=
  match slice with
  | [] => ([], off, align)
  | isec :: rest =>
      let off := i64 (align_to (u64 off) (sh_addralign (ishdr isec))) in
      let isec' := set_offset off isec in
      let off := i64 (off + sh_size (ishdr isec)) in
      let align := Z.max align (i64 (sh_addralign (ishdr isec))) in
      let '(rest', off', align') := slice_pass off align rest in
      (isec' :: rest', off', align')
  end.

(** [*std::max_element(first, last)] on a non-empty vector. *)
Definition max_element (l : list Z) : Z :=
  match l with
  | [] => 0
  | x :: l' => fold_left Z.max l' x
  end.

(** [start[i] = align_to(start[i - 1] + size[i - 1], align)] for the
    slices after the first; [prev] is [start[i - 1] + size[i - 1]]. *)
Fixpoint slice_starts (prev : Z) (size : list Z) (align : Z) : list Z :=
  match size with
  | [] => []
  | sz :: rest =>
      let st := i64 (align_to (u64 prev) (u64 align)) in
      st :: slice_starts (i64 (st + sz)) rest align
  end.

(** Second parallel pass, on one slice. *)
Definition shift_slice (start : Z) (slice : list InputChunk) : list InputChunk :=
  map (fun isec => set_offset (i64 (offset isec + start)) isec) slice.

Definition set_size_align (size align : Z) (h : ElfShdr) : ElfShdr :=
  mkShdr (sh_type h) (sh_flags h) (sh_addr h) (sh_offset h) size align.

(** The body of the loop over the output sections, with the slice length
    as a parameter. *)
Definition set_isec_offsets_osec (unit : nat) (osec : OutputSection)
  : OutputSection :=
  match members osec with
  | [] => osec
  | _ :: _ =>
      let slices := split (members osec) unit in
      let passes := map (slice_pass 0 1) slices in
      let size := map (fun p => snd (fst p)) passes in
      let alignments := map snd passes in
      let align := max_element alignments in
      match passes, size with
      | (slice0, _, _) :: passes', size0 :: size' =>
          let start := 0 :: slice_starts (i64 (0 + size0)) size' align in
          let shifted :=
            zip_with shift_slice (tail start) (map (fun p => fst (fst p)) passes') in
          mkOutputSection
            (slice0 ++ concat shifted)
            (set_size_align (u64 (List.last start 0 + List.last size 0)) (u64 align)
                            (oshdr osec))
      | _, _ => osec
      end
  end.

(** [set_isec_offsets]: every output section, with slices of 10000. *)
Definition set_isec_offsets (instances : list OutputSection)
  : list OutputSection :=
  map (set_isec_offsets_osec (Z.to_nat 10000)) instances.

(** Layout predicates.  [laid_out lo l]: the members of [l] follow one
    another from [lo] on, each at a multiple of its alignment and each
    starting no earlier than the end of the one before. *)
Fixpoint laid_out (lo : Z) (l : list InputChunk) : Prop :=
  match l with
  | [] => True
  | m :: rest =>
      lo <= offset m /\
      offset m mod sh_addralign (ishdr m) = 0 /\
      laid_out (offset m + sh_size (ishdr m)) rest
  end.

Fixpoint layout_end (lo : Z) (l : list InputChunk) : Z :=
  match l with
  | [] => lo
  | m :: rest => layout_end (offset m + sh_size (ishdr m)) rest
  end.

(** The byte ranges of two members have no byte in common. *)
Definition ranges_disjoint (a b : InputChunk) : Prop :=
  forall x : Z,
    ~ (offset a <= x < offset a + sh_size (ishdr a) /\
       offset b <= x < offset b + sh_size (ishdr b)).

(** A member whose size is a [u64] and whose alignment is a power of two. *)
Definition wf_member (m : InputChunk) : Prop :=
  0 <= sh_size (ishdr m) /\
  exists j : Z, 0 <= j /\ sh_addralign (ishdr m) = 2 ^ j.

Fixpoint total_weight (l : list InputChunk) : Z :=
  match l with
  | [] => 0
  | m :: rest => sh_size (ishdr m) + sh_addralign (ishdr m) + total_weight rest
  end.

Fixpoint max_align (l : list InputChunk) : Z :=
  match l with
  | [] => 1
  | m :: rest => Z.max (sh_addralign (ishdr m)) (max_align rest)
  end.

(** A bound on every offset the layout of [l] can reach: all sizes, one
    alignment padding per member, one padding to the largest alignment per
    slice (there are at most as many slices as members). *)
Definition layout_bound (l : list InputChunk) : Z :=
  total_weight l + Z.of_nat (length l) * max_align l.

(** Auxiliary measures of the proofs: a member of non-negative size, and
    the weight of the slices still to be placed (their members, and one
    padding to the section alignment each). *)
Definition size_nonneg (m : InputChunk) : Prop := 0 <= sh_size (ishdr m).

Fixpoint slices_bound (A : Z) (sls : list (list InputChunk)) : Z :=
  match sls with
  | [] => 0
  | sl :: rest => total_weight sl + A + slices_bound A rest
  end.

(** ** Mergeable strings: the claiming pass of [handle_mergeable_strings] *)

(** The part of [InputFile] the pass reads. *)
Record InputFile : Type := mkInputFile {
  priority : Z
}.

(** A [MergeableSection]: its address (the identity a pointer to it
    compares by), its [file] back-pointer and the [SectionFragment]s it
    points to, by address. *)
Record MergeableSection : Type := mkMergeableSection {
  sec_addr : nat;
  file : InputFile;
  fragments : list nat
}.

Record ObjectFile : Type := mkObjectFile {
  obj_file : InputFile;
  mergeable_sections : list MergeableSection
}.

#[global] Instance InputFile_eq_dec : EqDecision InputFile.
Proof. solve_decision. Defined.

#[global] Instance MergeableSection_eq_dec : EqDecision MergeableSection.
Proof. solve_decision. Defined.

(** The [isec] fields of all fragments: a fragment address that is not a
    key has [isec == nullptr]. *)
Abbreviation owners_map := (gmap nat MergeableSection).

(** [frag->isec.compare_exchange_weak(cur, isec)] when no other thread
    runs in between and the exchange does not fail spuriously: the new
    heap, the value left in [cur], and the result. *)
Definition compare_exchange_weak (owners : owners_map) (frag : nat)
  (cur : option MergeableSection) (isec : MergeableSection)
  : owners_map * option MergeableSection * bool :=
  if decide (owners !! frag = cur) then (<[frag := isec]> owners, cur, true)
  else (owners, owners !! frag, false).

(** [!cur || cur->file->priority > isec->file->priority] *)
Definition must_claim (cur : option MergeableSection) (isec : MergeableSection)
  : bool :=
  match cur with
  | None => true
  | Some c => priority (file c) >? priority (file isec)
  end.

(** The [while] loop claiming one fragment for [isec]. *)
Fixpoint claim_loop (fuel : nat) (owners : owners_map) (frag : nat)
  (cur : option MergeableSection) (isec : MergeableSection) : owners_map :=
  match fuel with
  | O => owners
  | S fuel' =>
      if must_claim cur isec then
        let '(owners', cur', ok) := compare_exchange_weak owners frag cur isec in
        if ok then owners' else claim_loop fuel' owners' frag cur' isec
      else owners
  end.

(** The body of the loop over [isec->fragments]; [is_alive] gives the
    [is_alive] field of each fragment.  Run without interference, the
    [while] loop is over after one iteration (lemma [claim_loop_fuel]). *)
Definition claim_fragment (is_alive : nat -> bool) (owners : owners_map)
  (claim : MergeableSection * nat) : owners_map :=
  let '(isec, frag) := claim in
  if is_alive frag then claim_loop 1 owners frag (owners !! frag) isec
  else owners.

(** All the (section, fragment) pairs the first [parallel_for_each]
    visits, in the order of a sequential run over [out::objs]. *)
Definition claims_of_file (f : ObjectFile) : list (MergeableSection * nat) :=
  flat_map (fun isec => map (fun frag => (isec, frag)) (fragments isec))
           (mergeable_sections f).

Definition claims (objs : list ObjectFile) : list (MergeableSection * nat) :=
  flat_map claims_of_file objs.

(** A run of the claiming loops one after the other, in a given order. *)
Definition run_claims (is_alive : nat -> bool)
  (schedule : list (MergeableSection * nat)) (owners : owners_map)
  : owners_map :=
  fold_left (claim_fragment is_alive) schedule owners.

(** The first pass of [handle_mergeable_strings], files taken in order. *)
Definition resolve_fragments (is_alive : nat -> bool) (objs : list ObjectFile)
  (owners : owners_map) : owners_map :=
  fold_left
    (fun owners f =>
       fold_left
         (fun owners isec =>
            fold_left (fun owners frag => claim_fragment is_alive owners (isec, frag))
                      (fragments isec) owners)
         (mergeable_sections f) owners)
    objs owners.

(** Every section's [file] back-pointer is the file that lists it. *)
Definition files_wf (objs : list ObjectFile) : Prop :=
  forall f isec, f ∈ objs -> isec ∈ mergeable_sections f -> file isec = obj_file f.

(** [f] has a mergeable section that contains the fragment. *)
Definition file_contains (f : ObjectFile) (frag : nat) : Prop :=
  exists isec, isec ∈ mergeable_sections f /\ frag ∈ fragments isec.

(** ** How a function can end *)

(** The vectors of an input section that the relocation loops index. *)
Inductive vector_name : Type := Rels | RelPieces | Symbols.

(** Modelled from the spec: [error(msg)], declared in [mold.h] which is
    not among the sources, ends the process with the message (the spec
    calls the failure of the MergeableSection constructor fatal, and the
    loop of that constructor would not end if [error] returned): a run
    that calls it ends as [Fatal msg a].  The other ways a run ends:
    [Done a], the function returns; [AssertFailed a], an [assert] does not
    hold and aborts (assertions are taken as compiled in); [OutOfBounds v
    a], the code indexes the vector [v] past its end, which is undefined
    behaviour, and the model stops there.  [a] is the state reached when
    the run ended. *)
Inductive result (A : Type) : Type :=
  | Done (a : A)
  | Fatal (msg : string) (a : A)
  | AssertFailed (a : A)
  | OutOfBounds (v : vector_name) (a : A).

Arguments Done {A} a.
Arguments Fatal {A} msg a.
Arguments AssertFailed {A} a.
Arguments OutOfBounds {A} v a.

Definition result_map {A B : Type} (f : A -> B) (r : result A) : result B :=
  match r with
  | Done a => Done (f a)
  | Fatal msg a => Fatal msg (f a)
  | AssertFailed a => AssertFailed (f a)
  | OutOfBounds v a => OutOfBounds v (f a)
  end.

(** ** Splitting a mergeable section: the [MergeableSection] constructor *)

(** [data.find('\0')]: the index of the first null byte, [None] for
    [npos].  Bytes are [Z] values in 0..255. *)
Fixpoint find_null (data : list Z) : option nat :=
  match data with
  | [] => None
  | b :: rest => if b =? 0 then Some O else S <$> find_null rest
  end.

(** What the constructor builds: the [pieces] vector of the new section
    (piece and offset; a [StringPiece] is identified with the bytes it was
    interned under) and the contents of [parent.map]. *)
Record MergeablePieces : Type := mkMergeablePieces {
  pieces : list (list Z * Z);
  parent_map : gset (list Z)
}.

(** The [while (!data.empty())] loop; [this] is [to_string(this)] and
    [offset] is a [u32].  Every iteration consumes at least one byte, so
    fuel equal to the length of the data is enough; [None] stands for
    running out of fuel. *)
Fixpoint split_pieces (fuel : nat) (this : string) (data : list Z) (offset : Z)
  (st : MergeablePieces) : option (result MergeablePieces) :=
  match data with
  | [] => Some (Done st)
  | _ :: _ =>
      match fuel with
      | O => None
      | S fuel' =>
          match find_null data with
          | None => Some (Fatal (this +:+ ": string is not null terminated") st)
          | Some end_ =>
              let substr := take (S end_) data in
              let data' := drop (S end_) data in
              let st' :=
                mkMergeablePieces (pieces st ++ [(substr, offset)])
                                  ({[substr]} ∪ parent_map st) in
              split_pieces fuel' this data'
                           (u32 (offset + Z.of_nat (length substr))) st'
          end
      end
  end.

(** [to_string] of an input chunk. *)
Definition to_string_chunk (file_str name : string) : string :=
  file_str +:+ ":(" +:+ name +:+ ")".

(** The constructor body: [file_str] is [to_string(isec->file)], [name] is
    [isec->name], [map0] the strings already in the parent [MergedSection],
    [data] the payload. *)
Definition new_MergeableSection (file_str name : string) (map0 : gset (list Z))
  (data : list Z) : option (result MergeablePieces) :=
  split_pieces (length data) (to_string_chunk file_str name) data 0
               (mkMergeablePieces [] map0).

(** A null-terminated string: a null byte and none before it. *)
Definition cstring (s : list Z) : Prop :=
  exists body : list Z, s = body ++ [0] /\ 0 ∉ body.

(** The offsets the pieces get: running [u32] sums of their lengths. *)
Fixpoint piece_offsets (offset : Z) (strs : list (list Z)) : list Z :=
  match strs with
  | [] => []
  | s :: rest => offset :: piece_offsets (u32 (offset + Z.of_nat (length s))) rest
  end.

(** The claim's reading of "not null-terminated": the payload has no null
    byte at all, or a non-empty suffix follows its last null byte. *)
Definition not_null_terminated (data : list Z) : Prop :=
  0 ∉ data \/
  exists pre tail : list Z, data = pre ++ 0 :: tail /\ tail <> [] /\ 0 ∉ tail.

(** ** Relocations: the data of [input_sections.cc] *)

Record ElfRela : Type := mkRela {
  r_offset : Z;
  r_type : Z;
  r_sym : nat;
  r_addend : Z
}.

(** The fields of [Symbol] the relocation code reads and writes.  The
    [*_addr] fields are the values of the getters [get_addr()],
    [get_plt_addr()], [get_got_addr()], [get_tlsgd_addr()],
    [get_tlsld_addr()] and [get_gottpoff_addr()], whose bodies are in
    [mold.h]; [sym_file = None] is [file == nullptr]; the [*_idx] fields
    are [-1] when unset. *)
Record Symbol : Type := mkSymbol {
  sym_file : option nat;
  is_placeholder : bool;
  is_imported : bool;
  sym_type : Z;
  needs_got : bool;
  needs_plt : bool;
  needs_copyrel : bool;
  needs_tlsgd : bool;
  needs_tlsld : bool;
  needs_gottpoff : bool;
  plt_idx : Z;
  tlsgd_idx : Z;
  tlsld_idx : Z;
  sym_addr : Z;
  plt_addr : Z;
  got_addr : Z;
  tlsgd_addr : Z;
  tlsld_addr : Z;
  gottpoff_addr : Z
}.

(** The need-flags of a symbol, in the order of the fields. *)
Definition needs (s : Symbol) : list bool :=
  [ needs_got s; needs_plt s; needs_copyrel s;
    needs_tlsgd s; needs_tlsld s; needs_gottpoff s ].

Definition with_needs (s : Symbol) (g p c gd ld tp : bool) : Symbol :=
  mkSymbol (sym_file s) (is_placeholder s) (is_imported s) (sym_type s)
           g p c gd ld tp
           (plt_idx s) (tlsgd_idx s) (tlsld_idx s)
           (sym_addr s) (plt_addr s) (got_addr s)
           (tlsgd_addr s) (tlsld_addr s) (gottpoff_addr s).

Definition set_needs_got (s : Symbol) : Symbol :=
  with_needs s true (needs_plt s) (needs_copyrel s)
             (needs_tlsgd s) (needs_tlsld s) (needs_gottpoff s).
Definition set_needs_plt (s : Symbol) : Symbol :=
  with_needs s (needs_got s) true (needs_copyrel s)
             (needs_tlsgd s) (needs_tlsld s) (needs_gottpoff s).
Definition set_needs_copyrel (s : Symbol) : Symbol :=
  with_needs s (needs_got s) (needs_plt s) true
             (needs_tlsgd s) (needs_tlsld s) (needs_gottpoff s).
Definition set_needs_tlsgd (s : Symbol) : Symbol :=
  with_needs s (needs_got s) (needs_plt s) (needs_copyrel s)
             true (needs_tlsld s) (needs_gottpoff s).
Definition set_needs_tlsld (s : Symbol) : Symbol :=
  with_needs s (needs_got s) (needs_plt s) (needs_copyrel s)
             (needs_tlsgd s) true (needs_gottpoff s).
Definition set_needs_gottpoff (s : Symbol) : Symbol :=
  with_needs s (needs_got s) (needs_plt s) (needs_copyrel s)
             (needs_tlsgd s) (needs_tlsld s) true.

(** [ref.piece] is null ([None]) or points to a string piece, of which
    only [get_addr()] is used. *)
Record StringPieceRef : Type := mkPieceRef {
  piece : option Z;
  addend : Z
}.

(** The object file of the section: the [Symbol] objects its [symbols]
    vector points to, its [has_error] flag and [to_string(file)]. *)
Record FileState : Type := mkFileState {
  symbols : list Symbol;
  has_error : bool
}.

Record InputSection : Type := mkInputSection {
  file_str : string;
  isec_name : string;
  isec_shdr : ElfShdr;
  isec_offset : Z;
  output_shdr : ElfShdr;
  rels : list ElfRela;
  rel_pieces : list StringPieceRef;
  contents : list Z
}.

(** The cases of the two [switch] statements on [rel.r_type]. *)
Inductive RelKind : Type :=
  | K_NONE | K_64 | K_PC32 | K_GOT32 | K_PLT32
  | K_GOTPCREL | K_GOTPCRELX | K_REX_GOTPCRELX
  | K_32 | K_32S | K_16 | K_PC16 | K_8 | K_PC8
  | K_TLSGD | K_TLSLD
  | K_DTPOFF32 | K_TPOFF32 | K_DTPOFF64 | K_TPOFF64
  | K_GOTTPOFF | K_PC64 | K_GOTPC32
  | K_default.

Definition rel_kind (ty : Z) : RelKind :=
  if ty =? R_X86_64_NONE then K_NONE
  else if ty =? R_X86_64_64 then K_64
  else if ty =? R_X86_64_PC32 then K_PC32
  else if ty =? R_X86_64_GOT32 then K_GOT32
  else if ty =? R_X86_64_PLT32 then K_PLT32
  else if ty =? R_X86_64_GOTPCREL then K_GOTPCREL
  else if ty =? R_X86_64_GOTPCRELX then K_GOTPCRELX
  else if ty =? R_X86_64_REX_GOTPCRELX then K_REX_GOTPCRELX
  else if ty =? R_X86_64_32 then K_32
  else if ty =? R_X86_64_32S then K_32S
  else if ty =? R_X86_64_16 then K_16
  else if ty =? R_X86_64_PC16 then K_PC16
  else if ty =? R_X86_64_8 then K_8
  else if ty =? R_X86_64_PC8 then K_PC8
  else if ty =? R_X86_64_TLSGD then K_TLSGD
  else if ty =? R_X86_64_TLSLD then K_TLSLD
  else if ty =? R_X86_64_DTPOFF32 then K_DTPOFF32
  else if ty =? R_X86_64_TPOFF32 then K_TPOFF32
  else if ty =? R_X86_64_DTPOFF64 then K_DTPOFF64
  else if ty =? R_X86_64_TPOFF64 then K_TPOFF64
  else if ty =? R_X86_64_GOTTPOFF then K_GOTTPOFF
  else if ty =? R_X86_64_PC64 then K_PC64
  else if ty =? R_X86_64_GOTPC32 then K_GOTPC32
  else K_default.

(** [to_string(this) + ": unknown relocation: " + std::to_string(r_type)] *)
Definition unknown_relocation (isec : InputSection) (ty : Z) : string :=
  to_string_chunk (file_str isec) (isec_name isec)
    +:+ ": unknown relocation: " +:+ pretty ty.

(** [!sym.file || sym.is_placeholder] *)
Definition unresolved (sym : Symbol) : bool :=
  match sym_file sym with None => true | Some _ => false end
  || is_placeholder sym.

(** ** The relocation scanner: [InputSection::scan_relocations] *)

Definition update_symbol (st : FileState) (idx : nat) (sym : Symbol) : FileState :=
  mkFileState (<[idx := sym]> (symbols st)) (has_error st).

Definition set_has_error (st : FileState) : FileState :=
  mkFileState (symbols st) true.

(** The [TLSGD] and [TLSLD] cases: the assertion reads [rels[i + 1]]; an
    imported symbol gets its flag, otherwise [i++] skips the next entry. *)
Definition scan_tls (isec : InputSection) (i : nat) (st : FileState)
  (rel : ElfRela) (sym : Symbol) (set_flag : Symbol -> Symbol)
  : result (nat * FileState) :=
  match rels isec !! S i with
  | None => OutOfBounds Rels (i, st)
  | Some next =>
      if negb (r_type next =? R_X86_64_PLT32) then AssertFailed (i, st)
      else if is_imported sym then
        Done (i, update_symbol st (r_sym rel) (set_flag sym))
      else Done (S i, st)
  end.

(** The body of the [for] loop at index [i]: the value of [i] at the end
    of the body and the new state, or the way the run stops. *)
Definition scan_body (isec : InputSection) (i : nat) (st : FileState)
  : result (nat * FileState) :=
  match rels isec !! i with
  | None => OutOfBounds Rels (i, st)
  | Some rel =>
      match symbols st !! r_sym rel with
      | None => OutOfBounds Symbols (i, st)
      | Some sym =>
          if unresolved sym then Done (i, set_has_error st)
          else
            let set (f : Symbol -> Symbol) :=
              Done (i, update_symbol st (r_sym rel) (f sym)) in
            match rel_kind (r_type rel) with
            | K_NONE => Done (i, st)
            | K_8 | K_16 | K_32 | K_32S | K_64
            | K_PC8 | K_PC16 | K_PC32 | K_PC64 =>
                if is_imported sym then
                  if sym_type sym =? STT_OBJECT then set set_needs_copyrel
                  else set set_needs_plt
                else Done (i, st)
            | K_GOT32 | K_GOTPC32 | K_GOTPCREL | K_GOTPCRELX | K_REX_GOTPCRELX =>
                set set_needs_got
            | K_PLT32 =>
                if is_imported sym || (sym_type sym =? STT_GNU_IFUNC)
                then set set_needs_plt else Done (i, st)
            | K_TLSGD => scan_tls isec i st rel sym set_needs_tlsgd
            | K_TLSLD => scan_tls isec i st rel sym set_needs_tlsld
            | K_TPOFF32 | K_TPOFF64 | K_DTPOFF32 | K_DTPOFF64 => Done (i, st)
            | K_GOTTPOFF => set set_needs_gottpoff
            | K_default => Fatal (unknown_relocation isec (r_type rel)) (i, st)
            end
      end
  end.

(** The [for] loop from index [i] on; [None] stands for running out of
    fuel, which [length rels] units of never do. *)
Fixpoint scan_loop (fuel : nat) (isec : InputSection) (i : nat) (st : FileState)
  : option (result FileState) :=
  if (length (rels isec) <=? i)%nat then Some (Done st)
  else
    match fuel with
    | O => None
    | S fuel' =>
        match scan_body isec i st with
        | Done (i', st') => scan_loop fuel' isec (S i') st'
        | r => Some (result_map snd r)
        end
    end.

Definition scan_relocations (isec : InputSection) (st : FileState)
  : option (result FileState) :=
  if negb (has_flag (isec_shdr isec) SHF_ALLOC) then Some (Done st)
  else scan_loop (length (rels isec)) isec 0 st.

(** The loop, started at index 0 in [st0], comes to index [i] in state
    [st]. *)
Inductive scan_reaches (isec : InputSection) (st0 : FileState)
  : nat -> FileState -> Prop :=
  | scan_reaches_start : scan_reaches isec st0 0 st0
  | scan_reaches_next (i i' : nat) (st st' : FileState) :
      scan_reaches isec st0 i st ->
      (i < length (rels isec))%nat ->
      scan_body isec i st = Done (i', st') ->
      scan_reaches isec st0 (S i') st'.

(** The relocation families of the scanner's [switch]. *)
Definition direct_relocs : list Z :=
  [ R_X86_64_8; R_X86_64_16; R_X86_64_32; R_X86_64_32S; R_X86_64_64;
    R_X86_64_PC8; R_X86_64_PC16; R_X86_64_PC32; R_X86_64_PC64 ].

Definition got_relocs : list Z :=
  [ R_X86_64_GOT32; R_X86_64_GOTPC32; R_X86_64_GOTPCREL;
    R_X86_64_GOTPCRELX; R_X86_64_REX_GOTPCRELX ].

Definition tls_pair_relocs : list Z := [ R_X86_64_TLSGD; R_X86_64_TLSLD ].

(** ** The relocation applier: [InputSection::copy_buf] *)

(** The output buffer [out::buf]: a byte for every offset.  The code does
    no bounds checks on it and neither does the model. *)
Definition mem : Type := Z -> Z.

(** [memcpy(buf + addr, bs, bs.size())] *)
Definition store_bytes (addr : Z) (bs : list Z) (buf : mem) : mem :=
  fun a =>
    if (addr <=? a) && (a <? addr + Z.of_nat (length bs))
    then nth (Z.to_nat (a - addr)) bs 0
    else buf a.

(** The [n] low bytes of [v], least significant first. *)
Definition le_bytes (n : nat) (v : Z) : list Z :=
  map (fun k => (v / 2 ^ (8 * Z.of_nat k)) mod 256) (seq 0 n).

(** [*(uN * )loc = v] on a little-endian machine. *)
Definition store_u8 (loc v : Z) : mem -> mem := store_bytes loc (le_bytes 1 v).
Definition store_u16 (loc v : Z) : mem -> mem := store_bytes loc (le_bytes 2 v).
Definition store_u32 (loc v : Z) : mem -> mem := store_bytes loc (le_bytes 4 v).
Definition store_u64 (loc v : Z) : mem -> mem := store_bytes loc (le_bytes 8 v).

(** The unsigned value of the [n] bytes at [loc], little-endian. *)
Fixpoint load_le (n : nat) (buf : mem) (loc : Z) : Z :=
  match n with
  | O => 0
  | S n' => buf loc + 256 * load_le n' buf (loc + 1)
  end.

(** The globals the applier reads: [out::got->shdr.sh_addr] and
    [out::tls_end]. *)
Record Out : Type := mkOut {
  got_sh_addr : Z;
  tls_end : Z
}.

(** [mov %fs:0, %rax; lea x@tpoff, %rax] *)
Definition tlsgd_insn : list Z :=
  [ 100; 72; 139; 4; 37; 0; 0; 0; 0;
    72; 141; 128; 0; 0; 0; 0 ].

(** [mov %fs:0, %rax] with three prefixes *)
Definition tlsld_insn : list Z :=
  [ 102; 102; 102; 100; 72; 139; 4; 37; 0; 0; 0; 0 ].

(** [base], [sh_addr] and [loc] of [copy_buf], and its macros S, A, P, L,
    G and GOT; the values are [u64]. *)
Definition isec_base (isec : InputSection) : Z :=
  sh_offset (output_shdr isec) + isec_offset isec.

Definition isec_sh_addr (isec : InputSection) : Z :=
  u64 (sh_addr (output_shdr isec) + isec_offset isec).

Definition rel_loc (isec : InputSection) (rel : ElfRela) : Z :=
  isec_base isec + r_offset rel.

Definition val_S (sym : Symbol) (ref : StringPieceRef) : Z :=
  match piece ref with
  | Some piece_addr => piece_addr
  | None => sym_addr sym
  end.

Definition val_A (rel : ElfRela) (ref : StringPieceRef) : Z :=
  match piece ref with
  | Some _ => addend ref
  | None => r_addend rel
  end.

Definition val_P (isec : InputSection) (rel : ElfRela) : Z :=
  u64 (isec_sh_addr isec + r_offset rel).

Definition val_L (sym : Symbol) : Z := plt_addr sym.

Definition val_GOT (out : Out) : Z := got_sh_addr out.

Definition val_G (out : Out) (sym : Symbol) : Z :=
  u64 (got_addr sym - got_sh_addr out).

(** The body of the [for] loop at index [i]: the value of [i] at the end
    of the body and the new buffer, or the way the run stops. *)
Definition copy_body (out : Out) (isec : InputSection) (syms : list Symbol)
  (i : nat) (buf : mem) : result (nat * mem) :=
  match rels isec !! i with
  | None => OutOfBounds Rels (i, buf)
  | Some rel =>
  match rel_pieces isec !! i with
  | None => OutOfBounds RelPieces (i, buf)
  | Some ref =>
  match syms !! r_sym rel with
  | None => OutOfBounds Symbols (i, buf)
  | Some sym =>
      let loc := rel_loc isec rel in
      match sym_file sym with
      | None => Done (i, buf)
      | Some _ =>
          let S := val_S sym ref in
          let A := val_A rel ref in
          let P := val_P isec rel in
          let L := val_L sym in
          let G := val_G out sym in
          let GOT := val_GOT out in
          match rel_kind (r_type rel) with
          | K_NONE => Done (i, buf)
          | K_64 => Done (i, store_u64 loc (u64 (S + A)) buf)
          | K_PC32 => Done (i, store_u32 loc (u64 (S + A - P)) buf)
          | K_GOT32 => Done (i, store_u64 loc (u64 (G + A)) buf)
          | K_PLT32 =>
              if plt_idx sym =? -1
              then Done (i, store_u32 loc (u64 (S + A - P)) buf)
              else Done (i, store_u32 loc (u64 (L + A - P)) buf)
          | K_GOTPCREL | K_GOTPCRELX | K_REX_GOTPCRELX =>
              Done (i, store_u32 loc (u64 (G + GOT + A - P)) buf)
          | K_32 | K_32S => Done (i, store_u32 loc (u64 (S + A)) buf)
          | K_16 => Done (i, store_u16 loc (u64 (S + A)) buf)
          | K_PC16 => Done (i, store_u16 loc (u64 (S + A - P)) buf)
          | K_8 => Done (i, store_u8 loc (u64 (S + A)) buf)
          | K_PC8 => Done (i, store_u8 loc (u64 (S + A - P)) buf)
          | K_TLSGD =>
              if tlsgd_idx sym =? -1 then
                let buf := store_bytes (loc - 4) tlsgd_insn buf in
                let buf := store_u32 (loc + 8) (u64 (S - tls_end out + A + 4)) buf in
                Done (Datatypes.S i, buf)
              else Done (i, store_u32 loc (u64 (tlsgd_addr sym + A - P)) buf)
          | K_TLSLD =>
              if tlsld_idx sym =? -1 then
                Done (Datatypes.S i, store_bytes (loc - 3) tlsld_insn buf)
              else Done (i, store_u32 loc (u64 (tlsld_addr sym + A - P)) buf)
          | K_DTPOFF32 | K_TPOFF32 =>
              Done (i, store_u32 loc (u64 (S + A - tls_end out)) buf)
          | K_DTPOFF64 | K_TPOFF64 =>
              Done (i, store_u64 loc (u64 (S + A - tls_end out)) buf)
          | K_GOTTPOFF =>
              Done (i, store_u32 loc (u64 (gottpoff_addr sym + A - P)) buf)
          | K_PC64 => Done (i, store_u64 loc (u64 (S + A - P)) buf)
          | K_GOTPC32 => Done (i, store_u32 loc (u64 (GOT + A - P)) buf)
          | K_default => Fatal (unknown_relocation isec (r_type rel)) (i, buf)
          end
      end
  end end end.

Fixpoint copy_loop (fuel : nat) (out : Out) (isec : InputSection)
  (syms : list Symbol) (i : nat) (buf : mem) : option (result mem) :=
  if (length (rels isec) <=? i)%nat then Some (Done buf)
  else
    match fuel with
    | O => None
    | Datatypes.S fuel' =>
        match copy_body out isec syms i buf with
        | Done (i', buf') => copy_loop fuel' out isec syms (Datatypes.S i') buf'
        | r => Some (result_map snd r)
        end
    end.

(** [copy_buf]: [syms] are the symbols of the section's file, [buf] the
    output buffer before the call. *)
Definition copy_buf (out : Out) (isec : InputSection) (syms : list Symbol)
  (buf : mem) : option (result mem) :=
  if (sh_type (isec_shdr isec) =? SHT_NOBITS) || (sh_size (isec_shdr isec) =? 0)
  then Some (Done buf)
  else
    let buf := store_bytes (isec_base isec) (contents isec) buf in
    copy_loop (length (rels isec)) out isec syms 0 buf.

(** Every relocation type [copy_buf] has a case for. *)
Definition known_relocs : list Z :=
  [ R_X86_64_NONE; R_X86_64_64; R_X86_64_PC32; R_X86_64_GOT32; R_X86_64_PLT32;
    R_X86_64_GOTPCREL; R_X86_64_GOTPCRELX; R_X86_64_REX_GOTPCRELX;
    R_X86_64_32; R_X86_64_32S; R_X86_64_16; R_X86_64_PC16;
    R_X86_64_8; R_X86_64_PC8; R_X86_64_TLSGD; R_X86_64_TLSLD;
    R_X86_64_DTPOFF32; R_X86_64_TPOFF32; R_X86_64_DTPOFF64; R_X86_64_TPOFF64;
    R_X86_64_GOTTPOFF; R_X86_64_PC64; R_X86_64_GOTPC32 ].

(** ** Sample inputs *)

(** A small image: a header chunk, [.text], [.tdata], [.tbss], [.data],
    [.bss] and a non-allocated [.comment]. *)
Definition sample_chunks : list OutputChunk :=
  [ mkChunk (mkShdr 0 2 0 0 64 8) true;
    mkChunk (mkShdr 1 6 0 0 4133 16) true;
    mkChunk (mkShdr 1 1027 0 0 24 8) true;
    mkChunk (mkShdr 8 1027 0 0 40 8) false;
    mkChunk (mkShdr 1 3 0 0 321 32) false;
    mkChunk (mkShdr 8 3 0 0 1000 64) false;
    mkChunk (mkShdr 1 0 0 0 77 1) false ].

(** An output section of seven members. *)
Definition sample_osec : OutputSection :=
  mkOutputSection
    [ mkInputChunk (mkShdr 1 2 0 0 3 1) 0;
      mkInputChunk (mkShdr 1 2 0 0 10 4) 0;
      mkInputChunk (mkShdr 1 2 0 0 5 8) 0;
      mkInputChunk (mkShdr 1 2 0 0 0 16) 0;
      mkInputChunk (mkShdr 1 2 0 0 7 2) 0;
      mkInputChunk (mkShdr 1 2 0 0 1 1) 0;
      mkInputChunk (mkShdr 1 2 0 0 9 4) 0 ]
    (mkShdr 1 2 0 0 0 0).

(** An output section of three members of 2^63 bytes each, alignment 1. *)
Definition huge_osec : OutputSection :=
  mkOutputSection
    [ mkInputChunk (mkShdr 8 3 0 0 (2 ^ 63) 1) 0;
      mkInputChunk (mkShdr 8 3 0 0 (2 ^ 63) 1) 0;
      mkInputChunk (mkShdr 8 3 0 0 (2 ^ 63) 1) 0 ]
    (mkShdr 8 3 0 0 0 0).

(** Three files that all contain fragment 7; the file of priority 2 comes
    second on the command line. *)
Definition sample_objs : list ObjectFile :=
  [ mkObjectFile (mkInputFile 5) [mkMergeableSection 100 (mkInputFile 5) [7; 8]%nat];
    mkObjectFile (mkInputFile 2) [mkMergeableSection 200 (mkInputFile 2) [8; 7; 9]%nat];
    mkObjectFile (mkInputFile 3) [mkMergeableSection 300 (mkInputFile 3) [7]%nat] ].

(** A symbol with no need-flag set, no table index and address [addr]. *)
Definition sample_symbol (f : option nat) (placeholder imported : bool)
  (ty addr : Z) : Symbol :=
  mkSymbol f placeholder imported ty false false false false false false
           (-1) (-1) (-1) addr 0 0 0 0 0.

(** An allocated [.text] with a PC32, a GOTPCREL and a PLT32 relocation,
    and the three symbols they refer to, all defined. *)
Definition sample_scan_isec : InputSection :=
  mkInputSection "a.o" ".text" (mkShdr 1 6 0 0 32 16) 0 (mkShdr 1 6 4096 4096 32 16)
    [ mkRela 4 R_X86_64_PC32 0 (-4);
      mkRela 12 R_X86_64_GOTPCREL 1 (-4);
      mkRela 20 R_X86_64_PLT32 2 (-4) ]
    [ mkPieceRef None 0; mkPieceRef None 0; mkPieceRef None 0 ]
    (repeat 0 32).

Definition sample_scan_state : FileState :=
  mkFileState
    [ sample_symbol (Some 7%nat) false true STT_OBJECT 8192;
      sample_symbol (Some 1%nat) false false 2 4128;
      sample_symbol (Some 7%nat) false true 2 8200 ]
    false.

(** An allocated [.text] with a TLSGD of a symbol that is not imported,
    followed by its PLT32 to an imported [__tls_get_addr]. *)
Definition tls_scan_isec : InputSection :=
  mkInputSection "a.o" ".text" (mkShdr 1 6 0 0 32 16) 0 (mkShdr 1 6 4096 4096 32 16)
    [ mkRela 4 R_X86_64_TLSGD 0 (-4);
      mkRela 12 R_X86_64_PLT32 1 (-4) ]
    [ mkPieceRef None 0; mkPieceRef None 0 ]
    (repeat 0 32).

Definition tls_scan_state : FileState :=
  mkFileState
    [ sample_symbol (Some 1%nat) false false 6 16;
      sample_symbol (Some 7%nat) false true 2 8200 ]
    false.

(** An allocated [.text] whose only relocation is a TLSGD, and a file
    whose only symbol is undefined. *)
Definition trailing_tls_isec : InputSection :=
  mkInputSection "a.o" ".text" (mkShdr 1 6 0 0 32 16) 0 (mkShdr 1 6 4096 4096 32 16)
    [ mkRela 4 R_X86_64_TLSGD 0 (-4) ]
    [ mkPieceRef None 0 ]
    (repeat 0 32).

Definition undefined_state : FileState :=
  mkFileState [ sample_symbol None false false 0 0 ] false.

(** The output buffer before anything is written, and the globals. *)
Definition zero_mem : mem := fun _ => 0.

Definition sample_out : Out := mkOut 12288 64.

(** A [.text] of 32 bytes 0xaa with a TLSGD of a symbol without a TLSGD
    slot, followed by its PLT32. *)
Definition tls_copy_isec : InputSection :=
  mkInputSection "a.o" ".text" (mkShdr 1 6 0 0 32 16) 0
    (mkShdr 1 6 4198400 4096 32 16)
    [ mkRela 8 R_X86_64_TLSGD 0 (-4);
      mkRela 16 R_X86_64_PLT32 1 (-4) ]
    [ mkPieceRef None 0; mkPieceRef None 0 ]
    (repeat 170 32).

Definition tls_copy_syms : list Symbol :=
  [ sample_symbol (Some 1%nat) false false 6 16;
    sample_symbol (Some 7%nat) false true 2 8200 ].

(** A section that is not allocated, of 32 bytes 0xaa, with a TLSGD
    relocation; it is used with the undefined symbol above. *)
Definition undefined_tls_isec : InputSection :=
  mkInputSection "a.o" ".debug_info" (mkShdr 1 0 0 0 32 1) 0
    (mkShdr 1 0 0 4096 32 1)
    [ mkRela 8 R_X86_64_TLSGD 0 (-4) ]
    [ mkPieceRef None 0 ]
    (repeat 170 32).

(** A [.debug_info] that is not allocated, with one R_X86_64_64
    relocation; it is used with the undefined symbol above. *)
Definition debug_isec : InputSection :=
  mkInputSection "a.o" ".debug_info" (mkShdr 1 0 0 0 32 1) 0
    (mkShdr 1 0 0 4096 32 1)
    [ mkRela 8 R_X86_64_64 0 0 ]
    [ mkPieceRef None 0 ]
    (repeat 0 32).

(** ** The relocation loops as a whole *)

(** The state a run ended in, however it ended. *)
Definition result_state {A : Type} (r : result A) : A :=
  match r with
  | Done a | Fatal _ a | AssertFailed a | OutOfBounds _ a => a
  end.

(** The six need-flags, and the assignment [sym.needs_... = true]. *)
Inductive Need : Type :=
  | NeedGot | NeedPlt | NeedCopyrel | NeedTlsgd | NeedTlsld | NeedGottpoff.

Definition set_need (n : Need) : Symbol -> Symbol :=
  match n with
  | NeedGot => set_needs_got
  | NeedPlt => set_needs_plt
  | NeedCopyrel => set_needs_copyrel
  | NeedTlsgd => set_needs_tlsgd
  | NeedTlsld => set_needs_tlsld
  | NeedGottpoff => set_needs_gottpoff
  end.

(** The two writes the scanner makes: [file->has_error = true], and one
    need-flag of the symbol [file->symbols[idx]] set. *)
Inductive ScanAction : Type :=
  | SetError
  | Raise (idx : nat) (n : Need).

Definition apply_action (st : FileState) (a : ScanAction) : FileState :=
  match a with
  | SetError => set_has_error st
  | Raise idx n =>
      match symbols st !! idx with
      | Some sym => update_symbol st idx (set_need n sym)
      | None => st
      end
  end.

Definition apply_actions (acts : list ScanAction) (st : FileState) : FileState :=
  fold_left apply_action acts st.

(** A symbol without its need-flags: the fields the scanner only reads. *)
Definition skeleton (s : Symbol) : Symbol :=
  with_needs s false false false false false false.

(** Two states of a file whose symbols differ in need-flags at most. *)
Definition same_skeleton (st t : FileState) : Prop :=
  map skeleton (symbols st) = map skeleton (symbols t).

(** [s'] is [s] with some more need-flags set. *)
Definition needs_raised (s s' : Symbol) : Prop :=
  skeleton s' = skeleton s /\
  Forall2 (fun a b : bool => a = true -> b = true) (needs s) (needs s').

(** [st'] is [st] with some more need-flags set, and [has_error] set if
    it was. *)
Definition state_raised (st st' : FileState) : Prop :=
  Forall2 needs_raised (symbols st) (symbols st') /\
  (has_error st = true -> has_error st' = true).

(** The widest window of bytes a relocation at [loc] is applied in: the
    relaxed TLSGD sequence starts four bytes before [loc] and ends twelve
    bytes after it. *)
Definition in_reloc_window (isec : InputSection) (a : Z) : Prop :=
  exists rel : ElfRela,
    rel ∈ rels isec /\ rel_loc isec rel - 4 <= a < rel_loc isec rel + 12.

(** ** Reporting: [InputSection::report_undefined_symbols] *)

(** The line written to [std::cerr] for one symbol; [name] is [sym.name]. *)
Definition undefined_symbol_line (isec : InputSection) (name : string) : string :=
  "undefined symbol: " +:+ file_str isec +:+ ": " +:+ name +:+ String (Ascii.ascii_of_nat 10) "".

(** The range-based [for] loop over [rels].  [sym_name idx] is the [name]
    field of the symbol [file->symbols[idx]] (the record [Symbol] above
    leaves it out); [cerr] is the list of lines written so far. *)
Fixpoint report_loop (isec : InputSection) (syms : list Symbol)
  (sym_name : nat -> string) (rs : list ElfRela) (cerr : list string)
  : result (list string) :=
  match rs with
  | [] => Done cerr
  | rel :: rest =>
      match syms !! r_sym rel with
      | None => OutOfBounds Symbols cerr
      | Some sym =>
          let cerr :=
            if unresolved sym
            then cerr ++ [undefined_symbol_line isec (sym_name (r_sym rel))]
            else cerr in
          report_loop isec syms sym_name rest cerr
      end
  end.

Definition report_undefined_symbols (isec : InputSection) (syms : list Symbol)
  (sym_name : nat -> string) (cerr : list string) : result (list string) :=
  if negb (has_flag (isec_shdr isec) SHF_ALLOC) then Done cerr
  else report_loop isec syms sym_name (rels isec) cerr.

(** ** How the functions of [main.cc] end *)

(** Modelled from the spec: [Fatal() << msg], of [mold.h], prints the
    message and ends the process (the spec calls such conditions fatal):
    [Exits msg].  The other ways a call ends: [Returns a]; [Aborts], an
    [assert] does not hold (assertions are taken as compiled in);
    [Undefined], the code indexes a vector out of its range or calls
    [back()] on an empty one, where the model stops. *)
Inductive outcome (A : Type) : Type :=
  | Returns (a : A)
  | Exits (msg : string)
  | Aborts
  | Undefined.

Arguments Returns {A} a.
Arguments Exits {A} msg.
Arguments Aborts {A}.
Arguments Undefined {A}.

(** ** Input files: [get_file_type] and [FileCache] *)

(** The fields of [MemoryMappedFile] that [main.cc] reads: [name], the
    bytes [data()] of the file ([size()] is their number) and [mtime]. *)
Record MemoryMappedFile : Type := mkMemoryMappedFile {
  mb_name : string;
  mb_data : list Z;
  mb_mtime : Z
}.

Definition mb_size (mb : MemoryMappedFile) : Z := Z.of_nat (length (mb_data mb)).

(** [mb->data()[i]], for [i] below the size. *)
Definition mb_byte (mb : MemoryMappedFile) (i : nat) : Z := nth i (mb_data mb) 0.

(** [isprint] in the "C" locale, which [main] never changes: the
    characters from space to tilde. *)
Definition isprint (c : Z) : bool := (32 <=? c) && (c <=? 126).

Definition is_text_file (mb : MemoryMappedFile) : bool :=
  (4 <=? mb_size mb) &&
  isprint (mb_byte mb 0) && isprint (mb_byte mb 1) &&
  isprint (mb_byte mb 2) && isprint (mb_byte mb 3).

Inductive FileType : Type := UNKNOWN | OBJ | DSO | AR | THIN_AR | TEXT.

(** The magic numbers: "\177ELF", "!<arch>\n" and "!<thin>\n". *)
Definition elf_magic : list Z := [127; 69; 76; 70].
Definition ar_magic : list Z := [33; 60; 97; 114; 99; 104; 62; 10].
Definition thin_ar_magic : list Z := [33; 60; 116; 104; 105; 110; 62; 10].

(** [memcmp(mb->data(), magic, n) == 0], [n] being the length of the
    magic; the code calls it on files of [n] bytes at least. *)
Definition has_magic (mb : MemoryMappedFile) (magic : list Z) : bool :=
  bool_decide (take (length magic) (mb_data mb) = magic).

(** [ehdr.e_type]: in the ELF header the 16 bytes of [e_ident] are
    followed by the 16-bit [e_type], little-endian on x86-64.  [ET_REL]
    and [ET_DYN] carry their System V ABI values. *)
Definition ET_REL : Z := 1.
Definition ET_DYN : Z := 3.

Definition e_type (mb : MemoryMappedFile) : Z := mb_byte mb 16 + 256 * mb_byte mb 17.

Definition get_file_type (mb : MemoryMappedFile) : FileType :=
  if (20 <=? mb_size mb) && has_magic mb elf_magic then
    if e_type mb =? ET_REL then OBJ
    else if e_type mb =? ET_DYN then DSO
    else UNKNOWN
  else if (8 <=? mb_size mb) && has_magic mb ar_magic then AR
  else if (8 <=? mb_size mb) && has_magic mb thin_ar_magic then THIN_AR
  else if is_text_file mb then TEXT
  else UNKNOWN.

(** [FileCache<T>]: a [std::map] from (name, size, mtime) to a vector of
    objects.  [cache[k]] on a key that is not in the map puts an empty
    vector there. *)
Abbreviation Key := (string * Z * Z)%type.

Abbreviation FileCache T := (gmap Key (list T)).

Definition cache_key (mb : MemoryMappedFile) : Key :=
  (mb_name mb, mb_size mb, mb_mtime mb).

Definition cache_at {T : Type} (cache : FileCache T) (k : Key) : list T :=
  default [] (cache !! k).

(** [store]: [cache[k].push_back(obj)] *)
Definition store {T : Type} (mb : MemoryMappedFile) (obj : T) (cache : FileCache T)
  : FileCache T :=
  <[cache_key mb := cache_at cache (cache_key mb) ++ [obj]]> cache.

(** [get]: a copy of [cache[k]], which is then cleared. *)
Definition get {T : Type} (mb : MemoryMappedFile) (cache : FileCache T)
  : list T * FileCache T :=
  (cache_at cache (cache_key mb), <[cache_key mb := []]> cache).

(** [get_one]: the first object of [get(mb)], [None] for [nullptr]. *)
Definition get_one {T : Type} (mb : MemoryMappedFile) (cache : FileCache T)
  : option T * FileCache T :=
  let '(objs, cache') := get mb cache in (head objs, cache').

(** ** Library search: [find_library] *)

Section FindLibrary.

(** [MemoryMappedFile::open(path)]: the file at [path], [None] (a null
    pointer) when it cannot be opened. *)
Variable open : string -> option MemoryMappedFile.

(** [sysroot] is [config.sysroot] and [is_static] is [config.is_static]. *)
Variable sysroot : string.
Variable is_static : bool.

Definition library_stem (name dir : string) : string :=
  let root := if String.prefix "/" dir then sysroot else "" in
  root +:+ dir +:+ "/lib" +:+ name.

(** The loop over [lib_paths]; [None] when it runs to its end. *)
Fixpoint find_library_loop (name : string) (lib_paths : list string)
  : option MemoryMappedFile :=
  match lib_paths with
  | [] => None
  | dir :: rest =>
      let stem := library_stem name dir in
      match (if negb is_static then open (stem +:+ ".so") else None) with
      | Some mb => Some mb
      | None =>
          match open (stem +:+ ".a") with
          | Some mb => Some mb
          | None => find_library_loop name rest
          end
      end
  end.

Definition find_library (name : string) (lib_paths : list string)
  : outcome MemoryMappedFile :=
  match find_library_loop name lib_paths with
  | Some mb => Returns mb
  | None => Exits ("library not found: " +:+ name)
  end.

End FindLibrary.

(** ** [main]: unique sonames and file priorities *)

(** The fields of a [SharedFile] that [main] reads and writes: its
    [soname] and its [InputFile] base. *)
Record SharedFile : Type := mkSharedFile {
  soname : string;
  dso_file : InputFile
}.

(** The loop that keeps the first file of every soname; [seen] is the
    [std::unordered_set], and [seen.insert(soname).second] holds when the
    soname was not in it. *)
Fixpoint uniquify_loop (seen : gset string) (dsos : list SharedFile)
  : list SharedFile :=
  match dsos with
  | [] => []
  | file :: rest =>
      if decide (soname file ∈ seen) then uniquify_loop seen rest
      else file :: uniquify_loop ({[soname file]} ∪ seen) rest
  end.

Definition uniquify_dsos (dsos : list SharedFile) : list SharedFile :=
  uniquify_loop ∅ dsos.






(** The files the search tries, in order: for every directory,
    [lib<name>.so] unless the link is static, then [lib<name>.a]. *)
Definition library_candidates (sysroot : string) (is_static : bool)
  (name : string) (lib_paths : list string) : list string :=
  flat_map
    (fun dir =>
       let stem := library_stem sysroot name dir in
       if is_static then [stem +:+ ".a"] else [stem +:+ ".so"; stem +:+ ".a"])
    lib_paths.

(** The number of files a numbering loop selects. *)
Definition count_selected {F : Type} (selected : F -> bool) (files : list F) : Z :=
  Z.of_nat (length (List.filter selected files)).

(** ** Binning input sections: [bin_sections] *)

Section BinSections.

Context {File Isec : Type}.

(** [file->sections], a null entry being [None], and
    [isec->output_section->idx]. *)
Variable sections : File -> list (option Isec).
Variable output_section_idx : Isec -> nat.

(** [groups[i][isec->output_section->idx].push_back(isec)] *)
Definition push_member (group : list (list Isec)) (isec : Isec)
  : outcome (list (list Isec)) :=
  match group !! output_section_idx isec with
  | None => Undefined
  | Some v => Returns (<[output_section_idx isec := v ++ [isec]]> group)
  end.

(** The loop over the sections of a file, and over the files of a
    slice. *)
Fixpoint bin_file (secs : list (option Isec)) (group : list (list Isec))
  : outcome (list (list Isec)) :=
  match secs with
  | [] => Returns group
  | None :: rest => bin_file rest group
  | Some isec :: rest =>
      match push_member group isec with
      | Returns group' => bin_file rest group'
      | e => e
      end
  end.

Fixpoint bin_slice (slice : list File) (group : list (list Isec))
  : outcome (list (list Isec)) :=
  match slice with
  | [] => Returns group
  | file :: rest =>
      match bin_file (sections file) group with
      | Returns group' => bin_slice rest group'
      | e => e
      end
  end.

(** The first [parallel_for]: one group per slice, of [num_osec] empty
    vectors at first. *)
Fixpoint bin_slices (num_osec : nat) (slices : list (list File))
  : outcome (list (list (list Isec))) :=
  match slices with
  | [] => Returns []
  | slice :: rest =>
      match bin_slice slice (replicate num_osec []) with
      | Returns group =>
          match bin_slices num_osec rest with
          | Returns groups => Returns (group :: groups)
          | e => e
          end
      | Exits msg => Exits msg
      | Aborts => Aborts
      | Undefined => Undefined
      end
  end.

(** [sizes[i] += group[i].size()] over all groups; the sizes are [i64]. *)
Definition group_sizes (num_osec : nat) (groups : list (list (list Isec)))
  : list Z :=
  fold_left
    (fun sizes group =>
       zip_with (fun sz v => i64 (sz + Z.of_nat (length v))) sizes group)
    groups (replicate num_osec 0).

(** [append(instances[j]->members, groups[i][j])] for every [i]. *)
Definition append_groups (groups : list (list (list Isec))) (j : nat)
  (members : list Isec) : list Isec :=
  fold_left (fun m group => m ++ default [] (group !! j)) groups members.

(** [bin_sections]: [instances] are the [members] vectors of
    [OutputSection::instances]; the result is these vectors after the
    call, and the vector [sizes] that was passed to [reserve].  The
    assertion is that of [split]. *)
Definition bin_sections (objs : list File) (instances : list (list Isec))
  : outcome (list (list Isec) * list Z) :=
  match objs with
  | [] => Aborts
  | _ :: _ =>
      let unit := (Z.of_nat (length objs) + 127) / 128 in
      let slices := split objs (Z.to_nat unit) in
      let num_osec := length instances in
      match bin_slices num_osec slices with
      | Returns groups =>
          Returns (imap (append_groups groups) instances,
                   group_sizes num_osec groups)
      | Exits msg => Exits msg
      | Aborts => Aborts
      | Undefined => Undefined
      end
  end.

(** The sections of the files that are not null, in the order of the
    files and of their section tables. *)
Definition present_sections (objs : list File) : list Isec :=
  flat_map (fun file => omap id (sections file)) objs.

(** The sections of [l] that belong to output section [j]; whether all of
    [l] belong to one of the first [n] output sections; and the group that
    the sections of a slice make. *)
Definition bucket (j : nat) (l : list Isec) : list Isec :=
  filter (fun isec => output_section_idx isec = j) l.

Definition all_in_range (n : nat) (l : list Isec) : bool :=
  forallb (fun isec => (output_section_idx isec <? n)%nat) l.

Definition slice_group (n : nat) (slice : list File) : list (list Isec) :=
  map (fun j => bucket j (present_sections slice)) (seq 0 n).

End BinSections.

(** ** Zeroing the padding: [clear_padding] *)

(** [memset(out::buf + addr, 0, n)] *)
Definition memset_zero (addr n : Z) (buf : mem) : mem :=
  fun a => if (addr <=? a) && (a <? addr + n) then 0 else buf a.

(** The lambda [zero]: [pos] is an [i64]; the length passed to [memset]
    is a [size_t]. *)
Definition zero (chunk : OutputChunk) (next_start : Z) (buf : mem) : mem :=
  let pos := i64 (sh_offset (shdr chunk)) in
  let pos :=
    if negb (sh_type (shdr chunk) =? SHT_NOBITS)
    then i64 (pos + sh_size (shdr chunk)) else pos in
  memset_zero pos (u64 (next_start - pos)) buf.

(** The loop [for (i = 1; i < chunks.size(); i++) zero(chunks[i - 1],
    chunks[i]->shdr.sh_offset)]. *)
Fixpoint clear_gaps (chunks : list OutputChunk) (buf : mem) : mem :=
  match chunks with
  | chunk :: (next :: _) as rest =>
      clear_gaps rest (zero chunk (i64 (sh_offset (shdr next))) buf)
  | _ => buf
  end.

(** [clear_padding]; [out::chunks.back()] of an empty vector is
    undefined. *)
Definition clear_padding (filesize : Z) (chunks : list OutputChunk) (buf : mem)
  : outcome mem :=
  match last chunks with
  | None => Undefined
  | Some back => Returns (zero back filesize (clear_gaps chunks buf))
  end.

(** Where the bytes of a chunk end in the file: a [SHT_NOBITS] chunk has
    none. *)
Definition chunk_file_end (c : OutputChunk) : Z :=
  if sh_type (shdr c) =? SHT_NOBITS then sh_offset (shdr c)
  else sh_offset (shdr c) + sh_size (shdr c).

(** [a] is the offset of a byte of the chunk. *)
Definition in_chunk_file (c : OutputChunk) (a : Z) : Prop :=
  sh_offset (shdr c) <= a < chunk_file_end c.

(** The chunks follow one another in the file between [lo] and [hi]:
    each starts no earlier than the one before it ends. *)
Fixpoint chunks_in_order (lo : Z) (chunks : list OutputChunk) (hi : Z) : Prop :=
  match chunks with
  | [] => lo <= hi
  | c :: rest =>
      lo <= sh_offset (shdr c) /\ 0 <= sh_size (shdr c) /\
      chunks_in_order (chunk_file_end c) rest hi
  end.

(** A bound on the offsets and addresses [set_osec_offsets] reaches: for
    every chunk its size, one padding to its alignment and two to the page
    size. *)
Fixpoint osec_weight (PAGE_SIZE : Z) (chunks : list OutputChunk) : Z :=
  match chunks with
  | [] => 0
  | c :: rest =>
      sh_size (shdr c) + sh_addralign (shdr c) + 2 * PAGE_SIZE +
      osec_weight PAGE_SIZE rest
  end.

(** A chunk of non-negative size and positive alignment. *)
Definition wf_chunk (c : OutputChunk) : Prop :=
  0 <= sh_size (shdr c) /\ 0 < sh_addralign (shdr c).

(** ** What [copy_buf] may write *)

(** The bytes [copy_buf] may write for a section: its image in the output
    buffer and the windows of its relocations. *)
Definition in_image (isec : InputSection) (a : Z) : Prop :=
  isec_base isec <= a < isec_base isec + Z.of_nat (length (contents isec)).

Definition footprint (isec : InputSection) (a : Z) : Prop :=
  in_image isec a \/ in_reloc_window isec a.

(** A buffer transformer that only writes: what it leaves at an address
    is a value it put there, the same whatever the buffer was, or what
    the buffer held. *)
Definition write_only (f : mem -> mem) : Prop :=
  forall (b1 b2 : mem) (a : Z),
    f b1 a = f b2 a \/ (f b1 a = b1 a /\ f b2 a = b2 a).

(** ** More sample inputs, and auxiliary notions *)

(** A [.text] of 32 bytes 0xaa with a TLSLD of a symbol without a TLSLD
    slot, followed by its PLT32. *)
Definition tlsld_copy_isec : InputSection :=
  mkInputSection "a.o" ".text" (mkShdr 1 6 0 0 32 16) 0
    (mkShdr 1 6 4198400 4096 32 16)
    [ mkRela 8 R_X86_64_TLSLD 0 (-4);
      mkRela 16 R_X86_64_PLT32 1 (-4) ]
    [ mkPieceRef None 0; mkPieceRef None 0 ]
    (repeat 170 32).

(** An allocated [.data] with an R_X86_64_64 and a GOT32 relocation
    against the symbols of the [.text] sample. *)
Definition data_scan_isec : InputSection :=
  mkInputSection "a.o" ".data" (mkShdr 1 3 0 0 16 8) 0 (mkShdr 1 3 8192 8192 16 8)
    [ mkRela 0 R_X86_64_64 2 0;
      mkRela 8 R_X86_64_GOT32 0 0 ]
    [ mkPieceRef None 0; mkPieceRef None 0 ]
    (repeat 0 16).

(** A file of 64 bytes: the header of a relocatable ELF object. *)
Definition elf_object : MemoryMappedFile :=
  mkMemoryMappedFile "a.o"
    ([127; 69; 76; 70; 2; 1; 1; 0; 0; 0; 0; 0; 0; 0; 0; 0; 1; 0; 62; 0] ++ repeat 0 44)
    1600000000.



(** The sample image as [set_osec_offsets] places it. *)
Definition placed_chunks : list OutputChunk :=
  [ mkChunk (mkShdr 0 2 2097152 0 64 8) true;
    mkChunk (mkShdr 1 6 2101248 4096 4133 16) true;
    mkChunk (mkShdr 1 1027 2109440 12288 24 8) true;
    mkChunk (mkShdr 8 1027 2109464 12312 40 8) false;
    mkChunk (mkShdr 1 3 2109472 12320 321 32) false;
    mkChunk (mkShdr 8 3 2109824 12672 1000 64) false;
    mkChunk (mkShdr 1 0 0 13672 77 1) false ].

(** [a] is the offset of a byte of padding: between the end of a chunk
    and the start of the next one, or after the last chunk and before
    [filesize]. *)
Fixpoint in_padding (chunks : list OutputChunk) (filesize : Z) (a : Z) : Prop :=
  match chunks with
  | [] => False
  | c :: rest =>
      match rest with
      | [] => chunk_file_end c <= a < filesize
      | d :: _ =>
          chunk_file_end c <= a < sh_offset (shdr d) \/ in_padding rest filesize a
      end
  end.

(** The symbols [syms] that [copy_buf] finds agree with the symbols
    [scanned] that [scan_relocations] saw: there are as many; a symbol a
    relocation of the section refers to has a defining file in the one
    when it has in the other; and the symbol of a TLSGD (TLSLD) relocation
    has no TLSGD (TLSLD) slot, [tlsgd_idx == -1] ([tlsld_idx == -1]),
    exactly when it is not imported. *)
Definition slots_agree (isec : InputSection) (scanned syms : list Symbol) : Prop :=
  length scanned = length syms /\
  forall (rel : ElfRela) (s s' : Symbol),
    rel ∈ rels isec ->
    scanned !! r_sym rel = Some s ->
    syms !! r_sym rel = Some s' ->
    (sym_file s = None <-> sym_file s' = None) /\
    (rel_kind (r_type rel) = K_TLSGD ->
     (tlsgd_idx s' =? -1) = negb (is_imported s)) /\
    (rel_kind (r_type rel) = K_TLSLD ->
     (tlsld_idx s' =? -1) = negb (is_imported s)).

(** Where the addresses of a chunk end: a [.tbss], [SHT_NOBITS] with
    [SHF_TLS], takes none. *)
Definition chunk_addr_end (c : OutputChunk) : Z :=
  if (sh_type (shdr c) =? SHT_NOBITS) && has_flag (shdr c) SHF_TLS
  then sh_addr (shdr c)
  else sh_addr (shdr c) + sh_size (shdr c).

(* ================================================================== *)
(** * Part II: properties *)
(* ================================================================== *)

(** ** Machine arithmetic modulo a power of two *)

Section Pow2.

Lemma pow2_divide (j k : Z) : 0 <= j <= k -> (2 ^ j | 2 ^ k).
Proof.
  intros H. exists (2 ^ (k - j)). rewrite <- Z.pow_add_r by lia.
  f_equal. lia.
Qed.

Lemma pow2_pos (j : Z) : 0 <= j -> 0 < 2 ^ j.
Proof. intros. apply Z.pow_pos_nonneg; lia. Qed.

Lemma u64_mod_pow2 (z j : Z) : 0 <= j <= 64 -> u64 z mod 2 ^ j = z mod 2 ^ j.
Proof.
  intros H. unfold u64. apply Z.mod_mod_divide, pow2_divide. lia.
Qed.

Lemma i64_mod_pow2 (z j : Z) : 0 <= j <= 64 -> i64 z mod 2 ^ j = z mod 2 ^ j.
Proof.
  intros H. unfold i64.
  assert (Hd : (2 ^ j | 2 ^ 64)) by (apply pow2_divide; lia).
  rewrite Zminus_mod, Z.mod_mod_divide by assumption.
  rewrite <- Zminus_mod. f_equal. lia.
Qed.

Lemma rem_mod (z m : Z) : m <> 0 -> Z.rem z m mod m = z mod m.
Proof.
  intros Hm. pose proof (Z.quot_rem' z m) as E.
  rewrite E at 2. rewrite Z.add_comm, Z.mul_comm, Z_mod_plus_full.
  reflexivity.
Qed.

Lemma align_to_mod_self (val j : Z) :
  0 <= j <= 64 -> align_to val (2 ^ j) mod 2 ^ j = 0.
Proof.
  intros H. unfold align_to. rewrite u64_mod_pow2 by assumption.
  apply Z_mod_mult.
Qed.

(** Rounding up to [2^j] commutes with congruence modulo [2^k], [j <= k]. *)
Lemma align_to_congr (x y j k : Z) :
  0 <= j <= k -> k <= 64 ->
  x mod 2 ^ k = y mod 2 ^ k ->
  align_to x (2 ^ j) mod 2 ^ k = align_to y (2 ^ j) mod 2 ^ k.
Proof.
  intros Hj Hk E. unfold align_to.
  rewrite !u64_mod_pow2 by lia.
  assert (Ha : 0 < 2 ^ j) by (apply pow2_pos; lia).
  assert (Hp : 0 < 2 ^ k) by (apply pow2_pos; lia).
  assert (Hd : (2 ^ j | 2 ^ k)) by (apply pow2_divide; lia).
  assert (R : forall v, (v + 2 ^ j - 1) / 2 ^ j * 2 ^ j =
                        (v + 2 ^ j - 1) - (v + 2 ^ j - 1) mod 2 ^ j).
  { intros v. pose proof (Z_div_mod_eq_full (v + 2 ^ j - 1) (2 ^ j)). lia. }
  rewrite !R.
  assert (E1 : (x + 2 ^ j - 1) mod 2 ^ k = (y + 2 ^ j - 1) mod 2 ^ k).
  { rewrite <- !Z.add_sub_assoc.
    rewrite (Zplus_mod x), (Zplus_mod y), E. reflexivity. }
  assert (E2 : (x + 2 ^ j - 1) mod 2 ^ j = (y + 2 ^ j - 1) mod 2 ^ j).
  { rewrite <- (Z.mod_mod_divide (x + 2 ^ j - 1) (2 ^ k) (2 ^ j)) by assumption.
    rewrite <- (Z.mod_mod_divide (y + 2 ^ j - 1) (2 ^ k) (2 ^ j)) by assumption.
    now rewrite E1. }
  rewrite E2.
  rewrite (Zminus_mod (x + 2 ^ j - 1)), (Zminus_mod (y + 2 ^ j - 1)), E1.
  reflexivity.
Qed.

End Pow2.

(** ** File and virtual address assignment *)

Section OsecOffsets.

Variable PAGE_SIZE : Z.
Variable page_bits : Z.
Hypothesis page_bits_range : 0 <= page_bits < 63.
Hypothesis page_size_pow2 : PAGE_SIZE = 2 ^ page_bits.

Lemma pow2_upto_page (a : Z) :
  pow2_upto PAGE_SIZE a -> exists j, 0 <= j <= page_bits /\ a = 2 ^ j.
Proof using page_bits_range page_size_pow2.
  intros (j & Hj & -> & Hle). exists j. split; [|reflexivity].
  split; [assumption|]. rewrite page_size_pow2 in Hle.
  apply (Z.pow_le_mono_r_iff 2); lia.
Qed.

(** After the rectification step the file offset is congruent to the
    virtual address modulo the page size, whatever they were before. *)
Lemma rectify_congr (fileoff vaddr : Z) :
  (if Z.rem vaddr PAGE_SIZE >? Z.rem fileoff PAGE_SIZE then
     i64 (fileoff + (Z.rem vaddr PAGE_SIZE - Z.rem fileoff PAGE_SIZE))
   else if Z.rem vaddr PAGE_SIZE <? Z.rem fileoff PAGE_SIZE then
     i64 (align_to (u64 fileoff) PAGE_SIZE + Z.rem vaddr PAGE_SIZE)
   else fileoff) mod PAGE_SIZE = vaddr mod PAGE_SIZE.
Proof using page_bits_range page_size_pow2.
  assert (Hp : 0 < PAGE_SIZE) by (rewrite page_size_pow2; apply pow2_pos; lia).
  pose proof (rem_mod vaddr PAGE_SIZE ltac:(lia)) as Hv.
  pose proof (rem_mod fileoff PAGE_SIZE ltac:(lia)) as Hf.
  destruct (Z.gtb_spec (Z.rem vaddr PAGE_SIZE) (Z.rem fileoff PAGE_SIZE)).
  - rewrite page_size_pow2 at 3. rewrite i64_mod_pow2 by lia.
    rewrite <- page_size_pow2.
    pose proof (Z.quot_rem' vaddr PAGE_SIZE).
    pose proof (Z.quot_rem' fileoff PAGE_SIZE).
    replace (fileoff + (Z.rem vaddr PAGE_SIZE - Z.rem fileoff PAGE_SIZE))
      with (vaddr + (Z.quot fileoff PAGE_SIZE - Z.quot vaddr PAGE_SIZE) * PAGE_SIZE)
      by lia.
    apply Z_mod_plus_full.
  - destruct (Z.ltb_spec (Z.rem vaddr PAGE_SIZE) (Z.rem fileoff PAGE_SIZE)).
    + rewrite page_size_pow2 at 3. rewrite i64_mod_pow2 by lia.
      rewrite Zplus_mod, page_size_pow2 at 1.
      rewrite align_to_mod_self by lia.
      rewrite <- page_size_pow2, Hv. cbn [Z.add]. apply Z.mod_mod. lia.
    + replace (Z.rem fileoff PAGE_SIZE) with (Z.rem vaddr PAGE_SIZE) in Hf by lia.
      congruence.
Qed.

(** The loop body establishes the claim for its chunk, from any state. *)
Lemma place_chunk_placed (st : Z * Z) (chunk : OutputChunk) :
  pow2_upto PAGE_SIZE (sh_addralign (shdr chunk)) ->
  chunk_placed PAGE_SIZE (fst (place_chunk PAGE_SIZE st chunk)).
Proof using page_bits_range page_size_pow2.
  intros Ha. apply pow2_upto_page in Ha as (j & Hj & Ea).
  destruct st as [fileoff vaddr]. unfold place_chunk.
  set (v1 := if starts_new_ptload chunk then _ else vaddr).
  pose proof (rectify_congr fileoff v1) as Hr.
  set (f1 := if Z.rem v1 PAGE_SIZE >? _ then _ else _) in *.
  rewrite Ea.
  set (f2 := i64 (align_to (u64 f1) (2 ^ j))).
  set (v2 := i64 (align_to (u64 v1) (2 ^ j))).
  assert (Hoff : u64 f2 mod 2 ^ j = 0).
  { unfold f2. rewrite u64_mod_pow2, i64_mod_pow2 by lia.
    apply align_to_mod_self. lia. }
  assert (Hcong : u64 v2 mod PAGE_SIZE = u64 f2 mod PAGE_SIZE).
  { unfold f2, v2. rewrite page_size_pow2.
    rewrite !u64_mod_pow2, !i64_mod_pow2 by lia.
    apply align_to_congr; [lia | lia |].
    rewrite !u64_mod_pow2 by lia. rewrite <- page_size_pow2. now symmetry. }
  unfold chunk_placed. cbn [fst shdr].
  destruct (has_flag (set_sh_offset (u64 f2) (shdr chunk)) SHF_ALLOC) eqn:Hal;
    cbn [sh_offset sh_addralign sh_addr set_sh_offset set_sh_addr];
    rewrite Ea; (split; [exact Hoff|]).
  - intros _. exact Hcong.
  - unfold has_flag in *. cbn [sh_flags set_sh_offset] in *. congruence.
Qed.

Lemma place_chunks_placed (chunks : list OutputChunk) :
  forall st : Z * Z,
    Forall (fun c => pow2_upto PAGE_SIZE (sh_addralign (shdr c))) chunks ->
    Forall (chunk_placed PAGE_SIZE) (fst (place_chunks PAGE_SIZE st chunks)).
Proof using page_bits_range page_size_pow2.
  induction chunks as [|chunk rest IH]; intros st Hall; cbn [place_chunks].
  - constructor.
  - apply Forall_cons in Hall as [Hc Hrest].
    pose proof (place_chunk_placed st chunk Hc) as H1.
    destruct (place_chunk PAGE_SIZE st chunk) as [chunk' st'].
    specialize (IH st' Hrest).
    destruct (place_chunks PAGE_SIZE st' rest) as [rest' st''].
    cbn [fst] in *. constructor; assumption.
Qed.

End OsecOffsets.

(** C4.  With a page size that is a power of two, and every chunk's
    [sh_addralign] a power of two no greater than the page size,
    [set_osec_offsets] leaves every chunk with
    [sh_offset mod sh_addralign = 0], and every chunk that has [SHF_ALLOC]
    with [sh_addr mod PAGE_SIZE = sh_offset mod PAGE_SIZE]; this holds for
    every image base and with the 64-bit wrap-around of the code. *)
Theorem set_osec_offsets_aligned
  (PAGE_SIZE page_bits image_base : Z) (chunks : list OutputChunk) :
  0 <= page_bits < 63 ->
  PAGE_SIZE = 2 ^ page_bits ->
  Forall (fun c => pow2_upto PAGE_SIZE (sh_addralign (shdr c))) chunks ->
  Forall (chunk_placed PAGE_SIZE)
         (fst (set_osec_offsets PAGE_SIZE image_base chunks)).
Proof.
  intros Hk Hp Hall. unfold set_osec_offsets.
  pose proof (place_chunks_placed PAGE_SIZE page_bits Hk Hp chunks
                (0, i64 image_base) Hall) as H.
  destruct (place_chunks PAGE_SIZE (0, i64 image_base) chunks) as [chunks' [fileoff vaddr]].
  exact H.
Qed.

(** The layout of the sample image from image base 0x200000 with pages
    of 4096 bytes, computed. *)
Example set_osec_offsets_sample :
  set_osec_offsets 4096 2097152 sample_chunks =
  ( [ mkChunk (mkShdr 0 2 2097152 0 64 8) true;
      mkChunk (mkShdr 1 6 2101248 4096 4133 16) true;
      mkChunk (mkShdr 1 1027 2109440 12288 24 8) true;
      mkChunk (mkShdr 8 1027 2109464 12312 40 8) false;
      mkChunk (mkShdr 1 3 2109472 12320 321 32) false;
      mkChunk (mkShdr 8 3 2109824 12672 1000 64) false;
      mkChunk (mkShdr 1 0 0 13672 77 1) false ],
    13749 ).
Proof. vm_compute. reflexivity. Qed.

(** The sample image satisfies the hypotheses of the theorem. *)
Lemma set_osec_offsets_aligned_witness :
  Forall (chunk_placed 4096)
         (fst (set_osec_offsets 4096 2097152 sample_chunks)).
Proof.
  apply (set_osec_offsets_aligned 4096 12 2097152 sample_chunks).
  - lia.
  - reflexivity.
  - unfold sample_chunks.
    repeat first
      [ apply Forall_nil_2
      | apply Forall_cons_2;
        [ first [ exists 0; cbn; lia | exists 3; cbn; lia | exists 4; cbn; lia
                | exists 5; cbn; lia | exists 6; cbn; lia ] | ] ].
Defined.

(** ** Offsets of input sections *)

Section Split.

Context {T : Type}.

Lemma split_loop_concat (unit fuel : nat) :
  forall span : list T, concat (split_loop fuel span unit) = span.
Proof.
  induction fuel as [|fuel IH]; intros span; cbn [split_loop].
  - destruct span; cbn; [reflexivity | now rewrite app_nil_r].
  - destruct (unit <=? length span)%nat.
    + cbn [concat]. rewrite IH. apply take_drop.
    + destruct span; cbn; [reflexivity | now rewrite app_nil_r].
Qed.

Lemma split_loop_nonempty (unit fuel : nat) :
  (0 < unit)%nat ->
  forall span : list T, Forall (fun sl => sl <> []) (split_loop fuel span unit).
Proof.
  intros Hu. induction fuel as [|fuel IH]; intros span; cbn [split_loop].
  - destruct span; repeat constructor. discriminate.
  - destruct (Nat.leb_spec unit (length span)).
    + constructor; [|apply IH].
      intros E. apply (f_equal length) in E. rewrite length_take in E.
      cbn in E. lia.
    + destruct span; repeat constructor. discriminate.
Qed.

(** The loop of [split] ends within [length span] iterations: more fuel
    does not change the result. *)
Lemma split_loop_fuel (unit : nat) :
  (0 < unit)%nat ->
  forall (fuel1 fuel2 : nat) (span : list T),
    (length span <= fuel1)%nat -> (length span <= fuel2)%nat ->
    split_loop fuel1 span unit = split_loop fuel2 span unit.
Proof.
  intros Hu. induction fuel1 as [|fuel1 IH]; intros fuel2 span H1 H2.
  - destruct span; [|cbn in H1; lia].
    destruct fuel2; cbn; [reflexivity|].
    destruct (Nat.leb_spec unit 0); [lia | reflexivity].
  - destruct fuel2 as [|fuel2].
    + destruct span; [|cbn in H2; lia]. cbn.
      destruct (Nat.leb_spec unit 0); [lia | reflexivity].
    + cbn [split_loop]. destruct (Nat.leb_spec unit (length span)); [|reflexivity].
      f_equal. apply IH; rewrite length_drop; lia.
Qed.

(** The slices of [split], put together, are the input. *)
Lemma split_concat (input : list T) (unit : nat) :
  concat (split input unit) = input.
Proof. apply split_loop_concat. Qed.

(** There are at most as many slices as elements. *)
Lemma split_count (input : list T) (unit : nat) :
  (0 < unit)%nat -> (length (split input unit) <= length input)%nat.
Proof.
  intros Hu. pose proof (split_loop_nonempty unit (length input) Hu input) as Hne.
  pose proof (split_concat input unit) as Hc. unfold split in *.
  revert Hne Hc. generalize (split_loop (length input) input unit).
  intros slices Hne. revert input.
  induction Hne as [|sl slices Hsl Hne IH]; intros input Hc; cbn; [lia|].
  cbn in Hc. subst input. rewrite length_app.
  specialize (IH (concat slices) eq_refl).
  destruct sl; [congruence | cbn; lia].
Qed.

End Split.

Section Layout.

Lemma laid_out_weaken (l : list InputChunk) (lo lo' : Z) :
  lo' <= lo -> laid_out lo l -> laid_out lo' l.
Proof. destruct l; cbn; [trivial|]. intros ? (? & ? & ?). repeat split; (lia || assumption). Qed.

Lemma layout_end_app (l1 l2 : list InputChunk) :
  forall lo, layout_end lo (l1 ++ l2) = layout_end (layout_end lo l1) l2.
Proof. induction l1 as [|m l1 IH]; intros lo; cbn; [reflexivity | apply IH]. Qed.

Lemma laid_out_app (l1 l2 : list InputChunk) :
  forall lo,
    laid_out lo l1 -> laid_out (layout_end lo l1) l2 -> laid_out lo (l1 ++ l2).
Proof.
  induction l1 as [|m l1 IH]; intros lo H1 H2; cbn in *; [assumption|].
  destruct H1 as (? & ? & ?). repeat split; try assumption. now apply IH.
Qed.

Lemma laid_out_le_end (l : list InputChunk) :
  Forall size_nonneg l -> forall lo, laid_out lo l -> lo <= layout_end lo l.
Proof.
  induction 1 as [|m l Hm Hl IH]; intros lo H; cbn in *; [lia|].
  destruct H as (? & ? & H). specialize (IH _ H). unfold size_nonneg in Hm. lia.
Qed.

(** Every member lies between the start and the end of the layout. *)
Lemma laid_out_member (l : list InputChunk) :
  Forall size_nonneg l ->
  forall lo m, laid_out lo l -> m ∈ l ->
    lo <= offset m /\ offset m + sh_size (ishdr m) <= layout_end lo l /\
    offset m mod sh_addralign (ishdr m) = 0.
Proof.
  induction 1 as [|m0 l Hm Hl IH]; intros lo m H Hin; [inversion Hin|].
  cbn in H. destruct H as (H0 & H1 & H2). cbn [layout_end].
  unfold size_nonneg in Hm.
  pose proof (laid_out_le_end l Hl _ H2).
  apply elem_of_cons in Hin as [-> | Hin].
  - repeat split; (lia || assumption).
  - destruct (IH _ _ H2 Hin) as (? & ? & ?). repeat split; (lia || assumption).
Qed.

(** An earlier member ends before a later one starts. *)
Lemma laid_out_ordered (l : list InputChunk) :
  Forall size_nonneg l ->
  forall lo (i j : nat) a b, laid_out lo l ->
    l !! i = Some a -> l !! j = Some b -> (i < j)%nat ->
    offset a + sh_size (ishdr a) <= offset b.
Proof.
  induction 1 as [|m0 l Hm Hl IH]; intros lo i j a b H Hi Hj Hlt; [discriminate|].
  cbn in H. destruct H as (H0 & H1 & H2).
  destruct j as [|j]; [lia|]. cbn in Hj.
  destruct i as [|i]; cbn in Hi.
  - injection Hi as <-.
    apply list_elem_of_lookup_2 in Hj.
    destruct (laid_out_member l Hl _ _ H2 Hj) as (? & _). lia.
  - eapply IH; eauto. lia.
Qed.

Lemma ordered_disjoint (a b : InputChunk) :
  offset a + sh_size (ishdr a) <= offset b -> ranges_disjoint a b.
Proof. unfold ranges_disjoint. intros; lia. Qed.

Lemma ranges_disjoint_sym (a b : InputChunk) :
  ranges_disjoint a b -> ranges_disjoint b a.
Proof. unfold ranges_disjoint. intros H x [? ?]. apply (H x). split; assumption. Qed.

(** Rounding up without wrap-around. *)
Lemma align_to_small (val a : Z) :
  0 <= val -> 0 < a -> val + a <= 2 ^ 63 ->
  let r := i64 (align_to (u64 val) a) in
  val <= r < val + a /\ r mod a = 0.
Proof.
  intros Hv Ha Hb. cbv zeta. unfold align_to.
  assert (E : u64 val = val) by (unfold u64; apply Z.mod_small; lia).
  rewrite E.
  pose proof (Z_div_mod_eq_full (val + a - 1) a) as D.
  pose proof (Z.mod_pos_bound (val + a - 1) a Ha) as B.
  set (r := (val + a - 1) / a * a) in *.
  assert (Hr : val <= r < val + a) by lia.
  assert (E2 : u64 r = r) by (unfold u64; apply Z.mod_small; lia).
  rewrite E2.
  assert (E3 : i64 r = r).
  { unfold i64. rewrite Z.mod_small; lia. }
  rewrite E3. split; [assumption|]. unfold r. apply Z_mod_mult.
Qed.

Lemma i64_small (z : Z) : 0 <= z < 2 ^ 63 -> i64 z = z.
Proof. intros H. unfold i64. rewrite Z.mod_small; lia. Qed.

Lemma u64_small (z : Z) : 0 <= z < 2 ^ 64 -> u64 z = z.
Proof. intros H. unfold u64. apply Z.mod_small; lia. Qed.

Lemma wf_member_align_pos (m : InputChunk) :
  wf_member m -> 0 < sh_addralign (ishdr m).
Proof. intros (_ & j & Hj & ->). now apply pow2_pos. Qed.

Lemma wf_size_nonneg (l : list InputChunk) :
  Forall wf_member l -> Forall size_nonneg l.
Proof. intros H. eapply Forall_impl; [exact H|]. now intros m [? _]. Qed.

Lemma total_weight_nonneg (l : list InputChunk) :
  Forall wf_member l -> 0 <= total_weight l.
Proof.
  induction 1 as [|m l Hm Hl IH]; cbn; [lia|].
  pose proof (wf_member_align_pos m Hm). destruct Hm as [? _]. lia.
Qed.

Lemma max_align_ge_1 (l : list InputChunk) : 1 <= max_align l.
Proof. induction l; cbn; lia. Qed.

(** The first pass on a slice, when nothing wraps around. *)
Lemma slice_pass_spec (slice : list InputChunk) :
  Forall wf_member slice ->
  forall off align : Z,
    0 <= off -> 1 <= align -> off + total_weight slice < 2 ^ 63 ->
    exists slice' : list InputChunk,
      slice_pass off align slice =
        (slice', layout_end off slice', Z.max align (max_align slice)) /\
      map ishdr slice' = map ishdr slice /\
      laid_out off slice' /\
      layout_end off slice' <= off + total_weight slice.
Proof.
  induction 1 as [|m rest Hm Hrest IH]; intros off align Hoff Hal Hb.
  - exists []. cbn. repeat split; try lia. f_equal. lia.
  - cbn [total_weight] in Hb.
    pose proof (total_weight_nonneg rest Hrest) as Hw.
    pose proof (wf_member_align_pos m Hm) as Hapos.
    destruct Hm as [Hsz _].
    destruct (align_to_small off (sh_addralign (ishdr m)) Hoff Hapos ltac:(lia))
      as [Hr Hmod].
    cbn [slice_pass].
    set (off1 := i64 (align_to (u64 off) (sh_addralign (ishdr m)))) in *.
    rewrite (i64_small (off1 + sh_size (ishdr m))) by lia.
    rewrite (i64_small (sh_addralign (ishdr m))) by lia.
    destruct (IH (off1 + sh_size (ishdr m))
                 (Z.max align (sh_addralign (ishdr m))) ltac:(lia) ltac:(lia) ltac:(lia))
      as (rest' & E & Hmap & Hlaid & Hend).
    rewrite E. exists (set_offset off1 m :: rest').
    cbn [layout_end laid_out map set_offset offset ishdr max_align].
    repeat split; try assumption; try lia.
    + f_equal. lia.
    + now f_equal.
    + cbn [total_weight]. lia.
Qed.

(** The second pass on a slice: shifting a layout by [start]. *)
Lemma shift_slice_spec (start : Z) (slice : list InputChunk) :
  0 <= start ->
  Forall (fun m => start mod sh_addralign (ishdr m) = 0) slice ->
  Forall wf_member slice ->
  forall lo : Z,
    0 <= lo -> laid_out lo slice -> start + layout_end lo slice < 2 ^ 63 ->
    laid_out (lo + start) (shift_slice start slice) /\
    layout_end (lo + start) (shift_slice start slice) =
      layout_end lo slice + start /\
    map ishdr (shift_slice start slice) = map ishdr slice.
Proof.
  intros Hs Hdiv Hwf. induction Hwf as [|m rest Hm Hrest IH]; intros lo Hlo Hl Hb.
  - cbn. repeat split; lia.
  - inversion Hdiv as [|? ? Hd Hdrest]; subst.
    cbn in Hl. destruct Hl as (H0 & H1 & H2). cbn [layout_end] in Hb.
    pose proof (laid_out_le_end rest (wf_size_nonneg rest Hrest) _ H2) as Hle.
    pose proof (wf_member_align_pos m Hm) as Hapos.
    destruct Hm as [Hsz _].
    specialize (IH Hdrest (offset m + sh_size (ishdr m)) ltac:(lia) H2 Hb).
    destruct IH as (IH1 & IH2 & IH3).
    cbn [shift_slice map laid_out layout_end set_offset offset ishdr].
    rewrite (i64_small (offset m + start)) by lia.
    replace (offset m + start + sh_size (ishdr m))
      with (offset m + sh_size (ishdr m) + start) by lia.
    repeat split; try assumption; try lia.
    + rewrite Zplus_mod, H1, Hd. reflexivity.
    + f_equal. exact IH3.
Qed.

Lemma layout_end_lo_le (l : list InputChunk) (lo lo' : Z) :
  lo <= lo' -> layout_end lo l <= layout_end lo' l.
Proof. destruct l; cbn; lia. Qed.

Lemma total_weight_app (l1 l2 : list InputChunk) :
  total_weight (l1 ++ l2) = total_weight l1 + total_weight l2.
Proof. induction l1 as [|m l1 IH]; cbn; lia. Qed.

Lemma max_align_member (l : list InputChunk) (m : InputChunk) :
  m ∈ l -> sh_addralign (ishdr m) <= max_align l.
Proof.
  induction l as [|m0 l IH]; intros Hin; [inversion Hin|].
  apply elem_of_cons in Hin as [-> | Hin]; cbn; [lia|].
  specialize (IH Hin). lia.
Qed.

Lemma max_align_least (l : list InputChunk) (x : Z) :
  1 <= x -> (forall m, m ∈ l -> sh_addralign (ishdr m) <= x) -> max_align l <= x.
Proof.
  intros Hx. induction l as [|m0 l IH]; intros H; cbn; [lia|].
  pose proof (H m0 ltac:(left)).
  assert (max_align l <= x) by (apply IH; intros; apply H; now right). lia.
Qed.

Lemma max_align_pow2 (l : list InputChunk) :
  Forall wf_member l -> exists j : Z, 0 <= j /\ max_align l = 2 ^ j.
Proof.
  induction 1 as [|m l Hm Hl IH]; cbn.
  - exists 0. split; [lia | reflexivity].
  - destruct IH as (j & Hj & E). destruct Hm as (_ & i & Hi & Ea).
    destruct (Z.max_spec (sh_addralign (ishdr m)) (max_align l)) as [[_ ->] | [_ ->]];
      eauto.
Qed.

Lemma fold_left_max_spec (l : list Z) :
  forall x : Z,
    (fold_left Z.max l x = x \/ fold_left Z.max l x ∈ l) /\
    x <= fold_left Z.max l x /\
    (forall y, y ∈ l -> y <= fold_left Z.max l x).
Proof.
  induction l as [|a l IH]; intros x; cbn.
  - repeat split; [now left | lia | intros y Hy; inversion Hy].
  - destruct (IH (Z.max x a)) as ([E | Hin] & Hle & Hall).
    + repeat split.
      * rewrite E. destruct (Z.max_spec x a) as [[_ ->] | [_ ->]]; [right; left | now left].
      * lia.
      * intros y Hy. apply elem_of_cons in Hy as [-> | Hy]; [lia | now apply Hall].
    + repeat split.
      * right. now right.
      * lia.
      * intros y Hy. apply elem_of_cons in Hy as [-> | Hy]; [lia | now apply Hall].
Qed.

Lemma max_element_spec (l : list Z) :
  l <> [] ->
  max_element l ∈ l /\ (forall y, y ∈ l -> y <= max_element l).
Proof.
  destruct l as [|x l]; [congruence|]. intros _. cbn [max_element].
  destruct (fold_left_max_spec l x) as ([E | Hin] & Hle & Hall).
  - split; [rewrite E; left|].
    intros y Hy. apply elem_of_cons in Hy as [-> | Hy]; [lia | now apply Hall].
  - split; [now right|].
    intros y Hy. apply elem_of_cons in Hy as [-> | Hy]; [lia | now apply Hall].
Qed.

Lemma slices_bound_concat (A : Z) (sls : list (list InputChunk)) :
  slices_bound A sls = total_weight (concat sls) + Z.of_nat (length sls) * A.
Proof.
  induction sls as [|sl sls IH]; cbn [slices_bound concat length]; [reflexivity|].
  rewrite total_weight_app, IH. lia.
Qed.

Lemma slices_bound_nonneg (A : Z) (sls : list (list InputChunk)) :
  0 <= A -> Forall (Forall wf_member) sls -> 0 <= slices_bound A sls.
Proof.
  intros HA. induction 1 as [|sl sls Hsl Hsls IH]; cbn; [lia|].
  pose proof (total_weight_nonneg sl Hsl). lia.
Qed.

Lemma last_cons2 {T : Type} (a b : T) (l : list T) (d : T) :
  List.last (a :: b :: l) d = List.last (b :: l) d.
Proof. reflexivity. Qed.

Lemma Forall_same_headers (P : ElfShdr -> Prop) (l l' : list InputChunk) :
  map ishdr l' = map ishdr l ->
  Forall (fun m => P (ishdr m)) l -> Forall (fun m => P (ishdr m)) l'.
Proof.
  intros E H. apply (proj1 (List.Forall_map ishdr P l')).
  rewrite E. now apply List.Forall_map.
Qed.

(** The serial combination of the slice starts and the second pass, for
    the slices after the first; [st0] and [sz0] are the start and the size
    of the slice before them. *)
Lemma slices_layout (A : Z) (sls : list (list InputChunk)) :
  0 < A -> A < 2 ^ 63 ->
  Forall (Forall wf_member) sls ->
  Forall (Forall (fun m => (sh_addralign (ishdr m) | A))) sls ->
  forall st0 sz0 : Z,
    0 <= st0 + sz0 -> st0 + sz0 + slices_bound A sls < 2 ^ 63 ->
    let passes := map (slice_pass 0 1) sls in
    let size := map (fun p => snd (fst p)) passes in
    let starts := slice_starts (i64 (st0 + sz0)) size A in
    let out :=
      concat (zip_with shift_slice starts (map (fun p => fst (fst p)) passes)) in
    laid_out (st0 + sz0) out /\
    map ishdr out = map ishdr (concat sls) /\
    layout_end (st0 + sz0) out <=
      List.last (st0 :: starts) 0 + List.last (sz0 :: size) 0 /\
    List.last (st0 :: starts) 0 + List.last (sz0 :: size) 0 <=
      st0 + sz0 + slices_bound A sls.
Proof.
  intros HA HA63 Hwf. induction Hwf as [|sl rest Hsl Hrest IH];
    intros Hdiv st0 sz0 Hprev Hb; cbv zeta.
  - cbn. repeat split; lia.
  - inversion Hdiv as [|? ? Hd Hdrest]; subst.
    cbn [slices_bound] in Hb.
    pose proof (slices_bound_nonneg A rest ltac:(lia) Hrest) as Hsb.
    pose proof (total_weight_nonneg sl Hsl) as Htw.
    destruct (slice_pass_spec sl Hsl 0 1 ltac:(lia) ltac:(lia) ltac:(lia))
      as (sl' & E & Hmap & Hlaid & Hend).
    cbn [map]. rewrite E. cbn [fst snd slice_starts].
    rewrite (i64_small (st0 + sz0)) by lia.
    rewrite (u64_small A) by lia.
    destruct (align_to_small (st0 + sz0) A Hprev HA ltac:(lia)) as [Hst HstA].
    set (st := i64 (align_to (u64 (st0 + sz0)) A)) in *.
    set (sz := layout_end 0 sl') in *.
    assert (Hwf' : Forall wf_member sl').
    { apply (Forall_same_headers
               (fun h => 0 <= sh_size h /\ exists j, 0 <= j /\ sh_addralign h = 2 ^ j)
               sl sl' Hmap Hsl). }
    assert (Hsz : 0 <= sz).
    { apply (laid_out_le_end sl' (wf_size_nonneg sl' Hwf') 0 Hlaid). }
    assert (Hdiv' : Forall (fun m => st mod sh_addralign (ishdr m) = 0) sl').
    { apply (Forall_same_headers (fun h => st mod sh_addralign h = 0) sl sl' Hmap).
      eapply Forall_impl; [exact Hd|]. intros m Hm. cbn beta in *.
      apply Z.mod_divide in HstA; [|lia].
      apply Z.mod0_divide. now transitivity A. }
    destruct (shift_slice_spec st sl' ltac:(lia) Hdiv' Hwf' 0 ltac:(lia) Hlaid
                ltac:(fold sz; lia)) as (S1 & S2 & S3).
    rewrite Z.add_0_l in S1, S2. fold sz in S2.
    specialize (IH Hdrest st sz ltac:(lia) ltac:(lia)). cbv zeta in IH.
    destruct IH as (I1 & I2 & I3 & I4).
    cbn [zip_with concat].
    set (out_rest := concat (zip_with shift_slice _ _)) in *.
    assert (Hle : layout_end (st0 + sz0) (shift_slice st sl') <= st + sz).
    { pose proof (layout_end_lo_le (shift_slice st sl') (st0 + sz0) st ltac:(lia)). lia. }
    repeat split.
    + apply laid_out_app.
      * apply (laid_out_weaken _ st); [lia | assumption].
      * apply (laid_out_weaken _ (st + sz)); assumption.
    + cbn [concat]. rewrite !map_app. now rewrite S3, Hmap, I2.
    + rewrite layout_end_app, !last_cons2.
      pose proof (layout_end_lo_le out_rest _ _ Hle). lia.
    + rewrite !last_cons2. cbn [slices_bound]. lia.
Qed.

Lemma passes_alignments (sls : list (list InputChunk)) :
  Forall (Forall wf_member) sls ->
  Forall (fun sl => total_weight sl < 2 ^ 63) sls ->
  map snd (map (slice_pass 0 1) sls) =
  map (fun sl => Z.max 1 (max_align sl)) sls.
Proof.
  induction 1 as [|sl sls Hsl Hsls IH]; intros Hb; [reflexivity|].
  inversion Hb as [|? ? Hb1 Hb2]; subst. cbn [map]. rewrite IH by assumption.
  destruct (slice_pass_spec sl Hsl 0 1 ltac:(lia) ltac:(lia) ltac:(lia))
    as (sl' & E & _). now rewrite E.
Qed.

Lemma Forall_concat_slices {T : Type} (P : T -> Prop) (sls : list (list T)) :
  Forall P (concat sls) -> Forall (Forall P) sls.
Proof.
  induction sls as [|sl sls IH]; cbn; intros H; [constructor|].
  apply Forall_app in H as [H1 H2]. constructor; auto.
Qed.

Lemma total_weight_slice_le (sls : list (list InputChunk)) :
  Forall (Forall wf_member) sls ->
  Forall (fun sl => total_weight sl <= total_weight (concat sls)) sls.
Proof.
  induction 1 as [|sl sls Hsl Hsls IH]; [constructor|].
  cbn [concat]. rewrite total_weight_app.
  pose proof (total_weight_nonneg sl Hsl).
  assert (0 <= total_weight (concat sls)).
  { apply total_weight_nonneg. clear -Hsls.
    induction Hsls; cbn; [constructor | now apply Forall_app]. }
  constructor; [lia|].
  eapply Forall_impl; [exact IH|]. cbn beta. intros; lia.
Qed.

(** The layout of one output section when nothing wraps around. *)
Lemma set_isec_offsets_osec_laid_out (unit : nat) (osec : OutputSection) :
  (0 < unit)%nat ->
  Forall wf_member (members osec) ->
  layout_bound (members osec) < 2 ^ 63 ->
  let osec' := set_isec_offsets_osec unit osec in
  map ishdr (members osec') = map ishdr (members osec) /\
  laid_out 0 (members osec') /\
  (members osec <> [] ->
   layout_end 0 (members osec') <= sh_size (oshdr osec')).
Proof.
  intros Hu Hwf Hb. cbv zeta. unfold set_isec_offsets_osec.
  pose proof (split_concat (members osec) unit) as Hc.
  pose proof (split_count (members osec) unit Hu) as Hn.
  destruct (members osec) as [|m0 ms] eqn:Em.
  { rewrite Em. cbn. repeat split; congruence. }
  set (ml := m0 :: ms) in *.
  destruct (split ml unit) as [|sl0 sls] eqn:Es; [discriminate Hc|].
  assert (Hwfs : Forall (Forall wf_member) (sl0 :: sls)).
  { apply Forall_concat_slices. now rewrite Hc. }
  pose proof (total_weight_slice_le _ Hwfs) as Htws. rewrite Hc in Htws.
  pose proof (total_weight_nonneg ml Hwf) as Htw.
  pose proof (max_align_ge_1 ml) as Hma.
  unfold layout_bound in Hb.
  assert (Hlen : 1 <= Z.of_nat (length ml)) by (unfold ml; cbn [length]; lia).
  assert (Hmab : max_align ml < 2 ^ 63) by nia.
  assert (Htwb : total_weight ml < 2 ^ 63) by nia.
  (* the section alignment *)
  set (A := max_element (map snd (map (slice_pass 0 1) (sl0 :: sls)))).
  assert (HA : exists sl, sl ∈ sl0 :: sls /\ A = max_align sl /\
                          forall sl', sl' ∈ sl0 :: sls -> max_align sl' <= A).
  { unfold A. rewrite passes_alignments;
      [| assumption | eapply Forall_impl; [exact Htws | cbn beta; intros; lia]].
    destruct (max_element_spec (map (fun sl => Z.max 1 (max_align sl)) (sl0 :: sls)))
      as [Hin Hmax]; [discriminate|].
    apply list_elem_of_In, in_map_iff in Hin as (sl & Esl & Hsl).
    exists sl. split; [now apply list_elem_of_In|].
    pose proof (max_align_ge_1 sl). split; [lia|].
    intros sl' Hsl'. pose proof (max_align_ge_1 sl').
    specialize (Hmax (Z.max 1 (max_align sl'))).
    assert (Z.max 1 (max_align sl') <= max_element
              (map (fun sl => Z.max 1 (max_align sl)) (sl0 :: sls))).
    { apply Hmax. apply list_elem_of_In, in_map_iff. exists sl'.
      split; [reflexivity | now apply list_elem_of_In]. }
    lia. }
  destruct HA as (slA & HslA & EA & HAmax).
  assert (HApow : exists J, 0 <= J /\ A = 2 ^ J).
  { rewrite EA. apply max_align_pow2.
    rewrite Forall_forall in Hwfs. now apply Hwfs. }
  assert (HAle : A <= max_align ml).
  { rewrite EA. apply max_align_least; [lia|].
    intros m Hm. apply max_align_member. rewrite <- Hc.
    apply list_elem_of_In, in_concat. exists slA.
    split; now apply list_elem_of_In. }
  destruct HApow as (J & HJ & EJ).
  assert (HApos : 0 < A) by (rewrite EJ; now apply pow2_pos).
  assert (Hdiv : Forall (Forall (fun m => (sh_addralign (ishdr m) | A))) (sl0 :: sls)).
  { rewrite Forall_forall. intros sl Hsl. rewrite Forall_forall. intros m Hm.
    rewrite Forall_forall in Hwfs. specialize (Hwfs sl Hsl).
    rewrite Forall_forall in Hwfs. destruct (Hwfs m Hm) as (_ & j & Hj & Ej).
    pose proof (max_align_member sl m Hm). specialize (HAmax sl Hsl).
    rewrite Ej, EJ in *. apply pow2_divide. split; [assumption|].
    apply (Z.pow_le_mono_r_iff 2); lia. }
  inversion Hwfs as [|? ? Hwf0 Hwfr]; subst.
  inversion Hdiv as [|? ? Hdiv0 Hdivr]; subst.
  inversion Htws as [|? ? Htw0 Htwr]; subst.
  destruct (slice_pass_spec sl0 Hwf0 0 1 ltac:(lia) ltac:(lia) ltac:(lia))
    as (sl0' & E0 & Hmap0 & Hlaid0 & Hend0).
  cbn [map] in *. rewrite E0 in *. cbn [fst snd tail members oshdr] in *.
  set (sz0 := layout_end 0 sl0') in *.
  assert (Hsz0 : 0 <= sz0).
  { apply laid_out_le_end; [|assumption].
    apply wf_size_nonneg.
    apply (Forall_same_headers
             (fun h => 0 <= sh_size h /\ exists j, 0 <= j /\ sh_addralign h = 2 ^ j)
             sl0 sl0' Hmap0 Hwf0). }
  assert (Hbound : 0 + sz0 + slices_bound A sls < 2 ^ 63).
  { rewrite slices_bound_concat.
    assert (Etw : total_weight ml = total_weight sl0 + total_weight (concat sls)).
    { rewrite <- Hc. cbn [concat]. apply total_weight_app. }
    cbn [length] in Hn.
    assert (Z.of_nat (length sls) * A <= Z.of_nat (length ml) * max_align ml) by nia.
    lia. }
  destruct (slices_layout A sls HApos ltac:(lia) Hwfr Hdivr 0 sz0 ltac:(lia) Hbound)
    as (L1 & L2 & L3 & L4).
  change (0 + sz0) with sz0 in *.
  set (out := concat (zip_with shift_slice _ _)) in *.
  set (F := List.last _ 0 + List.last _ 0) in *.
  pose proof (slices_bound_nonneg A sls ltac:(lia) Hwfr) as Hsb.
  assert (HF : 0 <= F < 2 ^ 63).
  { split; [|lia].
    assert (Hwfo : Forall size_nonneg out).
    { apply (Forall_same_headers (fun h => 0 <= sh_size h) (concat sls) _ L2).
      apply wf_size_nonneg.
      clear -Hwfr. induction Hwfr; cbn; [constructor | now apply Forall_app]. }
    pose proof (laid_out_le_end _ Hwfo _ L1). lia. }
  repeat split.
  - rewrite map_app, L2, Hmap0, <- map_app. f_equal. exact Hc.
  - apply laid_out_app; [assumption|]. exact L1.
  - intros _. rewrite layout_end_app. cbn [sh_size set_size_align].
    rewrite (u64_small F) by lia. fold sz0. lia.
Qed.

(** What a layout from 0 on gives: disjoint ranges, aligned offsets, and
    every member within the end of the layout. *)
Lemma laid_out_disjoint (l : list InputChunk) :
  Forall size_nonneg l -> laid_out 0 l ->
  (forall (i j : nat) (a b : InputChunk),
     i <> j -> l !! i = Some a -> l !! j = Some b -> ranges_disjoint a b) /\
  (forall m : InputChunk,
     m ∈ l ->
     offset m mod sh_addralign (ishdr m) = 0 /\
     0 <= offset m /\
     offset m + sh_size (ishdr m) <= layout_end 0 l).
Proof.
  intros Hsz Hlaid. split.
  - intros i j a b Hij Hi Hj.
    destruct (Nat.lt_total i j) as [Hlt | [-> | Hgt]]; [| congruence |].
    + apply ordered_disjoint.
      exact (laid_out_ordered _ Hsz 0 i j a b Hlaid Hi Hj Hlt).
    + apply ranges_disjoint_sym, ordered_disjoint.
      exact (laid_out_ordered _ Hsz 0 j i b a Hlaid Hj Hi Hgt).
  - intros m Hm.
    destruct (laid_out_member _ Hsz 0 m Hlaid Hm) as (H0 & H1 & H2).
    repeat split; assumption.
Qed.

End Layout.

(** C5 (amended).  Provided every member's size is non-negative, every
    alignment is a power of two, and the layout cannot wrap around 64 bits
    (the sum of all sizes and alignments plus one largest alignment per
    member stays below 2^63), [set_isec_offsets] leaves each output
    section, for every slice length [unit > 0] that [split] is given (the
    code uses 10000), with the headers of its members unchanged, the byte
    ranges [offset, offset + sh_size) of any two distinct members
    disjoint, every member's offset a multiple of its [sh_addralign], and
    the section's [sh_size] at least the end of every member's range. *)
Theorem set_isec_offsets_disjoint (unit : nat) (osec : OutputSection) :
  (0 < unit)%nat ->
  Forall wf_member (members osec) ->
  layout_bound (members osec) < 2 ^ 63 ->
  let osec' := set_isec_offsets_osec unit osec in
  map ishdr (members osec') = map ishdr (members osec) /\
  (forall (i j : nat) (a b : InputChunk),
     i <> j -> members osec' !! i = Some a -> members osec' !! j = Some b ->
     ranges_disjoint a b) /\
  (forall m : InputChunk,
     m ∈ members osec' ->
     offset m mod sh_addralign (ishdr m) = 0 /\
     0 <= offset m /\
     offset m + sh_size (ishdr m) <= sh_size (oshdr osec')).
Proof.
  intros Hu Hwf Hb.
  destruct (set_isec_offsets_osec_laid_out unit osec Hu Hwf Hb) as (Hmap & Hlaid & Hend).
  cbv zeta. set (osec' := set_isec_offsets_osec unit osec) in *.
  assert (Hsz : Forall size_nonneg (members osec')).
  { apply (Forall_same_headers (fun h => 0 <= sh_size h) _ _ Hmap).
    now apply wf_size_nonneg. }
  destruct (laid_out_disjoint (members osec') Hsz Hlaid) as [Hd Hm].
  split; [exact Hmap|]. split; [exact Hd|].
  intros m Hin. destruct (Hm m Hin) as (H0 & H1 & H2).
  assert (Hne : members osec <> []).
  { intros E. rewrite E in Hmap. destruct (members osec'); [inversion Hin | discriminate]. }
  specialize (Hend Hne). repeat split; (assumption || lia).
Qed.

(** The same for [set_isec_offsets] itself, over all output sections. *)
Corollary set_isec_offsets_all (instances : list OutputSection) :
  Forall (fun osec => Forall wf_member (members osec) /\
                      layout_bound (members osec) < 2 ^ 63) instances ->
  Forall (fun osec' =>
            (forall (i j : nat) (a b : InputChunk),
               i <> j -> members osec' !! i = Some a -> members osec' !! j = Some b ->
               ranges_disjoint a b) /\
            (forall m : InputChunk,
               m ∈ members osec' ->
               offset m mod sh_addralign (ishdr m) = 0 /\
               offset m + sh_size (ishdr m) <= sh_size (oshdr osec')))
         (set_isec_offsets instances).
Proof.
  unfold set_isec_offsets. induction 1 as [|osec rest [Hwf Hb] Hrest IH]; cbn [map].
  - constructor.
  - constructor; [|exact IH].
    destruct (set_isec_offsets_osec_laid_out (Z.to_nat 10000) osec ltac:(lia) Hwf Hb)
      as (Hmap & Hlaid & Hend).
    set (osec' := set_isec_offsets_osec (Z.to_nat 10000) osec) in *.
    assert (Hsz : Forall size_nonneg (members osec')).
    { apply (Forall_same_headers (fun h => 0 <= sh_size h) _ _ Hmap).
      now apply wf_size_nonneg. }
    destruct (laid_out_disjoint (members osec') Hsz Hlaid) as [Hd Hm].
    split; [exact Hd|]. intros m Hin. destruct (Hm m Hin) as (H0 & H1 & H2).
    split; [assumption|].
    assert (Hne : members osec <> []).
    { intros E. rewrite E in Hmap. destruct (members osec'); [inversion Hin | discriminate]. }
    specialize (Hend Hne). lia.
Qed.

(** The sample section laid out in slices of three: the second slice
    starts at 32, the third at 48. *)
Example set_isec_offsets_sample :
  let osec' := set_isec_offsets_osec 3 sample_osec in
  map offset (members osec') = [0; 4; 16; 32; 32; 39; 48] /\
  sh_size (oshdr osec') = 57 /\ sh_addralign (oshdr osec') = 16.
Proof. vm_compute. repeat split. Qed.

(** The sample section, in slices of three, satisfies the hypotheses of
    the theorem. *)
Lemma set_isec_offsets_disjoint_witness :
  let osec' := set_isec_offsets_osec 3 sample_osec in
  map ishdr (members osec') = map ishdr (members sample_osec) /\
  (forall (i j : nat) (a b : InputChunk),
     i <> j -> members osec' !! i = Some a -> members osec' !! j = Some b ->
     ranges_disjoint a b) /\
  (forall m : InputChunk,
     m ∈ members osec' ->
     offset m mod sh_addralign (ishdr m) = 0 /\
     0 <= offset m /\
     offset m + sh_size (ishdr m) <= sh_size (oshdr osec')).
Proof.
  apply (set_isec_offsets_disjoint 3 sample_osec).
  - lia.
  - unfold sample_osec, wf_member. cbn [members ishdr sh_size sh_addralign].
    repeat first
      [ apply Forall_nil_2
      | apply Forall_cons_2;
        [ cbn [ishdr sh_size sh_addralign]; split; [lia|];
          first [ exists 0; split; [lia | reflexivity]
                | exists 1; split; [lia | reflexivity]
                | exists 2; split; [lia | reflexivity]
                | exists 3; split; [lia | reflexivity]
                | exists 4; split; [lia | reflexivity] ] | ] ].
  - vm_compute. reflexivity.
Defined.

(** Three members of 2^63 bytes each and alignment 1: the running offset
    wraps around, and [set_isec_offsets] puts the first and the third
    member both at offset 0, so that byte 0 is in both ranges. *)
Lemma set_isec_offsets_wraps :
  Forall (fun m => exists j : Z, 0 <= j /\ sh_addralign (ishdr m) = 2 ^ j)
         (members huge_osec) /\
  exists (osec' : OutputSection) (a b : InputChunk),
    set_isec_offsets [huge_osec] = [osec'] /\
    members osec' !! 0%nat = Some a /\
    members osec' !! 2%nat = Some b /\
    (offset a <= 0 < offset a + sh_size (ishdr a)) /\
    (offset b <= 0 < offset b + sh_size (ishdr b)).
Proof.
  split.
  - unfold huge_osec. cbn [members].
    repeat constructor; exists 0; split; (lia || reflexivity).
  - eexists _, _, _. split; [vm_compute; reflexivity|].
    split; [reflexivity|]. split; [reflexivity|].
    cbn [offset ishdr sh_size]. lia.
Qed.

(** ** Mergeable strings: who owns a fragment after the claiming pass *)

Section Claims.

Variable is_alive : nat -> bool.

(** Without interference the exchange succeeds at the first attempt: the
    loop body is a conditional store. *)
Lemma claim_fragment_step (owners : owners_map) (isec : MergeableSection)
  (frag : nat) :
  claim_fragment is_alive owners (isec, frag) =
  if is_alive frag && must_claim (owners !! frag) isec
  then <[frag := isec]> owners else owners.
Proof.
  unfold claim_fragment. destruct (is_alive frag); [|reflexivity].
  cbn [claim_loop andb]. destruct (must_claim (owners !! frag) isec); [|reflexivity].
  unfold compare_exchange_weak. now rewrite decide_True.
Qed.

(** More fuel changes nothing: the [while] loop has ended. *)
Lemma claim_loop_fuel (fuel : nat) (owners : owners_map)
  (isec : MergeableSection) (frag : nat) :
  claim_loop (S fuel) owners frag (owners !! frag) isec =
  claim_loop 1 owners frag (owners !! frag) isec.
Proof.
  cbn [claim_loop]. destruct (must_claim (owners !! frag) isec); [|reflexivity].
  unfold compare_exchange_weak. now rewrite decide_True.
Qed.

Lemma fold_left_flat_map {A B C : Type} (f : A -> C -> A) (g : B -> list C)
  (l : list B) :
  forall a, fold_left f (flat_map g l) a = fold_left (fun a x => fold_left f (g x) a) l a.
Proof.
  induction l as [|x l IH]; intros a; cbn; [reflexivity|].
  now rewrite fold_left_app, IH.
Qed.

Lemma fold_left_map {A B C : Type} (f : A -> C -> A) (g : B -> C) (l : list B) :
  forall a, fold_left f (map g l) a = fold_left (fun a x => f a (g x)) l a.
Proof. induction l as [|x l IH]; intros a; cbn; [reflexivity | apply IH]. Qed.

(** The pass over the files in order is the run of its claims in order. *)
Lemma resolve_fragments_run (objs : list ObjectFile) (owners : owners_map) :
  resolve_fragments is_alive objs owners = run_claims is_alive (claims objs) owners.
Proof.
  unfold resolve_fragments, run_claims, claims, claims_of_file.
  rewrite fold_left_flat_map. revert owners.
  induction objs as [|f objs IH]; intros owners; cbn [fold_left]; [reflexivity|].
  rewrite <- IH. f_equal. rewrite fold_left_flat_map.
  generalize (mergeable_sections f). intros secs. revert owners.
  induction secs as [|isec secs IHs]; intros owners; cbn [fold_left]; [reflexivity|].
  rewrite IHs. f_equal. now rewrite fold_left_map.
Qed.

(** The claims of a run are the (section, fragment) pairs of the files. *)
Lemma elem_of_claims (objs : list ObjectFile) (isec : MergeableSection) (frag : nat) :
  (isec, frag) ∈ claims objs <->
  exists f, f ∈ objs /\ isec ∈ mergeable_sections f /\ frag ∈ fragments isec.
Proof.
  unfold claims, claims_of_file. rewrite list_elem_of_In, in_flat_map. split.
  - intros (f & Hf & Hin). apply in_flat_map in Hin as (s & Hs & Hin).
    apply in_map_iff in Hin as (fr & [= <- <-] & Hfr).
    exists f. rewrite !list_elem_of_In. auto.
  - intros (f & Hf & Hs & Hfr). rewrite !list_elem_of_In in *.
    exists f. split; [assumption|]. apply in_flat_map. exists isec.
    split; [assumption|]. apply in_map_iff. eauto.
Qed.

(** What a run of claims does to one fragment: its owner comes from the
    heap before or from a claim of the run, an owner is never lost and its
    priority never grows, and an alive fragment that is claimed ends with an
    owner of no greater priority than the claimant. *)
Lemma run_claims_spec (schedule : list (MergeableSection * nat)) (frag : nat) :
  forall owners : owners_map,
    let final := run_claims is_alive schedule owners in
    (forall o, final !! frag = Some o ->
       owners !! frag = Some o \/ (o, frag) ∈ schedule) /\
    (forall o0, owners !! frag = Some o0 ->
       exists o, final !! frag = Some o /\
                 priority (file o) <= priority (file o0)) /\
    (is_alive frag = true ->
     forall s, (s, frag) ∈ schedule ->
       exists o, final !! frag = Some o /\
                 priority (file o) <= priority (file s)).
Proof.
  induction schedule as [|[s0 f0] rest IH]; intros owners; cbv zeta.
  - cbn. repeat split.
    + auto.
    + intros o0 H. exists o0. split; [assumption | lia].
    + intros _ s Hs. inversion Hs.
  - unfold run_claims. cbn [fold_left]. fold (run_claims is_alive rest).
    rewrite claim_fragment_step.
    set (owners1 := if is_alive f0 && must_claim (owners !! f0) s0
                    then <[f0 := s0]> owners else owners).
    destruct (IH owners1) as (I1 & I2 & I3).
    (* the owner of [frag] after the first claim *)
    assert (H1 : forall o1, owners1 !! frag = Some o1 ->
                 owners !! frag = Some o1 \/ (o1 = s0 /\ f0 = frag)).
    { intros o1. unfold owners1.
      destruct (is_alive f0 && must_claim (owners !! f0) s0); [|auto].
      destruct (decide (f0 = frag)) as [->|Hne].
      - rewrite lookup_insert_eq. intros [= <-]. auto.
      - rewrite lookup_insert_ne by assumption. auto. }
    assert (H2 : forall o0, owners !! frag = Some o0 ->
                 exists o1, owners1 !! frag = Some o1 /\
                            priority (file o1) <= priority (file o0)).
    { intros o0 Ho0. unfold owners1.
      destruct (is_alive f0 && must_claim (owners !! f0) s0) eqn:Hc;
        [|exists o0; split; [assumption | lia]].
      destruct (decide (f0 = frag)) as [->|Hne].
      - rewrite lookup_insert_eq. exists s0. split; [reflexivity|].
        apply andb_true_iff in Hc as [_ Hc]. rewrite Ho0 in Hc. cbn in Hc. lia.
      - rewrite lookup_insert_ne by assumption.
        exists o0. split; [assumption | lia]. }
    repeat split.
    + intros o Ho. destruct (I1 o Ho) as [Ho1 | Hin].
      * destruct (H1 o Ho1) as [? | [-> ->]]; [now left|]. right. left.
      * right. now right.
    + intros o0 Ho0. destruct (H2 o0 Ho0) as (o1 & Ho1 & Hle1).
      destruct (I2 o1 Ho1) as (o & Ho & Hle). exists o. split; [assumption | lia].
    + intros Halive s Hs. apply elem_of_cons in Hs as [[= <- <-] | Hs];
        [|now apply I3].
      assert (exists o1, owners1 !! frag = Some o1 /\
                         priority (file o1) <= priority (file s)) as (o1 & Ho1 & Hle1).
      { unfold owners1. rewrite Halive. cbn [andb].
        destruct (must_claim (owners !! frag) s) eqn:Hc.
        - rewrite lookup_insert_eq. exists s. split; [reflexivity | lia].
        - destruct (owners !! frag) as [c|] eqn:Ec; [|discriminate].
          exists c. split; [reflexivity|]. cbn in Hc. lia. }
      destruct (I2 o1 Ho1) as (o & Ho & Hle). exists o. split; [assumption | lia].
Qed.

End Claims.

(** C3.  Take any order [schedule] in which the claiming loops of the first
    pass of [handle_mergeable_strings] run one after the other (any
    permutation of the claims of a run over the files in order, which
    [resolve_fragments] is), with well-formed [file] back-pointers.  Every
    alive fragment that no section owned before the pass and that some
    mergeable section of some file contains has, after the pass, exactly
    one owning MergeableSection; the owner is a section of one of the
    files and contains the fragment, and its file's priority is the lowest
    among all files whose mergeable sections contain the fragment. *)
Theorem fragment_owner_lowest_priority
  (is_alive : nat -> bool) (objs : list ObjectFile)
  (schedule : list (MergeableSection * nat)) (owners0 : owners_map) (frag : nat) :
  files_wf objs ->
  Permutation (claims objs) schedule ->
  is_alive frag = true ->
  owners0 !! frag = None ->
  (exists f, f ∈ objs /\ file_contains f frag) ->
  resolve_fragments is_alive objs owners0 =
    run_claims is_alive (claims objs) owners0 /\
  exists (owner : MergeableSection) (fo : ObjectFile),
    (forall m, run_claims is_alive schedule owners0 !! frag = Some m <-> m = owner) /\
    fo ∈ objs /\ owner ∈ mergeable_sections fo /\ frag ∈ fragments owner /\
    (forall f, f ∈ objs -> file_contains f frag ->
       priority (obj_file fo) <= priority (obj_file f)).
Proof.
  intros Hwf Hperm Halive Hnone (f0 & Hf0 & s0 & Hs0 & Hfr0).
  split; [apply resolve_fragments_run|].
  destruct (run_claims_spec is_alive schedule frag owners0) as (R1 & _ & R3).
  assert (Hin0 : (s0, frag) ∈ schedule).
  { rewrite <- Hperm. apply elem_of_claims. eauto. }
  destruct (R3 Halive s0 Hin0) as (owner & Ho & _).
  destruct (R1 owner Ho) as [Hold | Hin]; [congruence|].
  rewrite <- Hperm in Hin. apply elem_of_claims in Hin as (fo & Hfo & Hso & Hfro).
  exists owner, fo. split; [|split; [assumption|split; [assumption|split; [assumption|]]]].
  - intros m. split; [congruence | now intros ->].
  - intros f Hf (s & Hs & Hfr).
    assert (Hin : (s, frag) ∈ schedule).
    { rewrite <- Hperm. apply elem_of_claims. eauto. }
    destruct (R3 Halive s Hin) as (o & Ho' & Hle).
    assert (o = owner) by congruence. subst o.
    rewrite <- (Hwf fo owner Hfo Hso), <- (Hwf f s Hf Hs). exact Hle.
Qed.

(** Fragment 7 of the sample files ends with the section of the file of
    priority 2 as its owner, in file order and in the reverse order. *)
Example resolve_fragments_sample :
  resolve_fragments (fun _ => true) sample_objs ∅ !! 7%nat =
    Some (mkMergeableSection 200 (mkInputFile 2) [8; 7; 9]%nat) /\
  run_claims (fun _ => true) (rev (claims sample_objs)) ∅ !! 7%nat =
    Some (mkMergeableSection 200 (mkInputFile 2) [8; 7; 9]%nat).
Proof. split; vm_compute; reflexivity. Qed.

(** The sample files, with the claims run in reverse order, satisfy the
    hypotheses of the theorem for fragment 7. *)
Lemma fragment_owner_lowest_priority_witness :
  resolve_fragments (fun _ => true) sample_objs ∅ =
    run_claims (fun _ => true) (claims sample_objs) ∅ /\
  exists (owner : MergeableSection) (fo : ObjectFile),
    (forall m,
       run_claims (fun _ => true) (rev (claims sample_objs)) ∅ !! 7%nat = Some m
       <-> m = owner) /\
    fo ∈ sample_objs /\ owner ∈ mergeable_sections fo /\ 7%nat ∈ fragments owner /\
    (forall f, f ∈ sample_objs -> file_contains f 7%nat ->
       priority (obj_file fo) <= priority (obj_file f)).
Proof.
  apply (fragment_owner_lowest_priority (fun _ => true) sample_objs
           (rev (claims sample_objs)) ∅ 7%nat).
  - intros f isec Hf Hs. unfold sample_objs in Hf.
    repeat (apply elem_of_cons in Hf as [-> | Hf]);
      try (cbn in Hs; apply list_elem_of_singleton in Hs as ->; reflexivity).
    inversion Hf.
  - apply Permutation_rev.
  - reflexivity.
  - reflexivity.
  - exists (mkObjectFile (mkInputFile 5)
              [mkMergeableSection 100 (mkInputFile 5) [7; 8]%nat]).
    split; [left|].
    exists (mkMergeableSection 100 (mkInputFile 5) [7; 8]%nat).
    split; left.
Defined.

(** ** Splitting a mergeable section *)

Section Pieces.

Lemma find_null_none (tail : list Z) : 0 ∉ tail -> find_null tail = None.
Proof.
  induction tail as [|b tail IH]; intros H; cbn; [reflexivity|].
  apply not_elem_of_cons in H as [Hb Ht].
  destruct (Z.eqb_spec b 0); [congruence|]. now rewrite IH.
Qed.

Lemma find_null_body (body rest : list Z) :
  0 ∉ body -> find_null (body ++ 0 :: rest) = Some (length body).
Proof.
  induction body as [|b body IH]; intros H; cbn; [reflexivity|].
  apply not_elem_of_cons in H as [Hb Ht].
  destruct (Z.eqb_spec b 0); [congruence|]. now rewrite IH.
Qed.

(** On a payload that starts with a null-terminated string, one iteration
    cuts exactly that string off. *)
Lemma find_null_cstring (s rest : list Z) :
  cstring s ->
  exists end_ : nat,
    find_null (s ++ rest) = Some end_ /\
    take (S end_) (s ++ rest) = s /\ drop (S end_) (s ++ rest) = rest.
Proof.
  intros (body & -> & Hbody). exists (length body).
  rewrite <- app_assoc. cbn [app]. split; [now apply find_null_body|].
  assert (E : S (length body) = length (body ++ [0])).
  { rewrite length_app. cbn. lia. }
  change (body ++ 0 :: rest) with (body ++ [0] ++ rest).
  rewrite app_assoc, E. split; [apply take_app_length | apply drop_app_length].
Qed.

Lemma cstring_nonempty (s : list Z) : cstring s -> (0 < length s)%nat.
Proof. intros (body & -> & _). rewrite length_app. cbn. lia. Qed.

(** The loop on a payload cut into its null-terminated strings and the
    null-free bytes after the last of them. *)
Lemma split_pieces_spec (this : string) (tail : list Z) (strs : list (list Z)) :
  Forall cstring strs -> 0 ∉ tail ->
  forall (fuel : nat) (offset : Z) (st : MergeablePieces),
    (length (concat strs ++ tail) <= fuel)%nat ->
    split_pieces fuel this (concat strs ++ tail) offset st =
    Some
      (let st' :=
         mkMergeablePieces (pieces st ++ zip strs (piece_offsets offset strs))
                           (list_to_set strs ∪ parent_map st) in
       match tail with
       | [] => Done st'
       | _ :: _ => Fatal (this +:+ ": string is not null terminated") st'
       end).
Proof.
  intros Hstrs Htail. induction Hstrs as [|s rest Hs Hrest IH];
    intros fuel offset st Hfuel; cbv zeta.
  - cbn [concat app zip zip_with piece_offsets list_to_set foldr].
    rewrite app_nil_r, (left_id_L ∅ (∪)).
    destruct st as [ps mp]. cbn [pieces parent_map].
    destruct tail as [|b tail]; [destruct fuel; reflexivity|].
    destruct fuel as [|fuel]; [cbn in Hfuel; lia|].
    cbn [split_pieces]. now rewrite (find_null_none (b :: tail) Htail).
  - cbn [concat] in *. rewrite <- app_assoc in *.
    destruct (find_null_cstring s (concat rest ++ tail) Hs) as (end_ & Ef & Et & Ed).
    pose proof (cstring_nonempty s Hs) as Hlen.
    destruct fuel as [|fuel]; [rewrite length_app in Hfuel; lia|].
    assert (Hfuel' : (length (concat rest ++ tail) <= fuel)%nat).
    { rewrite length_app in Hfuel. lia. }
    assert (Eset : forall mp : gset (list Z),
               list_to_set rest ∪ ({[s]} ∪ mp) = {[s]} ∪ list_to_set rest ∪ mp).
    { intros mp. rewrite (assoc_L (∪)). f_equal. apply (comm_L (∪)). }
    destruct (s ++ concat rest ++ tail) as [|b data] eqn:Edata.
    { apply (f_equal length) in Edata. rewrite length_app in Edata. cbn in Edata. lia. }
    cbn [split_pieces]. rewrite Ef. cbv zeta. rewrite Et, Ed.
    rewrite IH by exact Hfuel'.
    cbn [pieces parent_map zip zip_with piece_offsets list_to_set foldr].
    rewrite <- app_assoc. cbn [app]. now rewrite Eset.
Qed.

(** Every payload is a sequence of null-terminated strings followed by
    bytes without a null. *)
Lemma payload_decompose (data : list Z) :
  exists (strs : list (list Z)) (tail : list Z),
    data = concat strs ++ tail /\ Forall cstring strs /\ 0 ∉ tail.
Proof.
  induction data as [|b data IH].
  - exists [], []. split; [reflexivity|]. split; [constructor | apply not_elem_of_nil].
  - destruct IH as (strs & tail & -> & Hstrs & Htail).
    destruct (Z.eq_dec b 0) as [->|Hb].
    + exists ([0] :: strs), tail. split; [reflexivity|]. split; [|assumption].
      constructor; [|assumption].
      exists []. split; [reflexivity | apply not_elem_of_nil].
    + destruct Hstrs as [|s rest (body & -> & Hbody) Hrest].
      * exists [], (b :: tail). split; [reflexivity|]. split; [constructor|].
        apply not_elem_of_cons. split; [congruence | assumption].
      * exists (((b :: body) ++ [0]) :: rest), tail.
        split; [reflexivity|]. split; [|assumption].
        constructor; [|assumption]. exists (b :: body). split; [reflexivity|].
        apply not_elem_of_cons. split; [congruence | assumption].
Qed.

Lemma cstring_has_null (s : list Z) : cstring s -> 0 ∈ s.
Proof. intros (body & -> & _). apply elem_of_app. right. left. Qed.

(** The decomposition of a payload that the claim calls not
    null-terminated and that is not empty ends in a non-empty tail. *)
Lemma unterminated_decompose (data : list Z) :
  data <> [] -> not_null_terminated data ->
  exists (strs : list (list Z)) (tail : list Z),
    data = concat strs ++ tail /\ Forall cstring strs /\ (0 ∉ tail) /\ tail <> [].
Proof.
  intros Hne [Hnone | (pre & tail & -> & Htne & Htail)].
  - destruct (payload_decompose data) as (strs & tail & -> & Hstrs & Htail).
    destruct Hstrs as [|s rest Hs Hrest].
    + exists [], tail. repeat split; auto.
    + exfalso. apply Hnone. cbn [concat]. rewrite <- app_assoc.
      apply elem_of_app. left. now apply cstring_has_null.
  - destruct (payload_decompose pre) as (strs & t & -> & Hstrs & Ht).
    exists (strs ++ [t ++ [0]]), tail. repeat split; try assumption.
    + rewrite concat_app. cbn [concat]. rewrite app_nil_r, <- !app_assoc. reflexivity.
    + apply Forall_app. split; [assumption|]. constructor; [|constructor].
      exists t. split; [reflexivity | assumption].
Qed.

(** The recorded offset of the [i]-th piece is where it starts in the
    payload, modulo 2^32. *)
Lemma piece_offsets_position (strs : list (list Z)) :
  forall (offset : Z) (i : nat) (o : Z),
    piece_offsets offset strs !! i = Some o ->
    o = u32 (offset + Z.of_nat (length (concat (take i strs)))) \/
    (i = O /\ o = offset).
Proof.
  induction strs as [|s rest IH]; intros offset i o H; [discriminate|].
  destruct i as [|i]; cbn in H.
  - right. split; [reflexivity | congruence].
  - left. destruct (IH _ _ _ H) as [-> | [-> ->]].
    + cbn [take concat]. rewrite length_app, Nat2Z.inj_add.
      unfold u32. rewrite Zplus_mod_idemp_l. f_equal. lia.
    + cbn [take concat]. rewrite app_nil_r. reflexivity.
Qed.

End Pieces.

(** The constructor's loop always ends: the length of the payload is
    enough fuel. *)
Lemma new_MergeableSection_total (file_str name : string) (map0 : gset (list Z))
  (data : list Z) :
  exists r, new_MergeableSection file_str name map0 data = Some r.
Proof.
  destruct (payload_decompose data) as (strs & tail & -> & Hstrs & Htail).
  unfold new_MergeableSection.
  rewrite (split_pieces_spec _ tail strs Hstrs Htail) by lia. eauto.
Qed.

(** C8 (amended).  Constructing a MergeableSection from a non-empty
    payload that is not null-terminated (a non-empty suffix follows the
    last null byte, or there is no null byte at all) is fatal: the
    constructor stops with the error "<section>: string is not null
    terminated", having interned exactly the null-terminated strings that
    precede the unterminated tail and nothing of the tail.  A payload that
    consists of null-terminated strings (the empty payload included) is
    split into exactly those strings, each interned in the parent map and
    recorded with its offset (a [u32]: the start position modulo 2^32,
    lemma [piece_offsets_position]). *)
Theorem mergeable_section_pieces (file_str name : string) (map0 : gset (list Z))
  (data : list Z) :
  (data <> [] -> not_null_terminated data ->
   exists (strs : list (list Z)) (tail : list Z),
     data = concat strs ++ tail /\ Forall cstring strs /\
     (0 ∉ tail) /\ tail <> [] /\
     new_MergeableSection file_str name map0 data =
       Some (Fatal (to_string_chunk file_str name +:+ ": string is not null terminated")
                   (mkMergeablePieces (zip strs (piece_offsets 0 strs))
                                      (list_to_set strs ∪ map0)))) /\
  (forall strs : list (list Z),
     Forall cstring strs -> data = concat strs ->
     new_MergeableSection file_str name map0 data =
       Some (Done (mkMergeablePieces (zip strs (piece_offsets 0 strs))
                                     (list_to_set strs ∪ map0)))).
Proof.
  split.
  - intros Hne Hnt.
    destruct (unterminated_decompose data Hne Hnt) as (strs & tail & -> & Hstrs & Htail & Htne).
    exists strs, tail. repeat split; try assumption.
    unfold new_MergeableSection.
    rewrite (split_pieces_spec _ tail strs Hstrs Htail) by lia.
    destruct tail; [congruence | reflexivity].
  - intros strs Hstrs ->. unfold new_MergeableSection.
    rewrite <- (app_nil_r (concat strs)).
    rewrite (split_pieces_spec _ [] strs Hstrs) by (apply not_elem_of_nil || lia).
    reflexivity.
Qed.

(** The payload "hi\0w\0" of [.rodata.str1.1]. *)
Lemma mergeable_section_pieces_witness :
  new_MergeableSection "a.o" ".rodata.str1.1" ∅ [104; 105; 0; 119; 0] =
  Some (Done (mkMergeablePieces [([104; 105; 0], 0); ([119; 0], 3)]
                                (list_to_set [[104; 105; 0]; [119; 0]] ∪ ∅))).
Proof.
  apply (proj2 (mergeable_section_pieces "a.o" ".rodata.str1.1" ∅
                  [104; 105; 0; 119; 0]) [[104; 105; 0]; [119; 0]]).
  - repeat constructor.
    + exists [104; 105]. split; [reflexivity|]. intros H.
      repeat (apply elem_of_cons in H as [H | H]; [discriminate|]). inversion H.
    + exists [119]. split; [reflexivity|]. intros H.
      repeat (apply elem_of_cons in H as [H | H]; [discriminate|]). inversion H.
  - reflexivity.
Defined.

(** The payload "hi\0w": the piece "hi\0" is interned, then the
    constructor stops with the error. *)
Example unterminated_payload_fatal :
  exists st,
    new_MergeableSection "a.o" ".rodata.str1.1" ∅ [104; 105; 0; 119] =
      Some (Fatal "a.o:(.rodata.str1.1): string is not null terminated" st) /\
    pieces st = [([104; 105; 0], 0)].
Proof. eexists. split; [vm_compute; reflexivity | reflexivity]. Qed.

(** The empty payload has no null byte at all, and yet the constructor
    succeeds on it (the loop is not entered). *)
Lemma empty_payload_not_fatal :
  not_null_terminated [] /\
  new_MergeableSection "a.o" ".rodata.str1.1" ∅ [] =
    Some (Done (mkMergeablePieces [] ∅)).
Proof. split; [left; apply not_elem_of_nil | reflexivity]. Qed.

(** ** The relocation scanner *)

Section Scan.

Variable isec : InputSection.

(** The body leaves [i] as it is or, when it skips a paired relocation,
    one further. *)
Lemma scan_body_index (i i' : nat) (st st' : FileState) :
  scan_body isec i st = Done (i', st') -> i' = i \/ i' = S i.
Proof.
  unfold scan_body, scan_tls.
  destruct (rels isec !! i) as [rel|]; [|discriminate].
  destruct (symbols st !! r_sym rel) as [sym|]; [|discriminate].
  destruct (unresolved sym); [intros [= <- _]; now left|].
  destruct (rel_kind (r_type rel));
    repeat match goal with
           | |- context [if ?b then _ else _] => destruct b
           | |- context [match ?o with Some _ => _ | None => _ end] => destruct o
           end;
    intros [= <- _] || discriminate; auto.
Qed.

(** The loop ends within [length rels - i] iterations. *)
Lemma scan_loop_fuel (fuel1 : nat) :
  forall (fuel2 i : nat) (st : FileState),
    (length (rels isec) - i <= fuel1)%nat ->
    (length (rels isec) - i <= fuel2)%nat ->
    scan_loop fuel1 isec i st = scan_loop fuel2 isec i st.
Proof.
  induction fuel1 as [|fuel1 IH]; intros fuel2 i st H1 H2.
  - destruct fuel2; cbn [scan_loop];
      destruct (Nat.leb_spec (length (rels isec)) i); (reflexivity || lia).
  - destruct fuel2 as [|fuel2]; cbn [scan_loop];
      destruct (Nat.leb_spec (length (rels isec)) i); try (reflexivity || lia).
    destruct (scan_body isec i st) as [[i' st'] | | |] eqn:E; try reflexivity.
    apply scan_body_index in E. apply IH; lia.
Qed.

(** The loop returns a result: [length rels - i] units of fuel are
    enough from index [i]. *)
Lemma scan_loop_total (fuel : nat) :
  forall (i : nat) (st : FileState),
    (length (rels isec) - i <= fuel)%nat ->
    exists r, scan_loop fuel isec i st = Some r.
Proof.
  induction fuel as [|fuel IH]; intros i st H; cbn [scan_loop];
    destruct (Nat.leb_spec (length (rels isec)) i); try lia; eauto.
  destruct (scan_body isec i st) as [[i' st'] | | |] eqn:E; eauto.
  apply scan_body_index in E. apply IH; lia.
Qed.

(** [scan_relocations] always ends. *)
Lemma scan_relocations_total (st : FileState) :
  exists r, scan_relocations isec st = Some r.
Proof.
  unfold scan_relocations. destruct (negb _); [eauto|].
  apply scan_loop_total. lia.
Qed.

(** From a state the loop reaches, the run continues as the whole run. *)
Lemma scan_loop_reaches (st0 : FileState) (i : nat) (st : FileState) :
  scan_reaches isec st0 i st ->
  forall fuel : nat,
    (length (rels isec) - i <= fuel)%nat ->
    scan_loop (length (rels isec)) isec 0 st0 = scan_loop fuel isec i st.
Proof.
  induction 1 as [|i i' st st' Hr IH Hlt Hb]; intros fuel Hfuel.
  - apply scan_loop_fuel; lia.
  - rewrite (IH (S (fuel + length (rels isec)))) by lia.
    cbn [scan_loop]. destruct (Nat.leb_spec (length (rels isec)) i); [lia|].
    rewrite Hb. apply scan_loop_fuel; lia.
Qed.

(** Only the two TLS types select the TLS cases of the [switch]. *)
Lemma rel_kind_tls (ty : Z) :
  rel_kind ty = K_TLSGD \/ rel_kind ty = K_TLSLD -> ty ∈ tls_pair_relocs.
Proof.
  unfold rel_kind, tls_pair_relocs.
  repeat match goal with
         | |- context [ty =? ?c] =>
             destruct (Z.eqb_spec ty c) as [-> | _];
             [ intros [H | H]; first [discriminate H | left | right; left] | ]
         end.
  intros [H | H]; discriminate H.
Qed.

(** The body reads past the end of [rels] only in a TLS case, through the
    assertion on [rels[i + 1]]. *)
Lemma scan_body_oob (i : nat) (st : FileState) (x : nat * FileState) :
  (i < length (rels isec))%nat ->
  scan_body isec i st = OutOfBounds Rels x ->
  x = (i, st) /\
  exists rel sym,
    rels isec !! i = Some rel /\ r_type rel ∈ tls_pair_relocs /\
    symbols st !! r_sym rel = Some sym /\ unresolved sym = false /\
    rels isec !! S i = None.
Proof.
  intros Hlt. unfold scan_body.
  destruct (rels isec !! i) as [rel|] eqn:Hrel.
  2: { apply lookup_ge_None in Hrel. lia. }
  destruct (symbols st !! r_sym rel) as [sym|] eqn:Hsym; [|discriminate].
  destruct (unresolved sym) eqn:Hres; [discriminate|].
  pose proof (rel_kind_tls (r_type rel)) as Htls.
  destruct (rel_kind (r_type rel));
    try (repeat match goal with
                | |- context [if ?b then _ else _] => destruct b
                end; discriminate).
  all: unfold scan_tls; destruct (rels isec !! S i) as [next|] eqn:Hnext;
    [ repeat match goal with
             | |- context [if ?b then _ else _] => destruct b
             end; discriminate
    | intros [= <-]; split; [reflexivity|];
      exists rel, sym; repeat split; auto ].
Qed.

Lemma scan_body_tls (i : nat) (st : FileState) (rel : ElfRela) (sym : Symbol) :
  rels isec !! i = Some rel ->
  symbols st !! r_sym rel = Some sym ->
  unresolved sym = false ->
  r_type rel ∈ tls_pair_relocs ->
  exists set_flag,
    scan_body isec i st = scan_tls isec i st rel sym set_flag.
Proof.
  intros Hrel Hsym Hres H. unfold scan_body. rewrite Hrel, Hsym, Hres.
  unfold tls_pair_relocs in H.
  repeat (apply elem_of_cons in H as [-> | H]; [cbn; eauto|]). inversion H.
Qed.

(** If the run reads past the end of [rels], the loop has reached the
    last relocation, a TLSGD or TLSLD with a resolved symbol. *)
Lemma scan_loop_oob (st0 : FileState) (fuel : nat) :
  forall (i : nat) (st1 st : FileState),
    scan_reaches isec st0 i st1 ->
    scan_loop fuel isec i st1 = Some (OutOfBounds Rels st) ->
    exists (i' : nat) (rel : ElfRela) (sym : Symbol),
      scan_reaches isec st0 i' st /\ S i' = length (rels isec) /\
      rels isec !! i' = Some rel /\ r_type rel ∈ tls_pair_relocs /\
      symbols st !! r_sym rel = Some sym /\ unresolved sym = false.
Proof.
  induction fuel as [|fuel IH]; intros i st1 st Hr; cbn [scan_loop];
    destruct (Nat.leb_spec (length (rels isec)) i) as [|Hlt]; try discriminate.
  destruct (scan_body isec i st1) as [[i' st'] | msg x | x | v x] eqn:E;
    cbn [result_map].
  - apply IH. eapply scan_reaches_next; eauto.
  - discriminate.
  - discriminate.
  - intros [= -> Hst]. destruct (scan_body_oob i st1 x Hlt E) as (-> & rel & sym & H).
    cbn [snd] in Hst. subst st1. destruct H as (Hrel & Hty & Hsym & Hres & Hnext).
    exists i, rel, sym. repeat split; try assumption.
    apply lookup_ge_None in Hnext. lia.
Qed.

End Scan.

(** C7 (amended).  For every relocation the scanner's loop dispatches on
    (the loop is at its index: it was not skipped as the partner of a
    preceding TLSGD/TLSLD of a symbol that is not imported, and the run did
    not stop before) and whose symbol is resolved (non-null file, not a
    placeholder): a relocation of the direct/PC-relative family
    (8/16/32/32S/64/PC8/PC16/PC32/PC64) of an imported symbol sets
    [needs_copyrel] when the symbol's type is STT_OBJECT and [needs_plt]
    otherwise, and changes nothing when the symbol is not imported; one of
    GOT32/GOTPC32/GOTPCREL/GOTPCRELX/REX_GOTPCRELX sets [needs_got]; PLT32
    sets [needs_plt] exactly when the symbol is imported or of type
    STT_GNU_IFUNC.  The loop goes on with the next index, and each of
    these updates leaves the symbol's other need-flags, the other symbols
    and [has_error] as they were. *)
Theorem scan_body_need_flags (isec : InputSection) (i : nat) (st : FileState)
  (rel : ElfRela) (sym : Symbol) :
  rels isec !! i = Some rel ->
  symbols st !! r_sym rel = Some sym ->
  unresolved sym = false ->
  (r_type rel ∈ direct_relocs ->
   scan_body isec i st =
     Done (i, if is_imported sym then
                update_symbol st (r_sym rel)
                  (if sym_type sym =? STT_OBJECT then set_needs_copyrel sym
                   else set_needs_plt sym)
              else st)) /\
  (r_type rel ∈ got_relocs ->
   scan_body isec i st =
     Done (i, update_symbol st (r_sym rel) (set_needs_got sym))) /\
  (r_type rel = R_X86_64_PLT32 ->
   scan_body isec i st =
     Done (i, if is_imported sym || (sym_type sym =? STT_GNU_IFUNC)
              then update_symbol st (r_sym rel) (set_needs_plt sym)
              else st)) /\
  needs (set_needs_copyrel sym) =
    [needs_got sym; needs_plt sym; true;
     needs_tlsgd sym; needs_tlsld sym; needs_gottpoff sym] /\
  needs (set_needs_plt sym) =
    [needs_got sym; true; needs_copyrel sym;
     needs_tlsgd sym; needs_tlsld sym; needs_gottpoff sym] /\
  needs (set_needs_got sym) =
    [true; needs_plt sym; needs_copyrel sym;
     needs_tlsgd sym; needs_tlsld sym; needs_gottpoff sym] /\
  (forall (f : Symbol -> Symbol) (j : nat),
     j <> r_sym rel ->
     symbols (update_symbol st (r_sym rel) (f sym)) !! j = symbols st !! j) /\
  (forall f : Symbol -> Symbol,
     has_error (update_symbol st (r_sym rel) (f sym)) = has_error st) /\
  (forall (i' : nat) (st' : FileState) (fuel : nat),
     scan_body isec i st = Done (i', st') ->
     scan_loop (S fuel) isec i st = scan_loop fuel isec (S i') st').
Proof.
  intros Hrel Hsym Hres.
  assert (Hbody : scan_body isec i st =
            match rel_kind (r_type rel) with
            | K_NONE => Done (i, st)
            | K_8 | K_16 | K_32 | K_32S | K_64
            | K_PC8 | K_PC16 | K_PC32 | K_PC64 =>
                if is_imported sym then
                  if sym_type sym =? STT_OBJECT
                  then Done (i, update_symbol st (r_sym rel) (set_needs_copyrel sym))
                  else Done (i, update_symbol st (r_sym rel) (set_needs_plt sym))
                else Done (i, st)
            | K_GOT32 | K_GOTPC32 | K_GOTPCREL | K_GOTPCRELX | K_REX_GOTPCRELX =>
                Done (i, update_symbol st (r_sym rel) (set_needs_got sym))
            | K_PLT32 =>
                if is_imported sym || (sym_type sym =? STT_GNU_IFUNC)
                then Done (i, update_symbol st (r_sym rel) (set_needs_plt sym))
                else Done (i, st)
            | K_TLSGD => scan_tls isec i st rel sym set_needs_tlsgd
            | K_TLSLD => scan_tls isec i st rel sym set_needs_tlsld
            | K_TPOFF32 | K_TPOFF64 | K_DTPOFF32 | K_DTPOFF64 => Done (i, st)
            | K_GOTTPOFF => Done (i, update_symbol st (r_sym rel) (set_needs_gottpoff sym))
            | K_default => Fatal (unknown_relocation isec (r_type rel)) (i, st)
            end).
  { unfold scan_body. now rewrite Hrel, Hsym, Hres. }
  repeat split.
  - intros H. rewrite Hbody. unfold direct_relocs in H.
    repeat (apply elem_of_cons in H as [-> | H];
            [cbn; destruct (is_imported sym), (sym_type sym =? STT_OBJECT); reflexivity|]).
    inversion H.
  - intros H. rewrite Hbody. unfold got_relocs in H.
    repeat (apply elem_of_cons in H as [-> | H]; [reflexivity|]).
    inversion H.
  - intros H. rewrite Hbody, H. cbn.
    destruct (is_imported sym || (sym_type sym =? STT_GNU_IFUNC)); reflexivity.
  - intros f j Hj. cbn [symbols update_symbol].
    now apply list_lookup_insert_ne.
  - intros i' st' fuel Hb. cbn [scan_loop].
    apply lookup_lt_Some in Hrel.
    destruct (Nat.leb_spec (length (rels isec)) i); [lia|]. now rewrite Hb.
Qed.

(** The scan of the sample section: [needs_copyrel] for the imported
    object, [needs_got] for the GOTPCREL, [needs_plt] for the imported
    function. *)
Example scan_relocations_sample :
  exists st,
    scan_relocations sample_scan_isec sample_scan_state = Some (Done st) /\
    map needs (symbols st) =
      [ [false; false; true; false; false; false];
        [true; false; false; false; false; false];
        [false; true; false; false; false; false] ] /\
    has_error st = false.
Proof. eexists. split; [vm_compute; reflexivity|]. split; reflexivity. Qed.

(** The PC32 relocation of the sample section, against an imported
    object. *)
Lemma scan_body_need_flags_witness :
  scan_body sample_scan_isec 0 sample_scan_state =
    Done (0%nat,
          update_symbol sample_scan_state 0
            (set_needs_copyrel (sample_symbol (Some 7%nat) false true STT_OBJECT 8192))).
Proof.
  apply (proj1 (scan_body_need_flags sample_scan_isec 0 sample_scan_state
                  (mkRela 4 R_X86_64_PC32 0 (-4))
                  (sample_symbol (Some 7%nat) false true STT_OBJECT 8192)
                  eq_refl eq_refl eq_refl)).
  unfold direct_relocs. cbn [r_type]. do 7 right. left.
Defined.

(** In an allocated section, the PLT32 that follows the TLSGD of a symbol
    that is not imported is stepped over: its symbol is resolved and
    imported, and the scan returns with the symbols unchanged, the
    symbol's [needs_plt] still false. *)
Lemma scan_skips_paired_plt32 :
  exists (rel : ElfRela) (sym : Symbol),
    has_flag (isec_shdr tls_scan_isec) SHF_ALLOC = true /\
    rels tls_scan_isec !! 1%nat = Some rel /\
    r_type rel = R_X86_64_PLT32 /\
    symbols tls_scan_state !! r_sym rel = Some sym /\
    unresolved sym = false /\
    is_imported sym = true /\
    scan_relocations tls_scan_isec tls_scan_state = Some (Done tls_scan_state) /\
    needs_plt sym = false.
Proof. eexists _, _. repeat split; reflexivity. Qed.

(** C10 (amended).  In [scan_relocations], a TLSGD or TLSLD relocation at
    index [i] that the loop dispatches on with a resolved symbol reads
    [rels[i + 1]] in its assertion: the body reads past the end of the
    vector exactly when there is no entry [i + 1].  The scanner reads past
    the end of [rels] if and only if the section is allocated and the loop
    reaches the last relocation with that relocation a TLSGD or TLSLD of a
    resolved symbol; it then stops there without a diagnostic.  In
    particular all accesses to [rels] are in bounds when the last
    relocation is neither TLSGD nor TLSLD. *)
Theorem scan_relocations_rels_bounds (isec : InputSection) (st0 : FileState) :
  (forall (i : nat) (st : FileState) (rel : ElfRela) (sym : Symbol),
     rels isec !! i = Some rel ->
     symbols st !! r_sym rel = Some sym ->
     unresolved sym = false ->
     r_type rel ∈ tls_pair_relocs ->
     (rels isec !! S i = None <->
      scan_body isec i st = OutOfBounds Rels (i, st))) /\
  (forall st : FileState,
     scan_relocations isec st0 = Some (OutOfBounds Rels st) <->
     has_flag (isec_shdr isec) SHF_ALLOC = true /\
     exists (i : nat) (rel : ElfRela) (sym : Symbol),
       scan_reaches isec st0 i st /\ S i = length (rels isec) /\
       rels isec !! i = Some rel /\ r_type rel ∈ tls_pair_relocs /\
       symbols st !! r_sym rel = Some sym /\ unresolved sym = false) /\
  ((forall rel, last (rels isec) = Some rel -> r_type rel ∉ tls_pair_relocs) ->
   forall st : FileState,
     scan_relocations isec st0 <> Some (OutOfBounds Rels st)).
Proof.
  assert (Hbody : forall (i : nat) (st : FileState) (rel : ElfRela) (sym : Symbol),
             rels isec !! i = Some rel ->
             symbols st !! r_sym rel = Some sym ->
             unresolved sym = false ->
             r_type rel ∈ tls_pair_relocs ->
             (rels isec !! S i = None <->
              scan_body isec i st = OutOfBounds Rels (i, st))).
  { intros i st rel sym Hrel Hsym Hres Hty.
    destruct (scan_body_tls isec i st rel sym Hrel Hsym Hres Hty) as (f & ->).
    unfold scan_tls. destruct (rels isec !! S i) as [next|].
    - split; [discriminate|].
      destruct (negb _); [discriminate|]. destruct (is_imported sym); discriminate.
    - split; reflexivity. }
  assert (Hiff : forall st : FileState,
             scan_relocations isec st0 = Some (OutOfBounds Rels st) <->
             has_flag (isec_shdr isec) SHF_ALLOC = true /\
             exists (i : nat) (rel : ElfRela) (sym : Symbol),
               scan_reaches isec st0 i st /\ S i = length (rels isec) /\
               rels isec !! i = Some rel /\ r_type rel ∈ tls_pair_relocs /\
               symbols st !! r_sym rel = Some sym /\ unresolved sym = false).
  { intros st. unfold scan_relocations.
    destruct (has_flag (isec_shdr isec) SHF_ALLOC); cbn [negb].
    - split.
      + intros H. split; [reflexivity|].
        eapply scan_loop_oob; [apply scan_reaches_start | exact H].
      + intros (_ & i & rel & sym & Hr & Hlast & Hrel & Hty & Hsym & Hres).
        rewrite (scan_loop_reaches isec st0 i st Hr 1) by lia.
        cbn [scan_loop]. destruct (Nat.leb_spec (length (rels isec)) i); [lia|].
        assert (Hnext : rels isec !! S i = None) by (apply lookup_ge_None; lia).
        apply (Hbody i st rel sym Hrel Hsym Hres Hty) in Hnext.
        now rewrite Hnext.
    - split; [discriminate | intros [? _]; discriminate]. }
  split; [exact Hbody|]. split; [exact Hiff|].
  intros Hlast st H. apply Hiff in H as (_ & i & rel & sym & _ & Hi & Hrel & Hty & _).
  apply (Hlast rel); [|exact Hty].
  rewrite last_lookup, <- Hi. exact Hrel.
Qed.

(** A trailing TLSGD whose symbol is undefined is reported, not
    dispatched on: the scan of the allocated section ends normally and
    [rels[1]] is never read. *)
Lemma trailing_tls_in_bounds :
  has_flag (isec_shdr trailing_tls_isec) SHF_ALLOC = true /\
  last (rels trailing_tls_isec) = Some (mkRela 4 R_X86_64_TLSGD 0 (-4)) /\
  scan_relocations trailing_tls_isec undefined_state =
    Some (Done (set_has_error undefined_state)).
Proof. repeat split; reflexivity. Qed.

(** The same relocation with a defined symbol: the assertion reads
    [rels[1]] of a vector of length 1. *)
Example trailing_tls_out_of_bounds :
  scan_relocations trailing_tls_isec
    (mkFileState [ sample_symbol (Some 1%nat) false false 6 16 ] false) =
  Some (OutOfBounds Rels
          (mkFileState [ sample_symbol (Some 1%nat) false false 6 16 ] false)).
Proof. reflexivity. Qed.

(** ** The relocation applier *)

Section Stores.

Lemma store_bytes_outside (addr : Z) (bs : list Z) (buf : mem) (a : Z) :
  a < addr \/ addr + Z.of_nat (length bs) <= a ->
  store_bytes addr bs buf a = buf a.
Proof.
  intros H. unfold store_bytes.
  destruct (Z.leb_spec addr a), (Z.ltb_spec a (addr + Z.of_nat (length bs)));
    cbn [andb]; (reflexivity || lia).
Qed.

Lemma store_bytes_inside (addr : Z) (bs : list Z) (buf : mem) (k : nat) :
  (k < length bs)%nat ->
  store_bytes addr bs buf (addr + Z.of_nat k) = nth k bs 0.
Proof.
  intros H. unfold store_bytes.
  destruct (Z.leb_spec addr (addr + Z.of_nat k)); [|lia].
  destruct (Z.ltb_spec (addr + Z.of_nat k) (addr + Z.of_nat (length bs))); [|lia].
  cbn [andb]. f_equal. lia.
Qed.

Lemma le_bytes_length (n : nat) (v : Z) : length (le_bytes n v) = n.
Proof. unfold le_bytes. now rewrite length_map, length_seq. Qed.

Lemma le_bytes_nth (n k : nat) (v : Z) :
  (k < n)%nat -> nth k (le_bytes n v) 0 = (v / 2 ^ (8 * Z.of_nat k)) mod 256.
Proof.
  intros H. unfold le_bytes.
  rewrite (nth_indep _ 0 ((fun k => (v / 2 ^ (8 * Z.of_nat k)) mod 256) O))
    by (now rewrite length_map, length_seq).
  rewrite (map_nth (fun k => (v / 2 ^ (8 * Z.of_nat k)) mod 256)).
  now rewrite seq_nth.
Qed.

(** Bytes that are the little-endian digits of [v] read back as
    [v mod 2^(8n)]. *)
Lemma load_le_digits (n : nat) :
  forall (buf : mem) (loc v : Z),
    (forall k : nat, (k < n)%nat ->
       buf (loc + Z.of_nat k) = (v / 2 ^ (8 * Z.of_nat k)) mod 256) ->
    load_le n buf loc = v mod 2 ^ (8 * Z.of_nat n).
Proof.
  induction n as [|n IH]; intros buf loc v H.
  - cbn. now rewrite Z.mod_1_r.
  - cbn [load_le].
    rewrite (IH buf (loc + 1) (v / 256)).
    + pose proof (H O ltac:(lia)) as H0. cbn in H0.
      rewrite Z.add_0_r, Z.div_1_r in H0. rewrite H0.
      replace (8 * Z.of_nat (S n)) with (8 + 8 * Z.of_nat n) by lia.
      rewrite Z.pow_add_r by lia. change (2 ^ 8) with 256.
      rewrite Z.rem_mul_r by (try apply pow2_pos; lia). reflexivity.
    + intros k Hk. specialize (H (S k) ltac:(lia)).
      replace (loc + 1 + Z.of_nat k) with (loc + Z.of_nat (S k)) by lia.
      rewrite H. replace (8 * Z.of_nat (S k)) with (8 + 8 * Z.of_nat k) by lia.
      rewrite Z.pow_add_r by lia. change (2 ^ 8) with 256.
      rewrite Z.div_div by (try apply pow2_pos; lia). reflexivity.
Qed.

(** A store of [n] bytes changes exactly the [n] bytes at [loc], which
    then hold [v mod 2^(8n)] in little-endian order. *)
Lemma store_le_spec (n : nat) (loc v : Z) (buf : mem) :
  load_le n (store_bytes loc (le_bytes n v) buf) loc = v mod 2 ^ (8 * Z.of_nat n) /\
  (forall a, a < loc \/ loc + Z.of_nat n <= a ->
     store_bytes loc (le_bytes n v) buf a = buf a).
Proof.
  split.
  - apply load_le_digits. intros k Hk.
    rewrite store_bytes_inside by (now rewrite le_bytes_length).
    now apply le_bytes_nth.
  - intros a Ha. apply store_bytes_outside. now rewrite le_bytes_length.
Qed.

End Stores.

Section CopyBuf.

Variable out : Out.
Variable isec : InputSection.
Variable syms : list Symbol.

(** A type that is none of the known ones takes the [default] case. *)
Lemma rel_kind_default (ty : Z) : ty ∉ known_relocs -> rel_kind ty = K_default.
Proof.
  intros H. unfold rel_kind.
  repeat match goal with
         | |- context [ty =? ?c] =>
             destruct (Z.eqb_spec ty c) as [E | _];
             [ exfalso; apply H; rewrite E; unfold known_relocs;
               repeat first [ left | right ] | ]
         end.
  reflexivity.
Qed.

(** The body on a relocation whose symbol has a defining file. *)
Lemma copy_body_defined (i : nat) (buf : mem) (rel : ElfRela)
  (ref : StringPieceRef) (sym : Symbol) :
  rels isec !! i = Some rel ->
  rel_pieces isec !! i = Some ref ->
  syms !! r_sym rel = Some sym ->
  is_Some (sym_file sym) ->
  copy_body out isec syms i buf =
    let loc := rel_loc isec rel in
    let S := val_S sym ref in
    let A := val_A rel ref in
    let P := val_P isec rel in
    let L := val_L sym in
    let G := val_G out sym in
    let GOT := val_GOT out in
    match rel_kind (r_type rel) with
    | K_NONE => Done (i, buf)
    | K_64 => Done (i, store_u64 loc (u64 (S + A)) buf)
    | K_PC32 => Done (i, store_u32 loc (u64 (S + A - P)) buf)
    | K_GOT32 => Done (i, store_u64 loc (u64 (G + A)) buf)
    | K_PLT32 =>
        if plt_idx sym =? -1
        then Done (i, store_u32 loc (u64 (S + A - P)) buf)
        else Done (i, store_u32 loc (u64 (L + A - P)) buf)
    | K_GOTPCREL | K_GOTPCRELX | K_REX_GOTPCRELX =>
        Done (i, store_u32 loc (u64 (G + GOT + A - P)) buf)
    | K_32 | K_32S => Done (i, store_u32 loc (u64 (S + A)) buf)
    | K_16 => Done (i, store_u16 loc (u64 (S + A)) buf)
    | K_PC16 => Done (i, store_u16 loc (u64 (S + A - P)) buf)
    | K_8 => Done (i, store_u8 loc (u64 (S + A)) buf)
    | K_PC8 => Done (i, store_u8 loc (u64 (S + A - P)) buf)
    | K_TLSGD =>
        if tlsgd_idx sym =? -1 then
          Done (Datatypes.S i,
                store_u32 (loc + 8) (u64 (S - tls_end out + A + 4))
                          (store_bytes (loc - 4) tlsgd_insn buf))
        else Done (i, store_u32 loc (u64 (tlsgd_addr sym + A - P)) buf)
    | K_TLSLD =>
        if tlsld_idx sym =? -1 then
          Done (Datatypes.S i, store_bytes (loc - 3) tlsld_insn buf)
        else Done (i, store_u32 loc (u64 (tlsld_addr sym + A - P)) buf)
    | K_DTPOFF32 | K_TPOFF32 =>
        Done (i, store_u32 loc (u64 (S + A - tls_end out)) buf)
    | K_DTPOFF64 | K_TPOFF64 =>
        Done (i, store_u64 loc (u64 (S + A - tls_end out)) buf)
    | K_GOTTPOFF =>
        Done (i, store_u32 loc (u64 (gottpoff_addr sym + A - P)) buf)
    | K_PC64 => Done (i, store_u64 loc (u64 (S + A - P)) buf)
    | K_GOTPC32 => Done (i, store_u32 loc (u64 (GOT + A - P)) buf)
    | K_default => Fatal (unknown_relocation isec (r_type rel)) (i, buf)
    end.
Proof.
  intros Hrel Href Hsym [f Hf]. unfold copy_body.
  now rewrite Hrel, Href, Hsym, Hf.
Qed.

(** One iteration of the loop. *)
Lemma copy_loop_step (fuel i i' : nat) (buf buf' : mem) :
  (i < length (rels isec))%nat ->
  copy_body out isec syms i buf = Done (i', buf') ->
  copy_loop (S fuel) out isec syms i buf =
  copy_loop fuel out isec syms (S i') buf'.
Proof.
  intros Hlt Hb. cbn [copy_loop].
  destruct (Nat.leb_spec (length (rels isec)) i); [lia|]. now rewrite Hb.
Qed.

Lemma copy_body_index (i i' : nat) (buf buf' : mem) :
  copy_body out isec syms i buf = Done (i', buf') -> i' = i \/ i' = S i.
Proof.
  unfold copy_body.
  destruct (rels isec !! i) as [rel|]; [|discriminate].
  destruct (rel_pieces isec !! i) as [ref|]; [|discriminate].
  destruct (syms !! r_sym rel) as [sym|]; [|discriminate].
  destruct (sym_file sym); [|intros [= <- _]; now left].
  destruct (rel_kind (r_type rel));
    repeat match goal with
           | |- context [if ?b then _ else _] => destruct b
           end;
    intros [= <- _] || discriminate; auto.
Qed.

(** The loop of [copy_buf] ends within [length rels - i] iterations. *)
Lemma copy_loop_total (fuel : nat) :
  forall (i : nat) (buf : mem),
    (length (rels isec) - i <= fuel)%nat ->
    exists r, copy_loop fuel out isec syms i buf = Some r.
Proof.
  induction fuel as [|fuel IH]; intros i buf H; cbn [copy_loop];
    destruct (Nat.leb_spec (length (rels isec)) i); try lia; eauto.
  destruct (copy_body out isec syms i buf) as [[i' buf'] | | |] eqn:E; eauto.
  apply copy_body_index in E. apply IH; lia.
Qed.

(** [copy_buf] always ends. *)
Lemma copy_buf_total (buf : mem) :
  exists r, copy_buf out isec syms buf = Some r.
Proof.
  unfold copy_buf. destruct (_ || _); [eauto|].
  apply copy_loop_total. lia.
Qed.

End CopyBuf.

(** C1 (amended).  For every relocation that the loop of [copy_buf]
    dispatches on (the loop is at its index: it is not skipped as the
    partner of a preceding relaxed TLSGD/TLSLD and the run did not stop
    before) and whose symbol has a non-null defining file, the loop body
    writes at [loc = base + r_offset] exactly the value and width of the
    table, and goes on with the next index: R_X86_64_64 writes u64 S+A;
    PC32 u32 S+A-P; GOT32 u64 G+A; PLT32 u32 (S if plt_idx is -1, else
    L)+A-P; GOTPCREL/GOTPCRELX/REX_GOTPCRELX u32 G+GOT+A-P; 32/32S u32 S+A;
    16 u16 S+A; PC16 u16 S+A-P; 8 u8 S+A; PC8 u8 S+A-P; DTPOFF32/TPOFF32
    u32 and DTPOFF64/TPOFF64 u64 S+A-tls_end; GOTTPOFF u32
    gottpoff_addr+A-P; PC64 u64 S+A-P; GOTPC32 u32 GOT+A-P; NONE writes
    nothing; TLSGD and TLSLD have their own cases; any type with no case
    is a fatal error.  S is the string-piece address when the relocation
    targets a merged piece and the symbol's address otherwise, A the
    corresponding addend, P = output_section.addr + isec.offset +
    rel.offset.  The arithmetic is modulo 2^64; a store of width n changes
    the n bytes at [loc] only and leaves the value modulo 2^(8n) there in
    little-endian order (lemma [store_le_spec]). *)
Theorem copy_body_table (out : Out) (isec : InputSection) (syms : list Symbol)
  (i : nat) (buf : mem) (rel : ElfRela) (ref : StringPieceRef) (sym : Symbol) :
  rels isec !! i = Some rel ->
  rel_pieces isec !! i = Some ref ->
  syms !! r_sym rel = Some sym ->
  is_Some (sym_file sym) ->
  let loc := isec_base isec + r_offset rel in
  let S := val_S sym ref in
  let A := val_A rel ref in
  let P := u64 (u64 (sh_addr (output_shdr isec) + isec_offset isec) + r_offset rel) in
  let L := plt_addr sym in
  let G := u64 (got_addr sym - got_sh_addr out) in
  let GOT := got_sh_addr out in
  let writes (buf' : mem) := copy_body out isec syms i buf = Done (i, buf') in
  (r_type rel = R_X86_64_64 -> writes (store_u64 loc (u64 (S + A)) buf)) /\
  (r_type rel = R_X86_64_PC32 -> writes (store_u32 loc (u64 (S + A - P)) buf)) /\
  (r_type rel = R_X86_64_GOT32 -> writes (store_u64 loc (u64 (G + A)) buf)) /\
  (r_type rel = R_X86_64_PLT32 ->
   writes (store_u32 loc (u64 ((if plt_idx sym =? -1 then S else L) + A - P)) buf)) /\
  (r_type rel ∈ [R_X86_64_GOTPCREL; R_X86_64_GOTPCRELX; R_X86_64_REX_GOTPCRELX] ->
   writes (store_u32 loc (u64 (G + GOT + A - P)) buf)) /\
  (r_type rel ∈ [R_X86_64_32; R_X86_64_32S] ->
   writes (store_u32 loc (u64 (S + A)) buf)) /\
  (r_type rel = R_X86_64_16 -> writes (store_u16 loc (u64 (S + A)) buf)) /\
  (r_type rel = R_X86_64_PC16 -> writes (store_u16 loc (u64 (S + A - P)) buf)) /\
  (r_type rel = R_X86_64_8 -> writes (store_u8 loc (u64 (S + A)) buf)) /\
  (r_type rel = R_X86_64_PC8 -> writes (store_u8 loc (u64 (S + A - P)) buf)) /\
  (r_type rel ∈ [R_X86_64_DTPOFF32; R_X86_64_TPOFF32] ->
   writes (store_u32 loc (u64 (S + A - tls_end out)) buf)) /\
  (r_type rel ∈ [R_X86_64_DTPOFF64; R_X86_64_TPOFF64] ->
   writes (store_u64 loc (u64 (S + A - tls_end out)) buf)) /\
  (r_type rel = R_X86_64_GOTTPOFF ->
   writes (store_u32 loc (u64 (gottpoff_addr sym + A - P)) buf)) /\
  (r_type rel = R_X86_64_PC64 -> writes (store_u64 loc (u64 (S + A - P)) buf)) /\
  (r_type rel = R_X86_64_GOTPC32 -> writes (store_u32 loc (u64 (GOT + A - P)) buf)) /\
  (r_type rel = R_X86_64_NONE -> writes buf) /\
  (r_type rel ∉ known_relocs ->
   copy_body out isec syms i buf =
     Fatal (unknown_relocation isec (r_type rel)) (i, buf)) /\
  (forall (buf' : mem) (fuel : nat),
     writes buf' ->
     copy_loop (Datatypes.S fuel) out isec syms i buf =
     copy_loop fuel out isec syms (Datatypes.S i) buf').
Proof.
  intros Hrel Href Hsym Hfile. cbv zeta.
  pose proof (copy_body_defined out isec syms i buf rel ref sym Hrel Href Hsym Hfile)
    as Hbody.
  cbv zeta in Hbody.
  unfold rel_loc, val_P, isec_sh_addr, val_L, val_G, val_GOT in Hbody.
  repeat split;
    try (intros buf' fuel Hw; apply copy_loop_step;
         [eapply lookup_lt_Some; eauto | exact Hw]);
    intros H; rewrite Hbody;
    try (rewrite H; reflexivity);
    try (repeat (apply elem_of_cons in H as [-> | H]; [reflexivity|]); now inversion H).
  - rewrite H. cbn. now destruct (plt_idx sym =? -1).
  - now rewrite (rel_kind_default _ H).
Qed.

(** C2 (amended).  For every R_X86_64_TLSGD relocation that the loop of
    [copy_buf] dispatches on and whose symbol has a non-null defining
    file: when the symbol's [tlsgd_idx] is -1, the body overwrites the 16
    bytes starting at [loc - 4] with 64 48 8b 04 25 00 00 00 00 48 8d 80 00
    00 00 00, then writes the u32 value S - tls_end + A + 4 at [loc + 8]
    (over the last four of them), changes no other byte, and the loop
    continues two indices further, so that the following paired relocation
    is not applied; when [tlsgd_idx] is set, the body writes the u32 value
    tlsgd_addr + A - P at [loc], and the loop continues with the next
    index. *)
Theorem copy_body_tlsgd (out : Out) (isec : InputSection) (syms : list Symbol)
  (i : nat) (buf : mem) (rel : ElfRela) (ref : StringPieceRef) (sym : Symbol) :
  rels isec !! i = Some rel ->
  rel_pieces isec !! i = Some ref ->
  syms !! r_sym rel = Some sym ->
  is_Some (sym_file sym) ->
  r_type rel = R_X86_64_TLSGD ->
  let loc := isec_base isec + r_offset rel in
  let S := val_S sym ref in
  let A := val_A rel ref in
  let P := u64 (u64 (sh_addr (output_shdr isec) + isec_offset isec) + r_offset rel) in
  (tlsgd_idx sym = -1 ->
   let v := u64 (S - tls_end out + A + 4) in
   let buf' := store_u32 (loc + 8) v (store_bytes (loc - 4) tlsgd_insn buf) in
   copy_body out isec syms i buf = Done (Datatypes.S i, buf') /\
   (forall fuel : nat,
      copy_loop (Datatypes.S fuel) out isec syms i buf =
      copy_loop fuel out isec syms (Datatypes.S (Datatypes.S i)) buf') /\
   (forall k : nat, (k < 12)%nat ->
      buf' (loc - 4 + Z.of_nat k) = nth k tlsgd_insn 0) /\
   load_le 4 buf' (loc + 8) = u32 v /\
   (forall a : Z, a < loc - 4 \/ loc + 12 <= a -> buf' a = buf a)) /\
  (tlsgd_idx sym <> -1 ->
   let buf' := store_u32 loc (u64 (tlsgd_addr sym + A - P)) buf in
   copy_body out isec syms i buf = Done (i, buf') /\
   (forall fuel : nat,
      copy_loop (Datatypes.S fuel) out isec syms i buf =
      copy_loop fuel out isec syms (Datatypes.S i) buf')).
Proof.
  intros Hrel Href Hsym Hfile Hty. cbv zeta.
  pose proof (copy_body_defined out isec syms i buf rel ref sym Hrel Href Hsym Hfile)
    as Hbody.
  cbv zeta in Hbody. rewrite Hty in Hbody. cbn [rel_kind Z.eqb] in Hbody.
  unfold rel_loc, val_P, isec_sh_addr in Hbody.
  assert (Hlt : (i < length (rels isec))%nat) by (eapply lookup_lt_Some; eauto).
  split.
  - intros Hidx. rewrite Hidx in Hbody. cbn [Z.eqb Pos.eqb] in Hbody.
    split; [exact Hbody|]. split; [|split; [|split]].
    + intros fuel. now apply copy_loop_step.
    + intros k Hk. unfold store_u32.
      rewrite store_bytes_outside by (rewrite le_bytes_length; lia).
      now rewrite store_bytes_inside by (cbn; lia).
    + apply (store_le_spec 4).
    + intros a Ha. unfold store_u32.
      rewrite store_bytes_outside by (rewrite le_bytes_length; lia).
      apply store_bytes_outside. cbn [length tlsgd_insn]. lia.
  - intros Hidx. destruct (Z.eqb_spec (tlsgd_idx sym) (-1)) as [|_]; [contradiction|].
    split; [exact Hbody|]. intros fuel. now apply copy_loop_step.
Qed.

(** C9 (amended).  A relocation whose symbol has a null defining file or
    is a placeholder never aborts the run when a loop comes to it.  In
    [scan_relocations], which scans allocated sections only, the loop body
    sets [has_error] on the file, changes no symbol and therefore no
    need-flag, and the loop goes on with the next relocation: the error is
    left for the checkpoint after scanning.  A section that is not
    allocated is not scanned at all and records nothing.  In [copy_buf],
    the loop body on a relocation whose symbol's file is null leaves the
    buffer as it is and the loop goes on with the next relocation. *)
Theorem unresolved_symbol_deferred (isec : InputSection) :
  (forall (i : nat) (st : FileState) (rel : ElfRela) (sym : Symbol),
     rels isec !! i = Some rel ->
     symbols st !! r_sym rel = Some sym ->
     unresolved sym = true ->
     scan_body isec i st = Done (i, set_has_error st) /\
     has_error (set_has_error st) = true /\
     symbols (set_has_error st) = symbols st /\
     (forall fuel : nat,
        scan_loop (S fuel) isec i st = scan_loop fuel isec (S i) (set_has_error st))) /\
  (has_flag (isec_shdr isec) SHF_ALLOC = false ->
   forall st : FileState, scan_relocations isec st = Some (Done st)) /\
  (forall (out : Out) (syms : list Symbol) (i : nat) (buf : mem)
          (rel : ElfRela) (ref : StringPieceRef) (sym : Symbol),
     rels isec !! i = Some rel ->
     rel_pieces isec !! i = Some ref ->
     syms !! r_sym rel = Some sym ->
     sym_file sym = None ->
     copy_body out isec syms i buf = Done (i, buf) /\
     (forall fuel : nat,
        copy_loop (S fuel) out isec syms i buf =
        copy_loop fuel out isec syms (S i) buf)).
Proof.
  split; [|split].
  - intros i st rel sym Hrel Hsym Hun.
    assert (Hb : scan_body isec i st = Done (i, set_has_error st)).
    { unfold scan_body. now rewrite Hrel, Hsym, Hun. }
    repeat split; [exact Hb|].
    intros fuel. cbn [scan_loop].
    apply lookup_lt_Some in Hrel.
    destruct (Nat.leb_spec (length (rels isec)) i); [lia|]. now rewrite Hb.
  - intros Hna st. unfold scan_relocations. now rewrite Hna.
  - intros out syms i buf rel ref sym Hrel Href Hsym Hfile.
    assert (Hb : copy_body out isec syms i buf = Done (i, buf)).
    { unfold copy_body. now rewrite Hrel, Href, Hsym, Hfile. }
    split; [exact Hb|]. intros fuel. apply copy_loop_step; [|exact Hb].
    eapply lookup_lt_Some; eauto.
Qed.

(** [copy_buf] on the sample section: the three 32-bit fields hold
    S + A - P, G + GOT + A - P and S + A - P. *)
Example copy_buf_sample :
  exists buf,
    copy_buf sample_out sample_scan_isec (symbols sample_scan_state) zero_mem =
      Some (Done buf) /\
    load_le 4 buf 4100 = u32 (8192 - 4 - 4100) /\
    load_le 4 buf 4108 = u32 (0 - 4 - 4108) /\
    load_le 4 buf 4116 = u32 (8200 - 4 - 4116).
Proof. eexists. split; [reflexivity|]. vm_compute. repeat split. Qed.

(** The PC32 relocation of the sample section: S = 8192, A = -4,
    P = 4100. *)
Lemma copy_body_table_witness :
  copy_body sample_out sample_scan_isec (symbols sample_scan_state) 0 zero_mem =
    Done (0%nat, store_u32 4100 4088 zero_mem).
Proof.
  apply (proj1 (proj2
           (copy_body_table sample_out sample_scan_isec (symbols sample_scan_state)
              0 zero_mem (mkRela 4 R_X86_64_PC32 0 (-4)) (mkPieceRef None 0)
              (sample_symbol (Some 7%nat) false true STT_OBJECT 8192)
              eq_refl eq_refl eq_refl (ex_intro _ 7%nat eq_refl)))).
  reflexivity.
Defined.

(** The TLSGD relocation of the TLS sample, relaxed. *)
Lemma copy_body_tlsgd_witness :
  copy_body sample_out tls_copy_isec tls_copy_syms 0 zero_mem =
    Done (1%nat,
          store_u32 4112 (u64 (16 - 64 + -4 + 4))
                    (store_bytes 4100 tlsgd_insn zero_mem)).
Proof.
  apply (proj1 (copy_body_tlsgd sample_out tls_copy_isec tls_copy_syms
                  0 zero_mem (mkRela 8 R_X86_64_TLSGD 0 (-4)) (mkPieceRef None 0)
                  (sample_symbol (Some 1%nat) false false 6 16)
                  eq_refl eq_refl eq_refl (ex_intro _ 1%nat eq_refl) eq_refl)).
  reflexivity.
Defined.

(** The PLT32 that follows a relaxed TLSGD is not applied: its four bytes
    still hold what the relaxation put there, not S + A - P. *)
Lemma copy_buf_skips_paired_plt32 :
  exists (rel : ElfRela) (ref : StringPieceRef) (sym : Symbol) (buf : mem),
    (sh_type (isec_shdr tls_copy_isec) =? SHT_NOBITS) = false /\
    (sh_size (isec_shdr tls_copy_isec) =? 0) = false /\
    rels tls_copy_isec !! 1%nat = Some rel /\
    rel_pieces tls_copy_isec !! 1%nat = Some ref /\
    r_type rel = R_X86_64_PLT32 /\
    tls_copy_syms !! r_sym rel = Some sym /\
    sym_file sym = Some 7%nat /\
    plt_idx sym = -1 /\
    copy_buf sample_out tls_copy_isec tls_copy_syms zero_mem = Some (Done buf) /\
    load_le 4 buf (isec_base tls_copy_isec + r_offset rel) = 4294967248 /\
    u32 (u64 (val_S sym ref + val_A rel ref - val_P tls_copy_isec rel)) = 4290777076.
Proof.
  eexists _, _, _, _.
  repeat (split; [reflexivity|]).
  split; vm_compute; reflexivity.
Qed.

(** A TLSGD whose symbol has no defining file and no TLSGD slot:
    [copy_buf] skips it, and the sixteen bytes from [loc - 4] on are still
    the 0xaa bytes of the section, not the instruction sequence. *)
Lemma copy_buf_skips_undefined_tlsgd :
  exists (rel : ElfRela) (sym : Symbol) (buf : mem),
    rels undefined_tls_isec !! 0%nat = Some rel /\
    r_type rel = R_X86_64_TLSGD /\
    symbols undefined_state !! r_sym rel = Some sym /\
    tlsgd_idx sym = -1 /\
    copy_buf sample_out undefined_tls_isec (symbols undefined_state) zero_mem =
      Some (Done buf) /\
    map (fun k => buf (isec_base undefined_tls_isec + r_offset rel - 4 + k))
        [0; 1; 2; 3; 4; 5; 6; 7; 8; 9; 10; 11; 12; 13; 14; 15] =
      repeat 170 16.
Proof.
  eexists _, _, _.
  repeat (split; [reflexivity|]).
  vm_compute. reflexivity.
Qed.

(** The undefined symbol of the samples, in the scanner and in the
    applier. *)
Lemma unresolved_symbol_deferred_witness :
  scan_body trailing_tls_isec 0 undefined_state =
    Done (0%nat, set_has_error undefined_state) /\
  copy_body sample_out undefined_tls_isec (symbols undefined_state) 0 zero_mem =
    Done (0%nat, zero_mem).
Proof.
  split.
  - apply (proj1 (unresolved_symbol_deferred trailing_tls_isec) 0%nat undefined_state
             (mkRela 4 R_X86_64_TLSGD 0 (-4)) (sample_symbol None false false 0 0)
             eq_refl eq_refl eq_refl).
  - apply (proj2 (proj2 (unresolved_symbol_deferred undefined_tls_isec))
             sample_out (symbols undefined_state) 0%nat zero_mem
             (mkRela 8 R_X86_64_TLSGD 0 (-4)) (mkPieceRef None 0)
             (sample_symbol None false false 0 0)
             eq_refl eq_refl eq_refl eq_refl).
Defined.

(** A relocation against an undefined symbol in a section that is not
    allocated: the scanner returns at once and [has_error] stays unset. *)
Lemma scan_ignores_unallocated :
  exists (rel : ElfRela) (sym : Symbol) (st : FileState),
    rels debug_isec !! 0%nat = Some rel /\
    symbols undefined_state !! r_sym rel = Some sym /\
    sym_file sym = None /\
    scan_relocations debug_isec undefined_state = Some (Done st) /\
    has_error st = false.
Proof. eexists _, _, _. repeat split; reflexivity. Qed.

Section Rank.

Lemma rank_as_bits (shdr : ElfShdr) :
  match rank_bits shdr with
  | [b6; b5; b4; b3; b2; b0] =>
      get_section_rank shdr =
      64 * b2z b6 + 32 * b2z b5 + 16 * b2z b4 + 8 * b2z b3 + 4 * b2z b2 + b2z b0
  | _ => False
  end.
Proof.
  unfold rank_bits, get_section_rank. cbv zeta.
  destruct (sh_type shdr =? SHT_NOTE), (has_flag shdr SHF_ALLOC),
    (has_flag shdr SHF_WRITE), (has_flag shdr SHF_EXECINSTR),
    (has_flag shdr SHF_TLS), (sh_type shdr =? SHT_NOBITS); reflexivity.
Qed.

Lemma rank_compare_lex (a b : ElfShdr) :
  (get_section_rank a ?= get_section_rank b) =
  lex_compare (rank_bits a) (rank_bits b).
Proof.
  pose proof (rank_as_bits a) as Ha. pose proof (rank_as_bits b) as Hb.
  destruct (rank_bits a) as [|a6 [|a5 [|a4 [|a3 [|a2 [|a0 [|? ?]]]]]]]; try contradiction.
  destruct (rank_bits b) as [|b6 [|b5 [|b4 [|b3 [|b2 [|b0 [|? ?]]]]]]]; try contradiction.
  rewrite Ha, Hb.
  destruct a6, a5, a4, a3, a2, a0, b6, b5, b4, b3, b2, b0; reflexivity.
Qed.

Lemma classify_rank_range (shdr : ElfShdr) (c : SectionClass) :
  classify shdr = Some c ->
  class_lo c <= get_section_rank shdr <= class_hi c.
Proof.
  pose proof (rank_as_bits shdr) as Hr.
  unfold classify, rank_bits in *. cbv zeta.
  destruct (sh_type shdr =? SHT_NOTE), (has_flag shdr SHF_ALLOC),
    (has_flag shdr SHF_WRITE), (has_flag shdr SHF_EXECINSTR),
    (has_flag shdr SHF_TLS), (sh_type shdr =? SHT_NOBITS);
    cbn in *; intros [= <-]; cbn; lia.
Qed.

Lemma class_rank_lt (a b : ElfShdr) (ca cb : SectionClass) :
  classify a = Some ca -> classify b = Some cb ->
  class_index ca < class_index cb ->
  get_section_rank a < get_section_rank b.
Proof.
  intros Ha Hb Hlt.
  apply classify_rank_range in Ha. apply classify_rank_range in Hb.
  destruct ca, cb; cbn in *; lia.
Qed.

Lemma sorted_lookup_le (l : list ElfShdr) :
  StronglySorted rank_le l ->
  forall (i j : nat) (a b : ElfShdr),
    l !! i = Some a -> l !! j = Some b -> (i < j)%nat -> rank_le a b.
Proof.
  induction 1 as [|x l Hs IH Hall]; intros i j a b Hi Hj Hlt.
  - discriminate.
  - destruct j as [|j]; [lia|]. cbn in Hj.
    destruct i as [|i]; cbn in Hi.
    + injection Hi as <-. rewrite Forall_forall in Hall.
      apply Hall. eapply list_elem_of_lookup_2; eauto.
    + eapply IH; eauto. lia.
Qed.

Lemma insert_chunk_perm (x : ElfShdr) (l : list ElfShdr) :
  Permutation (x :: l) (insert_chunk x l).
Proof.
  induction l as [|y l IH]; cbn; [reflexivity|].
  destruct (get_section_rank x <? get_section_rank y); [reflexivity|].
  rewrite perm_swap. now constructor.
Qed.

Lemma insert_chunk_sorted (x : ElfShdr) (l : list ElfShdr) :
  StronglySorted rank_le l -> StronglySorted rank_le (insert_chunk x l).
Proof.
  induction 1 as [|y l Hs IH Hall]; cbn.
  - constructor; constructor.
  - destruct (Z.ltb_spec (get_section_rank x) (get_section_rank y)) as [Hlt|Hge].
    + constructor; [constructor; assumption|].
      constructor; [unfold rank_le; lia|].
      eapply Forall_impl; [exact Hall|]. unfold rank_le. intros; lia.
    + constructor; [assumption|].
      eapply Permutation_Forall; [apply insert_chunk_perm|].
      constructor; [unfold rank_le; lia | assumption].
Qed.

Lemma sort_chunks_perm (l : list ElfShdr) : Permutation l (sort_chunks l).
Proof.
  induction l as [|x l IH]; cbn; [reflexivity|].
  etransitivity; [|apply insert_chunk_perm]. now constructor.
Qed.

Lemma sort_chunks_sorted (l : list ElfShdr) :
  StronglySorted rank_le (sort_chunks l).
Proof.
  induction l as [|x l IH]; cbn; [constructor|].
  now apply insert_chunk_sorted.
Qed.

(** C6.  Comparing two section headers by [get_section_rank] is exactly
    the lexicographic comparison of their bit tuples
    (!note, !alloc, writable, exec, !tls, nobits).  Consequently a class
    that comes earlier in the list NOTE, ALLOC-RO-DATA, ALLOC-RO-CODE,
    ALLOC-RW-TDATA, ALLOC-RW-TBSS, ALLOC-RW-DATA, ALLOC-RW-BSS, NONALLOC
    has strictly smaller ranks, so in every arrangement of the chunks that
    is sorted by ascending rank (whatever the sort does with ties) the
    classes appear in that order; [sort_chunks] produces such an
    arrangement. *)
Theorem section_rank_order :
  (forall a b : ElfShdr,
     (get_section_rank a ?= get_section_rank b) =
     lex_compare (rank_bits a) (rank_bits b)) /\
  (forall (a b : ElfShdr) (ca cb : SectionClass),
     classify a = Some ca -> classify b = Some cb ->
     class_index ca < class_index cb ->
     get_section_rank a < get_section_rank b) /\
  (forall chunks sorted : list ElfShdr,
     Permutation chunks sorted -> StronglySorted rank_le sorted ->
     forall (i j : nat) (a b : ElfShdr) (ca cb : SectionClass),
       sorted !! i = Some a -> sorted !! j = Some b -> (i < j)%nat ->
       classify a = Some ca -> classify b = Some cb ->
       class_index ca <= class_index cb) /\
  (forall chunks : list ElfShdr,
     Permutation chunks (sort_chunks chunks) /\
     StronglySorted rank_le (sort_chunks chunks)).
Proof.
  split; [exact rank_compare_lex|].
  split; [exact class_rank_lt|].
  split.
  - intros chunks sorted _ Hs i j a b ca cb Hi Hj Hlt Ha Hb.
    pose proof (sorted_lookup_le sorted Hs i j a b Hi Hj Hlt) as Hle.
    unfold rank_le in Hle.
    destruct (Z.le_gt_cases (class_index ca) (class_index cb)) as [|Hgt];
      [assumption|].
    pose proof (class_rank_lt b a cb ca Hb Ha Hgt). lia.
  - intros chunks. split; [apply sort_chunks_perm | apply sort_chunks_sorted].
Qed.

End Rank.

(* ================================================================== *)
(** * Part III: further properties of the code *)
(* ================================================================== *)

(** ** The relocation applier: relaxed TLSLD, and the bytes it leaves alone *)

Section CopyFrame.

Variable out : Out.
Variable isec : InputSection.
Variable syms : list Symbol.

Lemma store_le_outside (n : nat) (loc v : Z) (buf : mem) (a : Z) :
  a < loc \/ loc + Z.of_nat n <= a ->
  store_bytes loc (le_bytes n v) buf a = buf a.
Proof. intros H. apply store_bytes_outside. now rewrite le_bytes_length. Qed.

(** One iteration writes inside the window of its relocation only. *)
Lemma copy_body_frame (i : nat) (buf : mem) (rel : ElfRela) (a : Z) :
  rels isec !! i = Some rel ->
  a < rel_loc isec rel - 4 \/ rel_loc isec rel + 12 <= a ->
  snd (result_state (copy_body out isec syms i buf)) a = buf a.
Proof.
  intros Hrel Ha. unfold copy_body. rewrite Hrel.
  destruct (rel_pieces isec !! i) as [ref|]; [|reflexivity].
  destruct (syms !! r_sym rel) as [sym|]; [|reflexivity].
  destruct (sym_file sym); [|reflexivity].
  destruct (rel_kind (r_type rel));
    repeat match goal with
           | |- context [if ?b then _ else _] => destruct b
           end;
    cbn [result_state snd];
    unfold store_u64, store_u32, store_u16, store_u8;
    rewrite ?store_le_outside by (cbn; lia);
    rewrite ?store_bytes_outside by (cbn; lia);
    reflexivity.
Qed.

Lemma copy_loop_frame (a : Z) :
  (forall rel, rel ∈ rels isec ->
     a < rel_loc isec rel - 4 \/ rel_loc isec rel + 12 <= a) ->
  forall (fuel i : nat) (buf : mem) (r : result mem),
    copy_loop fuel out isec syms i buf = Some r ->
    result_state r a = buf a.
Proof.
  intros Ha. induction fuel as [|fuel IH]; intros i buf r; cbn [copy_loop];
    destruct (Nat.leb_spec (length (rels isec)) i) as [|Hlt];
    try (intros [= <-]; reflexivity); try discriminate.
  destruct (lookup_lt_is_Some_2 (rels isec) i Hlt) as [rel Hrel].
  pose proof (copy_body_frame i buf rel a Hrel
                (Ha rel (list_elem_of_lookup_2 _ _ _ Hrel))) as Hb.
  destruct (copy_body out isec syms i buf) as [[i' buf'] | msg x | x | v x];
    cbn [result_state snd result_map] in *.
  - intros H. rewrite (IH _ _ _ H). exact Hb.
  - intros [= <-]. exact Hb.
  - intros [= <-]. exact Hb.
  - intros [= <-]. exact Hb.
Qed.

End CopyFrame.

Lemma not_in_reloc_window (isec : InputSection) (a : Z) :
  ~ in_reloc_window isec a ->
  forall rel, rel ∈ rels isec ->
    a < rel_loc isec rel - 4 \/ rel_loc isec rel + 12 <= a.
Proof.
  intros Hwin rel Hin.
  destruct (Z.lt_ge_cases a (rel_loc isec rel - 4)) as [|H1]; [now left|].
  destruct (Z.lt_ge_cases a (rel_loc isec rel + 12)) as [H2|]; [|now right].
  exfalso. apply Hwin. exists rel. split; [exact Hin | lia].
Qed.

(** X1.  For every R_X86_64_TLSLD relocation that the loop of [copy_buf]
    dispatches on and whose symbol has a defining file: when the symbol's
    [tlsld_idx] is -1, the body overwrites the twelve bytes starting at
    [loc - 3] with 66 66 66 64 48 8b 04 25 00 00 00 00, changes no other
    byte, and the loop continues two indices further, so that the paired
    relocation that follows is not applied; when [tlsld_idx] is set, the
    body writes the u32 value tlsld_addr + A - P at [loc] and the loop
    continues with the next index. *)
Theorem copy_body_tlsld (out : Out) (isec : InputSection) (syms : list Symbol)
  (i : nat) (buf : mem) (rel : ElfRela) (ref : StringPieceRef) (sym : Symbol) :
  rels isec !! i = Some rel ->
  rel_pieces isec !! i = Some ref ->
  syms !! r_sym rel = Some sym ->
  is_Some (sym_file sym) ->
  r_type rel = R_X86_64_TLSLD ->
  let loc := isec_base isec + r_offset rel in
  let A := val_A rel ref in
  let P := u64 (u64 (sh_addr (output_shdr isec) + isec_offset isec) + r_offset rel) in
  (tlsld_idx sym = -1 ->
   let buf' := store_bytes (loc - 3) tlsld_insn buf in
   copy_body out isec syms i buf = Done (S i, buf') /\
   (forall fuel : nat,
      copy_loop (S fuel) out isec syms i buf =
      copy_loop fuel out isec syms (S (S i)) buf') /\
   (forall k : nat, (k < 12)%nat ->
      buf' (loc - 3 + Z.of_nat k) = nth k tlsld_insn 0) /\
   (forall a : Z, a < loc - 3 \/ loc + 9 <= a -> buf' a = buf a)) /\
  (tlsld_idx sym <> -1 ->
   let v := u64 (tlsld_addr sym + A - P) in
   let buf' := store_u32 loc v buf in
   copy_body out isec syms i buf = Done (i, buf') /\
   (forall fuel : nat,
      copy_loop (S fuel) out isec syms i buf =
      copy_loop fuel out isec syms (S i) buf') /\
   load_le 4 buf' loc = u32 v /\
   (forall a : Z, a < loc \/ loc + 4 <= a -> buf' a = buf a)).
Proof.
  intros Hrel Href Hsym Hfile Hty. cbv zeta.
  pose proof (copy_body_defined out isec syms i buf rel ref sym Hrel Href Hsym Hfile)
    as Hbody.
  cbv zeta in Hbody. rewrite Hty in Hbody. cbn [rel_kind Z.eqb] in Hbody.
  unfold rel_loc, val_P, isec_sh_addr in Hbody.
  assert (Hlt : (i < length (rels isec))%nat) by (eapply lookup_lt_Some; eauto).
  split.
  - intros Hidx. rewrite Hidx in Hbody. cbn [Z.eqb Pos.eqb] in Hbody.
    split; [exact Hbody|]. split; [|split].
    + intros fuel. now apply copy_loop_step.
    + intros k Hk. now rewrite store_bytes_inside by (cbn; lia).
    + intros a Ha. apply store_bytes_outside. cbn [length tlsld_insn]. lia.
  - intros Hidx. destruct (Z.eqb_spec (tlsld_idx sym) (-1)) as [|_]; [contradiction|].
    split; [exact Hbody|]. split; [|split].
    + intros fuel. now apply copy_loop_step.
    + apply (store_le_spec 4).
    + intros a Ha. apply (store_le_spec 4). exact Ha.
Qed.

(** The TLSLD relocation of the sample, relaxed. *)
Lemma copy_body_tlsld_witness :
  copy_body sample_out tlsld_copy_isec tls_copy_syms 0 zero_mem =
    Done (1%nat, store_bytes 4101 tlsld_insn zero_mem).
Proof.
  apply (proj1 (copy_body_tlsld sample_out tlsld_copy_isec tls_copy_syms
                  0 zero_mem (mkRela 8 R_X86_64_TLSLD 0 (-4)) (mkPieceRef None 0)
                  (sample_symbol (Some 1%nat) false false 6 16)
                  eq_refl eq_refl eq_refl (ex_intro _ 1%nat eq_refl) eq_refl)).
  reflexivity.
Defined.

(** However [copy_buf] ends, it has changed nothing outside the
    footprint of the section. *)
Lemma copy_buf_outside (out : Out) (isec : InputSection) (syms : list Symbol)
  (buf : mem) (r : result mem) (a : Z) :
  copy_buf out isec syms buf = Some r ->
  ~ footprint isec a ->
  result_state r a = buf a.
Proof.
  intros Hr Hfp. unfold copy_buf in Hr. destruct (_ || _); [now injection Hr as <-|].
  assert (Hwin : ~ in_reloc_window isec a) by (intros H; apply Hfp; now right).
  rewrite (copy_loop_frame out isec syms a (not_in_reloc_window isec a Hwin) _ _ _ _ Hr).
  apply store_bytes_outside.
  assert (Himg : ~ in_image isec a) by (intros H; apply Hfp; now left).
  unfold in_image in Himg. lia.
Qed.

(** X2.  [copy_buf] returns, and however the run ends (normally, with the
    fatal error of an unknown relocation type, or at an index out of
    range), it has changed no byte of the output buffer outside the
    footprint of the section: its image, [contents.size()] bytes from
    [base] on, and the windows of its relocations, from four bytes before
    to twelve bytes after [base + r_offset]. *)
Theorem copy_buf_frame (out : Out) (isec : InputSection) (syms : list Symbol)
  (buf : mem) :
  exists r : result mem,
    copy_buf out isec syms buf = Some r /\
    forall a : Z, ~ footprint isec a -> result_state r a = buf a.
Proof.
  destruct (copy_buf_total out isec syms buf) as [r Hr]. exists r.
  split; [exact Hr|]. intros a Ha.
  exact (copy_buf_outside out isec syms buf r a Hr Ha).
Qed.

(** X3.  After [copy_buf] on a section that has bits and a non-zero size,
    every byte of the section's contents that lies in the window of none
    of its relocations is in the output buffer at [base + k], as it was in
    the input. *)
Theorem copy_buf_image (out : Out) (isec : InputSection) (syms : list Symbol)
  (buf : mem) (r : result mem) (k : nat) (b : Z) :
  copy_buf out isec syms buf = Some r ->
  sh_type (isec_shdr isec) <> SHT_NOBITS ->
  sh_size (isec_shdr isec) <> 0 ->
  contents isec !! k = Some b ->
  ~ in_reloc_window isec (isec_base isec + Z.of_nat k) ->
  result_state r (isec_base isec + Z.of_nat k) = b.
Proof.
  intros Hr Hty Hsz Hk Hwin. unfold copy_buf in Hr.
  destruct (Z.eqb_spec (sh_type (isec_shdr isec)) SHT_NOBITS); [contradiction|].
  destruct (Z.eqb_spec (sh_size (isec_shdr isec)) 0); [contradiction|].
  cbn [orb] in Hr.
  rewrite (copy_loop_frame out isec syms _ (not_in_reloc_window isec _ Hwin) _ _ _ _ Hr).
  rewrite store_bytes_inside by (eapply lookup_lt_Some; eauto).
  now apply nth_lookup_Some.
Qed.

(** Byte 30 of the TLS sample, outside the windows of its two
    relocations. *)
Lemma copy_buf_image_witness :
  exists r : result mem,
    copy_buf sample_out tls_copy_isec tls_copy_syms zero_mem = Some r /\
    result_state r (isec_base tls_copy_isec + Z.of_nat 30) = 170.
Proof.
  destruct (copy_buf_total sample_out tls_copy_isec tls_copy_syms zero_mem)
    as [r Hr].
  exists r. split; [exact Hr|].
  apply (copy_buf_image sample_out tls_copy_isec tls_copy_syms zero_mem r 30 170 Hr);
    [discriminate | discriminate | reflexivity |].
  intros (rel & Hin & H). cbn [rels tls_copy_isec] in Hin.
  repeat (apply elem_of_cons in Hin as [-> | Hin];
          [vm_compute in H; destruct H as [H1 H2]; first [now apply H1 | discriminate H2]|]).
  inversion Hin.
Defined.

(** ** The relocation scanner as a set of writes *)

Section ScanActions.

Lemma skeleton_set_need (n : Need) (s : Symbol) :
  skeleton (set_need n s) = skeleton s.
Proof. now destruct n. Qed.

Lemma set_need_comm (n m : Need) (s : Symbol) :
  set_need n (set_need m s) = set_need m (set_need n s).
Proof. now destruct n, m. Qed.

Lemma set_need_idem (n : Need) (s : Symbol) :
  set_need n (set_need n s) = set_need n s.
Proof. now destruct n. Qed.

(** What the scanner reads of a symbol is in its skeleton. *)
Lemma skeleton_reads (s s' : Symbol) :
  skeleton s' = skeleton s ->
  unresolved s' = unresolved s /\ is_imported s' = is_imported s /\
  sym_type s' = sym_type s.
Proof.
  intros H. repeat split.
  - exact (f_equal unresolved H).
  - exact (f_equal is_imported H).
  - exact (f_equal sym_type H).
Qed.

Lemma same_skeleton_lookup (st t : FileState) (idx : nat) (s : Symbol) :
  same_skeleton st t ->
  symbols st !! idx = Some s ->
  exists s', symbols t !! idx = Some s' /\ skeleton s' = skeleton s.
Proof.
  unfold same_skeleton. intros H Hs.
  assert (Hl : map skeleton (symbols t) !! idx = Some (skeleton s)).
  { rewrite <- H. change (map skeleton (symbols st)) with (skeleton <$> symbols st).
    now rewrite list_lookup_fmap, Hs. }
  change (map skeleton (symbols t)) with (skeleton <$> symbols t) in Hl.
  rewrite list_lookup_fmap in Hl.
  destruct (symbols t !! idx) as [s'|]; [|discriminate].
  exists s'. split; [reflexivity | exact (inj Some _ _ Hl)].
Qed.

Lemma same_skeleton_sym (st t : FileState) : same_skeleton st t -> same_skeleton t st.
Proof. unfold same_skeleton. congruence. Qed.

Lemma same_skeleton_trans (st t u : FileState) :
  same_skeleton st t -> same_skeleton t u -> same_skeleton st u.
Proof. unfold same_skeleton. congruence. Qed.

Lemma same_skeleton_action (t : FileState) (a : ScanAction) :
  same_skeleton t (apply_action t a).
Proof.
  unfold same_skeleton. destruct a as [|idx n]; cbn; [reflexivity|].
  destruct (symbols t !! idx) as [sym|] eqn:Hs; [|reflexivity].
  cbn. change (map skeleton ?l) with (skeleton <$> l).
  rewrite list_fmap_insert, skeleton_set_need.
  symmetry. apply list_insert_id. now rewrite list_lookup_fmap, Hs.
Qed.

Lemma same_skeleton_actions (acts : list ScanAction) :
  forall t, same_skeleton t (apply_actions acts t).
Proof.
  induction acts as [|a acts IH]; intros t; [reflexivity|].
  cbn. eapply same_skeleton_trans; [apply (same_skeleton_action t a) | apply IH].
Qed.

Lemma raise_lookup (t : FileState) (idx : nat) (n : Need) (s : Symbol) :
  symbols t !! idx = Some s ->
  apply_actions [Raise idx n] t = update_symbol t idx (set_need n s).
Proof. intros H. cbn. now rewrite H. Qed.

(** The writes of one iteration depend on the skeletons only. *)
Lemma scan_body_actions (isec : InputSection) (i i' : nat) (st st' : FileState) :
  scan_body isec i st = Done (i', st') ->
  exists acts : list ScanAction,
    forall t, same_skeleton st t ->
      scan_body isec i t = Done (i', apply_actions acts t).
Proof.
  intros H. unfold scan_body in H.
  destruct (rels isec !! i) as [rel|] eqn:Hrel; [|discriminate].
  destruct (symbols st !! r_sym rel) as [sym|] eqn:Hsym; [|discriminate].
  assert (Hgen : forall t, same_skeleton st t ->
            exists sym', symbols t !! r_sym rel = Some sym' /\
              unresolved sym' = unresolved sym /\
              is_imported sym' = is_imported sym /\
              sym_type sym' = sym_type sym).
  { intros t Ht. destruct (same_skeleton_lookup st t _ _ Ht Hsym) as (s' & Hs' & Hsk).
    exists s'. split; [exact Hs'|]. now apply skeleton_reads. }
  pose (idx := r_sym rel).
  assert (Hcases :
    forall acts : list ScanAction,
      (forall t sym', symbols t !! r_sym rel = Some sym' ->
         unresolved sym' = unresolved sym ->
         is_imported sym' = is_imported sym ->
         sym_type sym' = sym_type sym ->
         scan_body isec i t = Done (i', apply_actions acts t)) ->
      exists acts : list ScanAction,
        forall t, same_skeleton st t ->
          scan_body isec i t = Done (i', apply_actions acts t)).
  { intros acts Ha. exists acts. intros t Ht.
    destruct (Hgen t Ht) as (sym' & H1 & H2 & H3 & H4). eauto. }
  destruct (unresolved sym) eqn:Hun.
  { injection H as <- _. apply (Hcases [SetError]).
    intros t sym' H1 H2 _ _. unfold scan_body. now rewrite Hrel, H1, H2. }
  unfold scan_tls in H.
  destruct (rel_kind (r_type rel)) eqn:Hk;
    repeat match type of H with
           | context [if ?b then _ else _] => destruct b eqn:?
           | context [match ?o with Some _ => _ | None => _ end] => destruct o eqn:?
           end;
    try discriminate; injection H as <- _;
    let solve_with acts :=
      apply (Hcases acts);
      intros t sym' H1 H2 H3 H4;
      rewrite ?(raise_lookup t _ _ sym' H1);
      unfold scan_body, scan_tls; rewrite Hrel, H1, H2, Hk, ?H3, ?H4;
      repeat match goal with
             | E : ?x = _ |- context [?x] => rewrite E
             end;
      reflexivity in
    first
      [ solve_with (@nil ScanAction)
      | solve_with [Raise (r_sym rel) NeedGot]
      | solve_with [Raise (r_sym rel) NeedPlt]
      | solve_with [Raise (r_sym rel) NeedCopyrel]
      | solve_with [Raise (r_sym rel) NeedTlsgd]
      | solve_with [Raise (r_sym rel) NeedTlsld]
      | solve_with [Raise (r_sym rel) NeedGottpoff] ].
Qed.

Lemma same_skeleton_refl (st : FileState) : same_skeleton st st.
Proof. reflexivity. Qed.

(** The writes of a whole run depend on the skeletons only. *)
Lemma scan_loop_actions (isec : InputSection) (fuel : nat) :
  forall (i : nat) (st st' : FileState),
    scan_loop fuel isec i st = Some (Done st') ->
    exists acts : list ScanAction,
      forall t, same_skeleton st t ->
        scan_loop fuel isec i t = Some (Done (apply_actions acts t)).
Proof.
  induction fuel as [|fuel IH]; intros i st st'; cbn [scan_loop];
    destruct (Nat.leb_spec (length (rels isec)) i) as [|Hlt];
    try (intros _; exists []; reflexivity); try discriminate.
  destruct (scan_body isec i st) as [[i' st1] | | |] eqn:E; try discriminate.
  intros Hrest.
  destruct (scan_body_actions isec i i' st st1 E) as [acts1 H1].
  pose proof (H1 st (same_skeleton_refl st)) as E'. rewrite E in E'.
  injection E' as ->.
  destruct (IH _ _ _ Hrest) as [acts2 H2].
  exists (acts1 ++ acts2). intros t Ht. rewrite (H1 t Ht).
  rewrite H2.
  - unfold apply_actions. now rewrite fold_left_app.
  - eapply same_skeleton_trans; [apply same_skeleton_sym, same_skeleton_actions|].
    eapply same_skeleton_trans; [exact Ht | apply same_skeleton_actions].
Qed.

Lemma scan_relocations_actions (isec : InputSection) (st st' : FileState) :
  scan_relocations isec st = Some (Done st') ->
  exists acts : list ScanAction,
    st' = apply_actions acts st /\
    forall t, same_skeleton st t ->
      scan_relocations isec t = Some (Done (apply_actions acts t)).
Proof.
  unfold scan_relocations. destruct (negb _).
  - intros [= <-]. exists []. split; [reflexivity|]. reflexivity.
  - intros H. destruct (scan_loop_actions _ _ _ _ _ H) as [acts Ha].
    exists acts. split; [|exact Ha].
    rewrite (Ha st (same_skeleton_refl st)) in H. now injection H as <-.
Qed.

(** Two writes commute, and a write made twice is made once. *)
Lemma apply_action_comm (t : FileState) (a b : ScanAction) :
  apply_action (apply_action t a) b = apply_action (apply_action t b) a.
Proof.
  destruct a as [|i n], b as [|j m]; cbn; try reflexivity.
  - destruct (symbols t !! j); reflexivity.
  - destruct (symbols t !! i); reflexivity.
  - destruct (decide (i = j)) as [<-|Hij].
    + destruct (symbols t !! i) as [s|] eqn:Hs; cbn; rewrite ?Hs; [|reflexivity].
      assert (Hlt : (i < length (symbols t))%nat) by (eapply lookup_lt_Some; eauto).
      rewrite !list_lookup_insert_eq by exact Hlt. cbn.
      unfold update_symbol. cbn. rewrite !list_insert_insert_eq.
      now rewrite set_need_comm.
    + destruct (symbols t !! i) as [s|] eqn:Hs, (symbols t !! j) as [s'|] eqn:Hs';
        cbn; rewrite ?list_lookup_insert_ne by congruence; rewrite ?Hs, ?Hs';
        try reflexivity.
      unfold update_symbol. cbn. f_equal. apply list_insert_insert_ne; congruence.
Qed.

Lemma apply_action_idem (t : FileState) (a : ScanAction) :
  apply_action (apply_action t a) a = apply_action t a.
Proof.
  destruct a as [|i n]; cbn; [reflexivity|].
  destruct (symbols t !! i) as [s|] eqn:Hs; cbn; rewrite ?Hs; [|reflexivity].
  assert (Hlt : (i < length (symbols t))%nat) by (eapply lookup_lt_Some; eauto).
  rewrite list_lookup_insert_eq by exact Hlt.
  unfold update_symbol. cbn. rewrite list_insert_insert_eq.
  now rewrite set_need_idem.
Qed.

Lemma apply_actions_action (acts : list ScanAction) (a : ScanAction) :
  forall t, apply_action (apply_actions acts t) a =
            apply_actions acts (apply_action t a).
Proof.
  induction acts as [|b acts IH]; intros t; [reflexivity|].
  cbn. rewrite IH. now rewrite apply_action_comm.
Qed.

Lemma apply_actions_comm (acts1 acts2 : list ScanAction) :
  forall t, apply_actions acts1 (apply_actions acts2 t) =
            apply_actions acts2 (apply_actions acts1 t).
Proof.
  induction acts1 as [|a acts1 IH]; intros t; [reflexivity|].
  cbn. rewrite <- IH. f_equal. apply apply_actions_action.
Qed.

Lemma apply_actions_idem (acts : list ScanAction) :
  forall t, apply_actions acts (apply_actions acts t) = apply_actions acts t.
Proof.
  induction acts as [|a acts IH]; intros t; [reflexivity|].
  cbn. fold (apply_actions acts). rewrite apply_actions_action.
  rewrite apply_action_idem. apply IH.
Qed.

(** X6.  Scanning is independent of the order of the sections: if the
    scan of section A and then the scan of section B, on the symbols of
    one file, both return, then so do the scan of B and then the scan of
    A, and the symbols and [has_error] end in the same state. *)
Theorem scan_relocations_commute (isecA isecB : InputSection)
  (st stA stAB : FileState) :
  scan_relocations isecA st = Some (Done stA) ->
  scan_relocations isecB stA = Some (Done stAB) ->
  exists stB : FileState,
    scan_relocations isecB st = Some (Done stB) /\
    scan_relocations isecA stB = Some (Done stAB).
Proof.
  intros HA HB.
  destruct (scan_relocations_actions _ _ _ HA) as (actsA & -> & HA').
  destruct (scan_relocations_actions _ _ _ HB) as (actsB & -> & HB').
  exists (apply_actions actsB st). split.
  - apply HB'. apply same_skeleton_sym, same_skeleton_actions.
  - rewrite HA' by apply same_skeleton_actions.
    now rewrite apply_actions_comm.
Qed.

(** X7.  Scanning a section a second time changes nothing: the scan of
    the state a scan returned returns that state. *)
Theorem scan_relocations_idempotent (isec : InputSection) (st st' : FileState) :
  scan_relocations isec st = Some (Done st') ->
  scan_relocations isec st' = Some (Done st').
Proof.
  intros H. destruct (scan_relocations_actions _ _ _ H) as (acts & -> & H').
  rewrite H' by apply same_skeleton_actions.
  now rewrite apply_actions_idem.
Qed.

End ScanActions.

(** The [.text] and the [.data] sample, scanned in both orders. *)
Lemma scan_relocations_commute_witness :
  exists stA stAB stB : FileState,
    scan_relocations sample_scan_isec sample_scan_state = Some (Done stA) /\
    scan_relocations data_scan_isec stA = Some (Done stAB) /\
    scan_relocations data_scan_isec sample_scan_state = Some (Done stB) /\
    scan_relocations sample_scan_isec stB = Some (Done stAB).
Proof.
  destruct (scan_relocations_commute sample_scan_isec data_scan_isec
              sample_scan_state _ _ eq_refl eq_refl) as (stB & H1 & H2).
  eexists _, _, stB. repeat split; [exact H1 | exact H2].
Defined.

(** The [.text] sample, scanned twice. *)
Lemma scan_relocations_idempotent_witness :
  exists st' : FileState,
    scan_relocations sample_scan_isec sample_scan_state = Some (Done st') /\
    scan_relocations sample_scan_isec st' = Some (Done st').
Proof.
  eexists. split; [reflexivity|].
  apply (scan_relocations_idempotent sample_scan_isec sample_scan_state).
  reflexivity.
Defined.

Section ScanRaises.

Variable isec : InputSection.

Lemma needs_raised_refl (s : Symbol) : needs_raised s s.
Proof. split; [reflexivity|]. unfold needs. repeat constructor; auto. Qed.

Lemma needs_raised_set_need (n : Need) (s : Symbol) :
  needs_raised s (set_need n s).
Proof.
  split; [apply skeleton_set_need|].
  destruct n; unfold needs; cbn; repeat constructor; auto.
Qed.

Lemma needs_raised_trans (s1 s2 s3 : Symbol) :
  needs_raised s1 s2 -> needs_raised s2 s3 -> needs_raised s1 s3.
Proof.
  intros [H1 F1] [H2 F2]. split; [congruence|].
  unfold needs in *.
  repeat match goal with
         | H : Forall2 _ (_ :: _) (_ :: _) |- _ =>
             apply Forall2_cons in H; destruct H
         end.
  repeat constructor; auto.
Qed.

Lemma state_raised_refl (st : FileState) : state_raised st st.
Proof.
  split; [|auto]. apply Forall_Forall2_diag, Forall_forall.
  intros s _. apply needs_raised_refl.
Qed.

Lemma state_raised_trans (st1 st2 st3 : FileState) :
  state_raised st1 st2 -> state_raised st2 st3 -> state_raised st1 st3.
Proof.
  intros [F1 E1] [F2 E2]. split; [|auto].
  revert F1 F2. generalize (symbols st1) (symbols st2) (symbols st3).
  intros l1 l2 l3 F1. revert l3.
  induction F1 as [|x y l1 l2 Hxy F1 IH]; intros l3 F2.
  - inversion F2. constructor.
  - inversion F2 as [|? z ? l3' Hyz F2']; subst.
    constructor; [eapply needs_raised_trans; eauto | now apply IH].
Qed.

Lemma state_raised_action (st : FileState) (a : ScanAction) :
  state_raised st (apply_action st a).
Proof.
  destruct a as [|idx n]; cbn.
  - split; [|auto]. apply (state_raised_refl st).
  - destruct (symbols st !! idx) as [s|] eqn:Hs; [|apply state_raised_refl].
    split; [|auto]. cbn.
    rewrite <- (list_insert_id (symbols st) idx s Hs) at 1.
    apply Forall2_insert; [apply (state_raised_refl st) | apply needs_raised_set_need].
Qed.

(** One iteration only sets need-flags and [has_error]. *)
Lemma scan_body_raises (i : nat) (st : FileState) :
  state_raised st (snd (result_state (scan_body isec i st))).
Proof.
  unfold scan_body, scan_tls.
  destruct (rels isec !! i) as [rel|]; [|apply state_raised_refl].
  destruct (symbols st !! r_sym rel) as [sym|] eqn:Hs; [|apply state_raised_refl].
  pose proof (fun n => state_raised_action st (Raise (r_sym rel) n)) as Hr.
  cbn in Hr. rewrite Hs in Hr.
  destruct (unresolved sym); [apply (state_raised_action st SetError)|].
  destruct (rel_kind (r_type rel));
    repeat match goal with
           | |- context [if ?b then _ else _] => destruct b
           | |- context [match ?o with Some _ => _ | None => _ end] => destruct o
           end;
    cbn [result_state snd];
    first [ apply state_raised_refl
          | apply (Hr NeedGot) | apply (Hr NeedPlt) | apply (Hr NeedCopyrel)
          | apply (Hr NeedTlsgd) | apply (Hr NeedTlsld) | apply (Hr NeedGottpoff) ].
Qed.

Lemma scan_loop_raises (fuel : nat) :
  forall (i : nat) (st : FileState) (r : result FileState),
    scan_loop fuel isec i st = Some r ->
    state_raised st (result_state r).
Proof.
  induction fuel as [|fuel IH]; intros i st r; cbn [scan_loop];
    destruct (Nat.leb_spec (length (rels isec)) i);
    try (intros [= <-]; apply state_raised_refl); try discriminate.
  pose proof (scan_body_raises i st) as Hb.
  destruct (scan_body isec i st) as [[i' st1] | msg x | x | v x];
    cbn [result_state snd result_map] in *.
  - intros Hrest. eapply state_raised_trans; [exact Hb | eapply IH; eauto].
  - intros [= <-]. exact Hb.
  - intros [= <-]. exact Hb.
  - intros [= <-]. exact Hb.
Qed.

End ScanRaises.

(** X5.  [scan_relocations] returns, and however the run ends, it has
    only set flags: the file has as many symbols as before, every symbol
    is as it was but for need-flags that were clear and are now set, and
    [has_error] is still set if it was. *)
Theorem scan_relocations_raises (isec : InputSection) (st : FileState) :
  exists r : result FileState,
    scan_relocations isec st = Some r /\
    state_raised st (result_state r).
Proof.
  destruct (scan_relocations_total isec st) as [r Hr]. exists r.
  split; [exact Hr|]. unfold scan_relocations in Hr.
  destruct (negb _); [injection Hr as <-; apply state_raised_refl|].
  eapply scan_loop_raises; eauto.
Qed.

(** X4.  The TLS cases of the scanner, for a relocation the loop
    dispatches on whose symbol is resolved.  A TLSGD or TLSLD whose
    successor in [rels] is not a PLT32 fails the assertion; with a PLT32
    after it, an imported symbol gets [needs_tlsgd] (resp. [needs_tlsld])
    and the loop goes on with the PLT32, while for a symbol that is not
    imported nothing is set and the PLT32 is skipped.  GOTTPOFF sets
    [needs_gottpoff]; NONE, TPOFF32, TPOFF64, DTPOFF32 and DTPOFF64 change
    nothing; a type with no case is the fatal error "unknown
    relocation". *)
Theorem scan_body_tls_flags (isec : InputSection) (i : nat) (st : FileState)
  (rel : ElfRela) (sym : Symbol) :
  rels isec !! i = Some rel ->
  symbols st !! r_sym rel = Some sym ->
  unresolved sym = false ->
  (forall next : ElfRela,
     r_type rel ∈ tls_pair_relocs ->
     rels isec !! S i = Some next ->
     let set_flag :=
       if r_type rel =? R_X86_64_TLSGD then set_needs_tlsgd else set_needs_tlsld in
     scan_body isec i st =
       if negb (r_type next =? R_X86_64_PLT32) then AssertFailed (i, st)
       else if is_imported sym
            then Done (i, update_symbol st (r_sym rel) (set_flag sym))
            else Done (S i, st)) /\
  (r_type rel = R_X86_64_GOTTPOFF ->
   scan_body isec i st =
     Done (i, update_symbol st (r_sym rel) (set_needs_gottpoff sym))) /\
  (r_type rel ∈ [R_X86_64_NONE; R_X86_64_TPOFF32; R_X86_64_TPOFF64;
                 R_X86_64_DTPOFF32; R_X86_64_DTPOFF64] ->
   scan_body isec i st = Done (i, st)) /\
  (r_type rel ∉ known_relocs ->
   scan_body isec i st = Fatal (unknown_relocation isec (r_type rel)) (i, st)).
Proof.
  intros Hrel Hsym Hres. unfold scan_body. rewrite Hrel, Hsym, Hres.
  repeat split.
  - intros next Hty Hnext. unfold tls_pair_relocs in Hty.
    repeat (apply elem_of_cons in Hty as [-> | Hty];
            [cbn; unfold scan_tls; rewrite Hnext; reflexivity|]).
    inversion Hty.
  - now intros ->.
  - intros Hty.
    repeat (apply elem_of_cons in Hty as [-> | Hty]; [reflexivity|]).
    inversion Hty.
  - intros Hty. now rewrite (rel_kind_default _ Hty).
Qed.

(** The TLSGD of the TLS sample: its symbol is not imported, and the
    PLT32 after it is skipped. *)
Lemma scan_body_tls_flags_witness :
  scan_body tls_scan_isec 0 tls_scan_state = Done (1%nat, tls_scan_state).
Proof.
  apply (proj1 (scan_body_tls_flags tls_scan_isec 0 tls_scan_state
                  (mkRela 4 R_X86_64_TLSGD 0 (-4))
                  (sample_symbol (Some 1%nat) false false 6 16)
                  eq_refl eq_refl eq_refl)
               (mkRela 12 R_X86_64_PLT32 1 (-4))).
  - unfold tls_pair_relocs. cbn [r_type]. left.
  - reflexivity.
Defined.

Section Report.

Variable isec : InputSection.
Variable sym_name : nat -> string.

(** The lines of one relocation. *)
Lemma report_loop_spec (syms : list Symbol) (rs : list ElfRela) :
  Forall (fun rel => (r_sym rel < length syms)%nat) rs ->
  forall cerr : list string,
    exists lines : list string,
      report_loop isec syms sym_name rs cerr = Done (cerr ++ lines) /\
      forall rel sym,
        rel ∈ rs -> syms !! r_sym rel = Some sym -> unresolved sym = true ->
        undefined_symbol_line isec (sym_name (r_sym rel)) ∈ lines.
Proof.
  induction 1 as [|rel rs Hlt Hrs IH]; intros cerr.
  - exists []. split; [cbn; now rewrite app_nil_r|].
    intros rel sym Hin. inversion Hin.
  - cbn [report_loop].
    destruct (lookup_lt_is_Some_2 syms (r_sym rel) Hlt) as [sym Hsym].
    rewrite Hsym.
    destruct (unresolved sym) eqn:Hun.
    + destruct (IH (cerr ++ [undefined_symbol_line isec (sym_name (r_sym rel))]))
        as (lines & Hl & Hin).
      exists (undefined_symbol_line isec (sym_name (r_sym rel)) :: lines).
      split; [rewrite Hl; now rewrite <- app_assoc|].
      intros rel' sym' Hrel' Hsym' Hun'.
      apply elem_of_cons in Hrel' as [-> | Hrel']; [left | right; eauto].
    + destruct (IH cerr) as (lines & Hl & Hin).
      exists lines. split; [exact Hl|].
      intros rel' sym' Hrel' Hsym' Hun'.
      apply elem_of_cons in Hrel' as [-> | Hrel']; [congruence | eauto].
Qed.

(** When the loop sets [has_error], it is at a relocation whose symbol is
    unresolved. *)
Lemma scan_loop_error (fuel : nat) :
  forall (i : nat) (st st' : FileState),
    scan_loop fuel isec i st = Some (Done st') ->
    has_error st = false -> has_error st' = true ->
    exists rel sym,
      rel ∈ rels isec /\ symbols st !! r_sym rel = Some sym /\
      unresolved sym = true.
Proof.
  induction fuel as [|fuel IH]; intros i st st'; cbn [scan_loop];
    destruct (Nat.leb_spec (length (rels isec)) i) as [|Hlt];
    try (intros [= <-]; congruence); try discriminate.
  destruct (scan_body isec i st) as [[i' st1] | | |] eqn:E; try discriminate.
  intros Hrest He He'.
  destruct (has_error st1) eqn:He1.
  - clear IH Hrest. unfold scan_body, scan_tls in E.
    destruct (rels isec !! i) as [rel|] eqn:Hrel; [|discriminate].
    destruct (symbols st !! r_sym rel) as [sym|] eqn:Hsym; [|discriminate].
    destruct (unresolved sym) eqn:Hun.
    + exists rel, sym. repeat split; try assumption.
      eapply list_elem_of_lookup_2; eauto.
    + exfalso.
      destruct (rel_kind (r_type rel));
        repeat match type of E with
               | context [if ?b then _ else _] => destruct b
               | context [match ?o with Some _ => _ | None => _ end] => destruct o
               end;
        try discriminate; injection E as _ <-; cbn in He1; congruence.
  - destruct (IH _ _ _ Hrest He1 He') as (rel & sym1 & Hin & Hs1 & Hun1).
    destruct (scan_body_actions isec i i' st st1 E) as [acts Ha].
    pose proof (Ha st (same_skeleton_refl st)) as E'. rewrite E in E'.
    injection E' as ->.
    destruct (same_skeleton_lookup _ st _ _
                (same_skeleton_sym _ _ (same_skeleton_actions acts st)) Hs1)
      as (sym & Hs & Hsk).
    exists rel, sym. repeat split; try assumption.
    rewrite (proj1 (skeleton_reads _ _ Hsk)). exact Hun1.
Qed.

End Report.

(** X8.  An error the scanner flags is an error the report names: if
    [scan_relocations] returns with [has_error] set where it was clear,
    and every relocation of the section refers to a symbol of the file,
    then [report_undefined_symbols], run on the symbols as the scan left
    them, returns and has written the line "undefined symbol: <file>:
    <name>" of one of the section's relocations. *)
Theorem scan_error_reported (isec : InputSection) (st st' : FileState)
  (sym_name : nat -> string) :
  scan_relocations isec st = Some (Done st') ->
  has_error st = false ->
  has_error st' = true ->
  Forall (fun rel => (r_sym rel < length (symbols st))%nat) (rels isec) ->
  exists (rel : ElfRela) (lines : list string),
    rel ∈ rels isec /\
    report_undefined_symbols isec (symbols st') sym_name [] = Done lines /\
    undefined_symbol_line isec (sym_name (r_sym rel)) ∈ lines.
Proof.
  intros Hscan He He' Hrange.
  destruct (scan_relocations_actions _ _ _ Hscan) as (acts & Hst' & _).
  pose proof (same_skeleton_actions acts st) as Hsk. rewrite <- Hst' in Hsk.
  unfold scan_relocations in Hscan. unfold report_undefined_symbols.
  destruct (negb (has_flag (isec_shdr isec) SHF_ALLOC)).
  { injection Hscan as <-. congruence. }
  destruct (scan_loop_error isec _ _ _ _ Hscan He He') as (rel & sym & Hin & Hs & Hun).
  destruct (same_skeleton_lookup _ _ _ _ Hsk Hs) as (sym' & Hs' & Hsk').
  assert (Hlen : length (symbols st') = length (symbols st)).
  { unfold same_skeleton in Hsk. apply (f_equal length) in Hsk.
    rewrite !length_map in Hsk. congruence. }
  rewrite <- Hlen in Hrange.
  destruct (report_loop_spec isec sym_name (symbols st') (rels isec) Hrange [])
    as (lines & Hl & Hlines).
  exists rel, lines. split; [exact Hin|]. split; [exact Hl|].
  apply (Hlines rel sym' Hin Hs').
  rewrite (proj1 (skeleton_reads _ _ Hsk')). exact Hun.
Qed.

(** The section with a trailing TLSGD of an undefined symbol. *)
Lemma scan_error_reported_witness :
  exists (rel : ElfRela) (lines : list string),
    rel ∈ rels trailing_tls_isec /\
    report_undefined_symbols trailing_tls_isec
      (symbols (set_has_error undefined_state)) (fun _ => "foo") [] = Done lines /\
    undefined_symbol_line trailing_tls_isec "foo" ∈ lines.
Proof.
  apply (scan_error_reported trailing_tls_isec undefined_state
           (set_has_error undefined_state) (fun _ => "foo")
           eq_refl eq_refl eq_refl).
  repeat constructor.
Defined.

(** ** The file cache *)

Section Cache.

Context {T : Type}.

Lemma cache_at_store (mb : MemoryMappedFile) (obj : T) (cache : FileCache T)
  (k : Key) :
  cache_at (store mb obj cache) k =
  if decide (cache_key mb = k) then cache_at cache k ++ [obj] else cache_at cache k.
Proof.
  unfold cache_at, store. destruct (decide (cache_key mb = k)) as [<-|Hne].
  - now rewrite lookup_insert_eq.
  - now rewrite lookup_insert_ne.
Qed.

Lemma cache_at_stores (stores : list (MemoryMappedFile * T)) (k : Key) :
  forall cache : FileCache T,
    cache_at (fold_left (fun c s => store (fst s) (snd s) c) stores cache) k =
    cache_at cache k ++
    map snd (filter (fun s => bool_decide (cache_key (fst s) = k)) stores).
Proof.
  induction stores as [|[mb obj] stores IH]; intros cache; cbn [fold_left].
  - cbn. now rewrite app_nil_r.
  - rewrite IH, cache_at_store. cbn [fst snd].
    rewrite filter_cons. cbn [fst].
    destruct (decide (cache_key mb = k)) as [E|E].
    + rewrite decide_True by (now apply bool_decide_pack).
      cbn. now rewrite <- app_assoc.
    + rewrite decide_False; [reflexivity|].
      intros H. now apply bool_decide_unpack in H.
Qed.

End Cache.

(** X9.  What [get] returns for a file is exactly the objects that were
    stored under files of the same name, size and modification time, in
    the order they were stored, after the objects the cache already held
    for them; stores under other keys do not show. *)
Theorem file_cache_get_stored {T : Type} (stores : list (MemoryMappedFile * T))
  (mb : MemoryMappedFile) (cache : FileCache T) :
  fst (get mb (fold_left (fun c s => store (fst s) (snd s) c) stores cache)) =
  cache_at cache (cache_key mb) ++
  map snd (filter (fun s => bool_decide (cache_key (fst s) = cache_key mb)) stores).
Proof. unfold get. cbn [fst]. apply cache_at_stores. Qed.

(** X10.  [get] and [get_one] consume the entry of the file: [get_one]
    returns the object stored first, or null when there is none, and
    after either call a [get] for a file of the same name, size and
    modification time returns nothing, so that the objects [get_one] did
    not return are dropped; the entries of other files are as before. *)
Theorem file_cache_get_consumes {T : Type} (mb mb' : MemoryMappedFile)
  (cache : FileCache T) :
  fst (get_one mb cache) = head (fst (get mb cache)) /\
  snd (get_one mb cache) = snd (get mb cache) /\
  fst (get mb' (snd (get mb cache))) =
    if decide (cache_key mb' = cache_key mb) then []
    else fst (get mb' cache).
Proof.
  unfold get_one, get. cbn [fst snd]. repeat split.
  unfold cache_at. destruct (decide (cache_key mb' = cache_key mb)) as [->|Hne].
  - now rewrite lookup_insert_eq.
  - now rewrite lookup_insert_ne.
Qed.

(** ** File types *)

Section FileTypes.

Variable mb : MemoryMappedFile.

Lemma has_magic_first (magic : list Z) (b : Z) (rest : list Z) :
  magic = b :: rest -> has_magic mb magic = true -> mb_byte mb 0 = b.
Proof.
  intros -> H. unfold has_magic in H. apply bool_decide_eq_true_1 in H.
  unfold mb_byte. destruct (mb_data mb); cbn in H; [discriminate|].
  now injection H as -> _.
Qed.

Lemma is_text_file_first : is_text_file mb = true -> isprint (mb_byte mb 0) = true.
Proof.
  unfold is_text_file. intros H.
  repeat (apply andb_prop in H as [H ?]). assumption.
Qed.

End FileTypes.

(** X11.  A file that begins with the ELF magic is an object file when
    it has 20 bytes at least and its [e_type] is ET_REL, a shared object
    when its [e_type] is ET_DYN, and of unknown type otherwise: an ELF
    file of another type (an executable, a core file) and a file cut off
    before its twentieth byte are never taken as an archive or as a
    linker script. *)
Theorem get_file_type_elf (mb : MemoryMappedFile) :
  take 4 (mb_data mb) = elf_magic ->
  get_file_type mb =
    if 20 <=? mb_size mb then
      if e_type mb =? ET_REL then OBJ
      else if e_type mb =? ET_DYN then DSO
      else UNKNOWN
    else UNKNOWN.
Proof.
  intros Hm. unfold get_file_type.
  assert (Helf : has_magic mb elf_magic = true) by (now apply bool_decide_eq_true_2).
  rewrite Helf.
  destruct (20 <=? mb_size mb); cbn [andb]; [reflexivity|].
  pose proof (has_magic_first mb elf_magic 127 _ eq_refl Helf) as H0.
  destruct (has_magic mb ar_magic) eqn:Har.
  { pose proof (has_magic_first mb ar_magic 33 _ eq_refl Har). lia. }
  destruct (has_magic mb thin_ar_magic) eqn:Hthin.
  { pose proof (has_magic_first mb thin_ar_magic 33 _ eq_refl Hthin). lia. }
  rewrite !andb_false_r.
  destruct (is_text_file mb) eqn:Ht; [|reflexivity].
  apply is_text_file_first in Ht. rewrite H0 in Ht. discriminate.
Qed.

(** A relocatable object of 64 bytes. *)
Lemma get_file_type_elf_witness : get_file_type elf_object = OBJ.
Proof. apply (get_file_type_elf elf_object eq_refl). Defined.

(** X12.  A file is taken as a linker script exactly when it has four
    bytes at least, its first four bytes are printable characters, and it
    does not begin with one of the two archive magics; in particular a
    file of fewer than four bytes, such as an empty file, is of unknown
    type. *)
Theorem get_file_type_text (mb : MemoryMappedFile) :
  (get_file_type mb = TEXT <->
     4 <= mb_size mb /\
     Forall (fun i => isprint (mb_byte mb i) = true) [0; 1; 2; 3]%nat /\
     take 8 (mb_data mb) <> ar_magic /\
     take 8 (mb_data mb) <> thin_ar_magic) /\
  (mb_size mb < 4 -> get_file_type mb = UNKNOWN).
Proof.
  assert (Htext : is_text_file mb = true <->
            4 <= mb_size mb /\
            Forall (fun i => isprint (mb_byte mb i) = true) [0; 1; 2; 3]%nat).
  { unfold is_text_file. rewrite !andb_true_iff, Z.leb_le.
    rewrite !Forall_cons, Forall_nil. tauto. }
  assert (Hlen : forall magic : list Z,
            length magic = 8%nat -> has_magic mb magic = true -> 8 <= mb_size mb).
  { intros magic Hl H. apply bool_decide_eq_true_1 in H.
    apply (f_equal length) in H. rewrite length_take, Hl in H.
    unfold mb_size. lia. }
  unfold get_file_type.
  destruct ((20 <=? mb_size mb) && has_magic mb elf_magic) eqn:Helf.
  { apply andb_prop in Helf as [Hsz Helf]. apply Z.leb_le in Hsz.
    pose proof (has_magic_first mb elf_magic 127 _ eq_refl Helf) as H0.
    split; [|lia]. split.
    - destruct (e_type mb =? ET_REL), (e_type mb =? ET_DYN); discriminate.
    - intros (_ & Hp & _). apply Forall_cons in Hp as [Hp _].
      rewrite H0 in Hp. discriminate. }
  destruct (has_magic mb ar_magic) eqn:Har.
  { pose proof (Hlen ar_magic eq_refl Har) as H8.
    destruct (Z.leb_spec 8 (mb_size mb)); [|lia]. cbn [andb].
    split; [|lia]. split; [discriminate|].
    intros (_ & _ & Hn & _). apply bool_decide_eq_true_1 in Har. contradiction. }
  rewrite andb_false_r.
  destruct (has_magic mb thin_ar_magic) eqn:Hthin.
  { pose proof (Hlen thin_ar_magic eq_refl Hthin) as H8.
    destruct (Z.leb_spec 8 (mb_size mb)); [|lia]. cbn [andb].
    split; [|lia]. split; [discriminate|].
    intros (_ & _ & _ & Hn). apply bool_decide_eq_true_1 in Hthin. contradiction. }
  rewrite andb_false_r.
  apply bool_decide_eq_false in Har, Hthin.
  destruct (is_text_file mb) eqn:Ht.
  - destruct (proj1 Htext eq_refl) as [H1 H2].
    split; [|intros Hsz; lia]. split; [auto | reflexivity].
  - split; [|reflexivity]. split; [discriminate|].
    intros (H1 & H2 & _). discriminate (proj2 Htext (conj H1 H2)).
Qed.

(** ** Library search *)

Section FindLibraryFacts.

Variable open : string -> option MemoryMappedFile.
Variable sysroot : string.
Variable is_static : bool.
Variable name : string.

Lemma find_library_loop_spec (lib_paths : list string) :
  match find_library_loop open sysroot is_static name lib_paths with
  | Some mb =>
      exists pre path post,
        library_candidates sysroot is_static name lib_paths = pre ++ path :: post /\
        Forall (fun p => open p = None) pre /\ open path = Some mb
  | None =>
      Forall (fun p => open p = None)
             (library_candidates sysroot is_static name lib_paths)
  end.
Proof.
  induction lib_paths as [|dir rest IH]; cbn [find_library_loop]; [constructor|].
  unfold library_candidates. cbn [flat_map].
  fold (library_candidates sysroot is_static name rest).
  set (stem := library_stem sysroot name dir).
  destruct is_static; cbn [negb].
  - destruct (open (stem +:+ ".a")) as [mb|] eqn:Ha.
    + exists [], (stem +:+ ".a"), (library_candidates sysroot true name rest).
      repeat split; [constructor | exact Ha].
    + destruct (find_library_loop open sysroot true name rest) as [mb|].
      * destruct IH as (pre & path & post & -> & Hpre & Hp).
        exists ((stem +:+ ".a") :: pre), path, post.
        repeat split; [constructor; assumption | exact Hp].
      * constructor; assumption.
  - destruct (open (stem +:+ ".so")) as [mb|] eqn:Hso.
    + exists [], (stem +:+ ".so"),
        ((stem +:+ ".a") :: library_candidates sysroot false name rest).
      repeat split; [constructor | exact Hso].
    + destruct (open (stem +:+ ".a")) as [mb|] eqn:Ha.
      * exists [stem +:+ ".so"], (stem +:+ ".a"),
          (library_candidates sysroot false name rest).
        repeat split; [repeat constructor; assumption | exact Ha].
      * destruct (find_library_loop open sysroot false name rest) as [mb|].
        -- destruct IH as (pre & path & post & -> & Hpre & Hp).
           exists ((stem +:+ ".so") :: (stem +:+ ".a") :: pre), path, post.
           repeat split; [repeat constructor; assumption | exact Hp].
        -- repeat constructor; assumption.
Qed.

End FindLibraryFacts.

(** X13.  [find_library] returns the first file that can be opened among
    the candidates in search order: for each directory of the search path
    in turn, [lib<name>.so] unless the link is static, then
    [lib<name>.a], each under the sysroot when the directory is absolute.
    A static library in an earlier directory therefore wins over a shared
    one in a later directory.  When no candidate can be opened the call
    is the fatal error "library not found: <name>". *)
Theorem find_library_first_candidate (open : string -> option MemoryMappedFile)
  (sysroot : string) (is_static : bool) (name : string) (lib_paths : list string) :
  match find_library open sysroot is_static name lib_paths with
  | Returns mb =>
      exists pre path post,
        library_candidates sysroot is_static name lib_paths = pre ++ path :: post /\
        Forall (fun p => open p = None) pre /\ open path = Some mb
  | Exits msg =>
      msg = "library not found: " +:+ name /\
      Forall (fun p => open p = None)
             (library_candidates sysroot is_static name lib_paths)
  | Aborts | Undefined => False
  end.
Proof.
  unfold find_library.
  pose proof (find_library_loop_spec open sysroot is_static name lib_paths) as H.
  destruct (find_library_loop open sysroot is_static name lib_paths); auto.
Qed.

(** The candidates for [-lc] with the search path [/usr/lib], [lib] and
    the sysroot [/sys]. *)
Example library_candidates_sample :
  library_candidates "/sys" false "c" ["/usr/lib"; "lib"] =
    [ "/sys/usr/lib/libc.so"; "/sys/usr/lib/libc.a"; "lib/libc.so"; "lib/libc.a" ] /\
  library_candidates "/sys" true "c" ["/usr/lib"; "lib"] =
    [ "/sys/usr/lib/libc.a"; "lib/libc.a" ].
Proof. split; reflexivity. Qed.

(** ** Unique sonames *)

Section Uniquify.

Lemma uniquify_loop_spec (dsos : list SharedFile) :
  forall seen : gset string,
    let kept := uniquify_loop seen dsos in
    NoDup (map soname kept) /\
    Forall (fun f => soname f ∉ seen) kept /\
    sublist kept dsos /\
    (forall f, f ∈ dsos -> soname f ∉ seen ->
       exists g pre post,
         dsos = pre ++ g :: post /\ g ∈ kept /\ soname g = soname f /\
         Forall (fun h => soname h <> soname f) pre).
Proof.
  induction dsos as [|file rest IH]; intros seen; cbn [uniquify_loop].
  - cbn. repeat split; try constructor. intros f Hf. inversion Hf.
  - destruct (decide (soname file ∈ seen)) as [Hin|Hnin].
    + destruct (IH seen) as (Hnd & Hseen & Hsub & Hfirst). cbv zeta.
      repeat split; [assumption | assumption | now apply sublist_cons |].
      intros f Hf Hfs. apply elem_of_cons in Hf as [-> | Hf]; [contradiction|].
      destruct (Hfirst f Hf Hfs) as (g & pre & post & -> & Hg & Heq & Hpre).
      exists g, (file :: pre), post. repeat split; try assumption.
      constructor; [|assumption]. intros E. rewrite E in Hin. contradiction.
    + destruct (IH ({[soname file]} ∪ seen)) as (Hnd & Hseen & Hsub & Hfirst).
      cbv zeta. repeat split.
      * cbn [map]. constructor; [|assumption].
        intros Hin. apply list_elem_of_fmap in Hin as (g & Hg & Hgin).
        rewrite Forall_forall in Hseen. apply (Hseen g Hgin).
        rewrite <- Hg. apply elem_of_union_l. now apply elem_of_singleton.
      * constructor; [assumption|].
        eapply Forall_impl; [exact Hseen|]. cbn. intros g Hg Hs.
        apply Hg. now apply elem_of_union_r.
      * now apply sublist_skip.
      * intros f Hf Hfs.
        destruct (decide (soname f = soname file)) as [E|E].
        -- exists file, [], rest. repeat split; [left | now symmetry | constructor].
        -- apply elem_of_cons in Hf as [-> | Hf]; [congruence|].
           assert (Hfs' : soname f ∉ {[soname file]} ∪ seen).
           { intros [H%elem_of_singleton|H]%elem_of_union; [congruence | contradiction]. }
           destruct (Hfirst f Hf Hfs') as (g & pre & post & -> & Hg & Heq & Hpre).
           exists g, (file :: pre), post. repeat split; try assumption.
           ++ now right.
           ++ constructor; [congruence | assumption].
Qed.

End Uniquify.

(** X14.  The shared objects [main] keeps have pairwise different
    sonames; they are the given ones in the given order with some left
    out; and for every given shared object the first one with its soname
    on the command line is kept. *)
Theorem uniquify_dsos_first (dsos : list SharedFile) :
  let kept := uniquify_dsos dsos in
  NoDup (map soname kept) /\
  sublist kept dsos /\
  (forall f, f ∈ dsos ->
     exists g pre post,
       dsos = pre ++ g :: post /\ g ∈ kept /\ soname g = soname f /\
       Forall (fun h => soname h <> soname f) pre).
Proof.
  destruct (uniquify_loop_spec dsos ∅) as (Hnd & _ & Hsub & Hfirst).
  cbv zeta. repeat split; try assumption.
  intros f Hf. apply (Hfirst f Hf). apply not_elem_of_empty.
Qed.

(** ** File priorities *)

Section Priorities.

Context {F : Type}.
Variable selected : F -> bool.
Variable set_priority : Z -> F -> F.

Lemma count_selected_nonneg (files : list F) : 0 <= count_selected selected files.
Proof. unfold count_selected. lia. Qed.



Lemma count_selected_app (l1 l2 : list F) :
  count_selected selected (l1 ++ l2) =
  count_selected selected l1 + count_selected selected l2.
Proof.
  unfold count_selected. rewrite List.filter_app, length_app. lia.
Qed.



Lemma count_selected_take_all (files : list F) (i : nat) :
  count_selected selected (take i files) <= count_selected selected files.
Proof.
  rewrite <- (take_drop i files) at 2. rewrite count_selected_app.
  pose proof (count_selected_nonneg (drop i files)). lia.
Qed.



End Priorities.







(** ** The slices of [split] *)

Section Slices.

Context {T : Type}.




End Slices.



(** ** The pieces of a mergeable section *)

Section PieceOffsets.

Lemma concat_lookup_split (strs : list (list Z)) (i : nat) (s : list Z) :
  strs !! i = Some s ->
  concat strs = concat (take i strs) ++ s ++ concat (drop (S i) strs).
Proof.
  intros H. rewrite <- (take_drop_middle strs i s H) at 1.
  now rewrite concat_app.
Qed.

Lemma u32_small_nat (n : nat) : Z.of_nat n < 2 ^ 32 -> u32 (Z.of_nat n) = Z.of_nat n.
Proof. intros H. unfold u32. apply Z.mod_small. lia. Qed.

End PieceOffsets.

(** X17.  The constructor of a mergeable section returns or stops with
    its fatal error; either way, for a payload of fewer than 2^32 bytes,
    every piece it has recorded is the bytes of the payload at the
    recorded offset, and is interned in the parent's map, from which
    nothing was removed. *)
Theorem mergeable_section_offsets (file_str name : string) (map0 : gset (list Z))
  (data : list Z) :
  Z.of_nat (length data) < 2 ^ 32 ->
  exists r : result MergeablePieces,
    new_MergeableSection file_str name map0 data = Some r /\
    map0 ⊆ parent_map (result_state r) /\
    forall (s : list Z) (off : Z),
      (s, off) ∈ pieces (result_state r) ->
      0 <= off /\
      take (length s) (drop (Z.to_nat off) data) = s /\
      s ∈ parent_map (result_state r).
Proof.
  intros Hlen.
  destruct (payload_decompose data) as (strs & tail & -> & Hstrs & Htail).
  unfold new_MergeableSection.
  rewrite (split_pieces_spec _ tail strs Hstrs Htail) by lia.
  cbv zeta. cbn [pieces parent_map app].
  set (st' := mkMergeablePieces (zip strs (piece_offsets 0 strs))
                                (list_to_set strs ∪ map0)).
  exists (match tail with
          | [] => Done st'
          | _ :: _ =>
              Fatal (to_string_chunk file_str name +:+ ": string is not null terminated") st'
          end).
  split; [reflexivity|].
  assert (Hst : result_state
                  (match tail with
                   | [] => Done st'
                   | _ :: _ =>
                       Fatal (to_string_chunk file_str name
                                +:+ ": string is not null terminated") st'
                   end) = st') by (now destruct tail).
  rewrite Hst. cbn [st' pieces parent_map]. split; [apply union_subseteq_r|].
  intros s off Hin.
  apply list_elem_of_lookup in Hin as [i Hi].
  apply lookup_zip_with_Some in Hi as (s' & off' & [= <- <-] & Hs & Hoff).
  assert (Hpos : off = Z.of_nat (length (concat (take i strs)))).
  { destruct (piece_offsets_position strs 0 i off Hoff) as [-> | [-> ->]];
      [|reflexivity].
    rewrite Z.add_0_l. apply u32_small_nat.
    rewrite (concat_lookup_split strs i s Hs) in Hlen.
    rewrite !length_app in Hlen. lia. }
  split; [lia|]. split.
  - rewrite Hpos, Nat2Z.id.
    rewrite (concat_lookup_split strs i s Hs), <- !app_assoc.
    rewrite drop_app_length. apply take_app_length.
  - apply elem_of_union_l, elem_of_list_to_set.
    eapply list_elem_of_lookup_2; eauto.
Qed.


(** The payload "hi\0w\0". *)
Lemma mergeable_section_offsets_witness :
  exists r : result MergeablePieces,
    new_MergeableSection "a.o" ".rodata.str1.1" ∅ [104; 105; 0; 119; 0] = Some r /\
    ∅ ⊆ parent_map (result_state r) /\
    forall (s : list Z) (off : Z),
      (s, off) ∈ pieces (result_state r) ->
      0 <= off /\
      take (length s) (drop (Z.to_nat off) [104; 105; 0; 119; 0]) = s /\
      s ∈ parent_map (result_state r).
Proof.
  apply (mergeable_section_offsets "a.o" ".rodata.str1.1" ∅ [104; 105; 0; 119; 0]).
  reflexivity.
Defined.

(** ** Binning *)

Section Binning.

Context {File Isec : Type}.
Variable sections : File -> list (option Isec).
Variable idx : Isec -> nat.
Variable n : nat.

Lemma bucket_app (j : nat) (l1 l2 : list Isec) :
  bucket idx j (l1 ++ l2) = bucket idx j l1 ++ bucket idx j l2.
Proof. apply filter_app. Qed.

Lemma all_in_range_app (l1 l2 : list Isec) :
  all_in_range idx n (l1 ++ l2) = all_in_range idx n l1 && all_in_range idx n l2.
Proof. apply forallb_app. Qed.

Lemma bin_file_spec (secs : list (option Isec)) :
  forall group : list (list Isec),
    length group = n ->
    bin_file idx secs group =
      if all_in_range idx n (omap id secs)
      then Returns (imap (fun j v => v ++ bucket idx j (omap id secs)) group)
      else Undefined.
Proof.
  induction secs as [|[isec|] secs IH]; intros group Hlen.
  - cbn. f_equal. apply list_eq. intros j. rewrite list_lookup_imap.
    destruct (group !! j); cbn; [now rewrite app_nil_r | reflexivity].
  - change (omap id (Some isec :: secs)) with (isec :: omap id secs).
    cbn [bin_file]. unfold push_member.
    cbn [all_in_range forallb]. fold (all_in_range idx n (omap id secs)).
    destruct (Nat.ltb_spec (idx isec) n) as [Hlt|Hge].
    + destruct (lookup_lt_is_Some_2 group (idx isec)) as [v Hv]; [lia|].
      rewrite Hv. cbn [andb].
      rewrite (IH (<[idx isec := v ++ [isec]]> group))
        by (now rewrite length_insert).
      destruct (all_in_range idx n (omap id secs)); [|reflexivity].
      f_equal. apply list_eq. intros j. rewrite !list_lookup_imap.
      destruct (decide (j = idx isec)) as [->|Hne].
      * rewrite list_lookup_insert_eq by lia. rewrite Hv.
        cbn [fmap option_fmap option_map]. f_equal.
        unfold bucket. rewrite filter_cons_True by reflexivity.
        now rewrite <- app_assoc.
      * rewrite list_lookup_insert_ne by congruence.
        unfold bucket. now rewrite (filter_cons_False _ isec) by congruence.
    + rewrite (proj2 (lookup_ge_None group (idx isec))) by lia. reflexivity.
  - change (omap id (None :: secs)) with (omap id secs).
    cbn [bin_file]. apply IH. exact Hlen.
Qed.

Lemma present_sections_cons (file : File) (rest : list File) :
  present_sections sections (file :: rest) =
  omap id (sections file) ++ present_sections sections rest.
Proof. reflexivity. Qed.

Lemma present_sections_app (l1 l2 : list File) :
  present_sections sections (l1 ++ l2) =
  present_sections sections l1 ++ present_sections sections l2.
Proof. unfold present_sections. apply flat_map_app. Qed.

Lemma bin_slice_spec (slice : list File) :
  forall group : list (list Isec),
    length group = n ->
    bin_slice sections idx slice group =
      if all_in_range idx n (present_sections sections slice)
      then Returns (imap (fun j v => v ++ bucket idx j (present_sections sections slice))
                         group)
      else Undefined.
Proof.
  induction slice as [|file rest IH]; intros group Hlen.
  - cbn. f_equal. apply list_eq. intros j. rewrite list_lookup_imap.
    destruct (group !! j); cbn; [now rewrite app_nil_r | reflexivity].
  - cbn [bin_slice]. rewrite bin_file_spec by exact Hlen.
    rewrite present_sections_cons, all_in_range_app.
    destruct (all_in_range idx n (omap id (sections file))); [|reflexivity].
    rewrite IH by (now rewrite length_imap). cbn [andb].
    destruct (all_in_range idx n (present_sections sections rest)); [|reflexivity].
    f_equal. apply list_eq. intros j. rewrite !list_lookup_imap.
    destruct (group !! j); cbn; [|reflexivity].
    now rewrite bucket_app, app_assoc.
Qed.

Lemma bin_slices_spec (slices : list (list File)) :
  bin_slices sections idx n slices =
    if all_in_range idx n (present_sections sections (concat slices))
    then Returns (map (slice_group sections idx n) slices)
    else Undefined.
Proof.
  induction slices as [|slice rest IH]; [reflexivity|].
  cbn [bin_slices concat]. rewrite bin_slice_spec by apply length_replicate.
  rewrite present_sections_app, all_in_range_app.
  destruct (all_in_range idx n (present_sections sections slice)); [|reflexivity].
  rewrite IH. cbn [andb].
  destruct (all_in_range idx n (present_sections sections (concat rest))); [|reflexivity].
  f_equal. cbn [map]. f_equal. unfold slice_group.
  apply list_eq. intros j. rewrite list_lookup_imap.
  change (map ?f ?l) with (f <$> l). rewrite list_lookup_fmap.
  destruct (decide (j < n)%nat) as [Hlt|Hge].
  - rewrite lookup_replicate_2, lookup_seq_lt by lia. reflexivity.
  - rewrite !(proj2 (lookup_ge_None _ j))
      by (rewrite ?length_replicate, ?length_seq; lia).
    reflexivity.
Qed.

Lemma append_groups_spec (j : nat) (slices : list (list File)) :
  (j < n)%nat ->
  forall members : list Isec,
    append_groups (map (slice_group sections idx n) slices) j members =
    members ++ bucket idx j (present_sections sections (concat slices)).
Proof.
  intros Hj. unfold append_groups.
  induction slices as [|slice rest IH]; intros members.
  - cbn. now rewrite app_nil_r.
  - cbn [map fold_left concat].
    rewrite IH, present_sections_app, bucket_app, <- app_assoc. f_equal. f_equal.
    unfold slice_group. change (map ?f ?l) with (f <$> l).
    rewrite list_lookup_fmap, lookup_seq_lt by lia. reflexivity.
Qed.

Lemma i64_add_l (a b : Z) : i64 (i64 a + b) = i64 (a + b).
Proof.
  unfold i64. f_equal.
  replace ((a + 2 ^ 63) mod 2 ^ 64 - 2 ^ 63 + b + 2 ^ 63)
    with ((a + 2 ^ 63) mod 2 ^ 64 + b) by lia.
  rewrite Zplus_mod_idemp_l. f_equal. lia.
Qed.

Lemma group_sizes_spec (slices : list (list File)) :
  forall acc : list Isec,
    fold_left
      (fun sizes group =>
         zip_with (fun sz (v : list Isec) => i64 (sz + Z.of_nat (length v)))
                  sizes group)
      (map (slice_group sections idx n) slices)
      (map (fun j => i64 (Z.of_nat (length (bucket idx j acc)))) (seq 0 n)) =
    map (fun j => i64 (Z.of_nat (length
           (bucket idx j (acc ++ present_sections sections (concat slices))))))
        (seq 0 n).
Proof.
  induction slices as [|slice rest IH]; intros acc.
  - cbn. now rewrite app_nil_r.
  - cbn [map fold_left concat].
    rewrite present_sections_app, app_assoc, <- IH. f_equal.
    unfold slice_group.
    change (map ?f ?l) with (f <$> l).
    rewrite zip_with_fmap_l, zip_with_fmap_r, zip_with_diag.
    apply list_fmap_ext. intros _ j _.
    rewrite i64_add_l, bucket_app, length_app, Nat2Z.inj_add. reflexivity.
Qed.

End Binning.

(** X18.  [bin_sections] fails the assertion of [split] when there is no
    object file.  Otherwise, when every section that is not null belongs
    to one of the output sections, it appends to the members of output
    section [j] exactly the sections that belong to it, in the order of
    the files and of their section tables, whatever the number of slices;
    the sizes it reserves are the numbers of sections appended, as [i64].
    When a section has an index past the last output section it indexes
    [groups[i]] out of range. *)
Theorem bin_sections_members {File Isec : Type}
  (sections : File -> list (option Isec)) (idx : Isec -> nat)
  (objs : list File) (instances : list (list Isec)) :
  bin_sections sections idx objs instances =
    match objs with
    | [] => Aborts
    | _ :: _ =>
        let present := present_sections sections objs in
        if forallb (fun isec => (idx isec <? length instances)%nat) present then
          Returns
            (imap (fun j members =>
                     members ++ filter (fun isec => idx isec = j) present)
                  instances,
             map (fun j => i64 (Z.of_nat (length
                    (filter (fun isec => idx isec = j) present))))
                 (seq 0 (length instances)))
        else Undefined
    end.
Proof.
  destruct objs as [|file objs]; [reflexivity|].
  unfold bin_sections. cbv zeta.
  set (slices := split (file :: objs) _).
  assert (Hc : concat slices = file :: objs) by apply split_concat.
  rewrite bin_slices_spec, Hc. unfold all_in_range.
  destruct (forallb _ _); [|reflexivity].
  f_equal. f_equal.
  - apply imap_ext. intros j members Hj.
    rewrite append_groups_spec by (eapply lookup_lt_Some; eauto).
    now rewrite Hc.
  - unfold group_sizes.
    pose proof (group_sizes_spec sections idx (length instances) slices []) as Hs.
    rewrite Hc in Hs. cbn [app] in Hs. unfold bucket in Hs.
    etransitivity; [|exact Hs]. f_equal.
    apply list_eq. intros j.
    change (map ?f ?l) with (f <$> l). rewrite list_lookup_fmap.
    destruct (decide (j < length instances)%nat) as [Hlt|Hge].
    + rewrite lookup_replicate_2, lookup_seq_lt by lia. reflexivity.
    + rewrite !(proj2 (lookup_ge_None _ j))
        by (rewrite ?length_replicate, ?length_seq; lia).
      reflexivity.
Qed.

(** ** The order of the chunks in the file *)

Section FileOrder.

Variable PAGE_SIZE : Z.
Hypothesis page_size_pos : 0 < PAGE_SIZE.

Lemma align_to_bounds (val a : Z) :
  0 <= val -> 0 < a -> val + a <= 2 ^ 63 ->
  val <= align_to (u64 val) a < val + a.
Proof.
  intros Hv Ha Hb. unfold align_to.
  rewrite (u64_small val) by lia.
  pose proof (Z_div_mod_eq_full (val + a - 1) a) as D.
  pose proof (Z.mod_pos_bound (val + a - 1) a Ha) as B.
  set (r := (val + a - 1) / a * a) in *.
  rewrite u64_small by lia. lia.
Qed.

(** One iteration of the loop, when nothing wraps around: the chunk is
    put at or after the running file offset, which moves to the end of its
    bytes. *)
Lemma place_chunk_order (fileoff vaddr : Z) (chunk : OutputChunk) :
  wf_chunk chunk ->
  0 <= fileoff -> 0 <= vaddr ->
  fileoff + osec_weight PAGE_SIZE [chunk] < 2 ^ 63 ->
  vaddr + osec_weight PAGE_SIZE [chunk] < 2 ^ 63 ->
  let r := place_chunk PAGE_SIZE (fileoff, vaddr) chunk in
  fileoff <= sh_offset (shdr (fst r)) /\
  sh_size (shdr (fst r)) = sh_size (shdr chunk) /\
  chunk_file_end (fst r) = fst (snd r) /\
  fst (snd r) <= fileoff + osec_weight PAGE_SIZE [chunk] /\
  0 <= snd (snd r) <= vaddr + osec_weight PAGE_SIZE [chunk].
Proof.
  intros [Hsz Hal] Hf Hv Hbf Hbv. cbn [osec_weight] in Hbf, Hbv.
  unfold place_chunk. cbv zeta. cbn [osec_weight].
  set (a := sh_addralign (shdr chunk)) in *.
  set (sz := sh_size (shdr chunk)) in *.
  (* the address after the page alignment *)
  set (vaddr1 := if starts_new_ptload chunk
                 then i64 (align_to (u64 vaddr) PAGE_SIZE) else vaddr).
  assert (Hv1 : vaddr <= vaddr1 < vaddr + PAGE_SIZE).
  { unfold vaddr1. destruct (starts_new_ptload chunk); [|lia].
    apply (align_to_small vaddr PAGE_SIZE); lia. }
  pose proof (Z.rem_bound_pos vaddr1 PAGE_SIZE ltac:(lia) page_size_pos) as Hrv.
  pose proof (Z.rem_bound_pos fileoff PAGE_SIZE Hf page_size_pos) as Hrf.
  (* the file offset after the rectification *)
  set (fileoff1 :=
         if Z.rem vaddr1 PAGE_SIZE >? Z.rem fileoff PAGE_SIZE then
           i64 (fileoff + (Z.rem vaddr1 PAGE_SIZE - Z.rem fileoff PAGE_SIZE))
         else if Z.rem vaddr1 PAGE_SIZE <? Z.rem fileoff PAGE_SIZE then
           i64 (align_to (u64 fileoff) PAGE_SIZE + Z.rem vaddr1 PAGE_SIZE)
         else fileoff).
  assert (Hf1 : fileoff <= fileoff1 < fileoff + 2 * PAGE_SIZE).
  { unfold fileoff1.
    destruct (Z.gtb_spec (Z.rem vaddr1 PAGE_SIZE) (Z.rem fileoff PAGE_SIZE)).
    - rewrite i64_small by lia. lia.
    - destruct (Z.ltb_spec (Z.rem vaddr1 PAGE_SIZE) (Z.rem fileoff PAGE_SIZE)); [|lia].
      pose proof (align_to_bounds fileoff PAGE_SIZE Hf page_size_pos ltac:(lia)).
      rewrite i64_small by lia. lia. }
  (* the alignment of the chunk *)
  pose proof (align_to_small fileoff1 a ltac:(lia) Hal ltac:(lia)) as [Hf2 _].
  pose proof (align_to_small vaddr1 a ltac:(lia) Hal ltac:(lia)) as [Hv2 _].
  set (fileoff2 := i64 (align_to (u64 fileoff1) a)) in *.
  set (vaddr2 := i64 (align_to (u64 vaddr1) a)) in *.
  rewrite (u64_small fileoff2) by lia.
  set (h := set_sh_offset fileoff2 (shdr chunk)).
  set (h' := if has_flag h SHF_ALLOC then set_sh_addr (u64 vaddr2) h else h).
  assert (Hh : sh_offset h' = fileoff2 /\ sh_size h' = sz /\
               sh_type h' = sh_type (shdr chunk)).
  { unfold h'. destruct (has_flag h SHF_ALLOC); repeat split. }
  destruct Hh as (Hoff & Hsize & Htype).
  cbn [fst snd shdr]. unfold chunk_file_end. cbn [shdr].
  rewrite Hoff, Hsize.
  destruct (sh_type h' =? SHT_NOBITS) eqn:Hbss; cbn [negb andb].
  - repeat split; try lia;
      (destruct (negb (has_flag h' SHF_TLS)); [rewrite i64_small by lia|]; lia).
  - rewrite !i64_small by lia. repeat split; lia.
Qed.

Lemma osec_weight_nonneg (chunks : list OutputChunk) :
  Forall wf_chunk chunks -> 0 <= osec_weight PAGE_SIZE chunks.
Proof.
  induction 1 as [|c rest [Hs Ha] _ IH]; cbn [osec_weight]; lia.
Qed.

Lemma place_chunks_order (chunks : list OutputChunk) :
  Forall wf_chunk chunks ->
  forall fileoff vaddr : Z,
    0 <= fileoff -> 0 <= vaddr ->
    fileoff + osec_weight PAGE_SIZE chunks < 2 ^ 63 ->
    vaddr + osec_weight PAGE_SIZE chunks < 2 ^ 63 ->
    let r := place_chunks PAGE_SIZE (fileoff, vaddr) chunks in
    chunks_in_order fileoff (fst r) (fst (snd r)) /\
    fst (snd r) < 2 ^ 63.
Proof.
  induction 1 as [|chunk rest Hwf Hrest IH]; intros fileoff vaddr Hf Hv Hbf Hbv.
  - cbn [osec_weight place_chunks fst snd chunks_in_order] in *. lia.
  - cbn [place_chunks osec_weight] in *.
    pose proof (osec_weight_nonneg rest Hrest) as Hw.
    destruct (place_chunk_order fileoff vaddr chunk Hwf Hf Hv)
      as (H1 & H2 & H3 & H4 & H5); try (cbn [osec_weight]; lia).
    cbn [osec_weight] in H4, H5. destruct Hwf as [Hsz Hal].
    destruct (place_chunk PAGE_SIZE (fileoff, vaddr) chunk) as [c' [fileoff' vaddr']].
    cbn [fst snd] in *.
    assert (Hf' : 0 <= fileoff').
    { rewrite <- H3. unfold chunk_file_end.
      destruct (sh_type (shdr c') =? SHT_NOBITS); lia. }
    destruct (IH fileoff' vaddr' Hf' ltac:(lia) ltac:(lia) ltac:(lia)) as [Ho Hb].
    destruct (place_chunks PAGE_SIZE (fileoff', vaddr') rest) as [rest' [fo va]].
    cbn [fst snd chunks_in_order] in *.
    rewrite H3. repeat split; (assumption || lia).
Qed.

End FileOrder.

Section Padding.

Lemma chunk_file_end_ge (c : OutputChunk) :
  0 <= sh_size (shdr c) -> sh_offset (shdr c) <= chunk_file_end c.
Proof. unfold chunk_file_end. destruct (_ =? _); lia. Qed.

(** In an ordered layout every chunk lies between the bounds. *)
Lemma chunks_in_order_bounds (chunks : list OutputChunk) :
  forall lo hi : Z,
    chunks_in_order lo chunks hi ->
    lo <= hi /\
    forall c, c ∈ chunks ->
      lo <= sh_offset (shdr c) /\ sh_offset (shdr c) <= chunk_file_end c /\
      chunk_file_end c <= hi.
Proof.
  induction chunks as [|c rest IH]; intros lo hi H; cbn in H.
  - split; [exact H|]. intros c Hc. inversion Hc.
  - destruct H as (Hlo & Hsz & Hrest).
    destruct (IH _ _ Hrest) as [Hle Hall].
    pose proof (chunk_file_end_ge c Hsz) as Hend.
    split; [lia|]. intros d Hd. apply elem_of_cons in Hd as [-> | Hd].
    + lia.
    + destruct (Hall d Hd) as (H1 & H2 & H3). lia.
Qed.

(** Whether an offset is in the padding can be decided. *)
Lemma classic_padding (chunks : list OutputChunk) (filesize a : Z) :
  in_padding chunks filesize a \/ ~ in_padding chunks filesize a.
Proof.
  induction chunks as [|c rest IH]; [right; tauto|].
  cbn [in_padding]. destruct rest as [|d rest].
  - destruct (Z.le_gt_cases (chunk_file_end c) a), (Z.lt_ge_cases a filesize);
      (left; lia) || (right; lia).
  - destruct IH as [IH | IH]; [left; now right|].
    destruct (Z.le_gt_cases (chunk_file_end c) a),
             (Z.lt_ge_cases a (sh_offset (shdr d)));
      (left; left; lia) || (right; intros [H' | H']; [lia | contradiction]).
Qed.

Lemma zero_spec (c : OutputChunk) (next : Z) (buf : mem) (a : Z) :
  0 <= sh_offset (shdr c) -> 0 <= sh_size (shdr c) ->
  chunk_file_end c <= next -> next < 2 ^ 63 ->
  zero c next buf a = if (chunk_file_end c <=? a) && (a <? next) then 0 else buf a.
Proof.
  intros Ho Hs He Hn. pose proof (chunk_file_end_ge c Hs) as Hge.
  unfold zero, memset_zero, chunk_file_end in *.
  rewrite (i64_small (sh_offset (shdr c))) by lia.
  destruct (sh_type (shdr c) =? SHT_NOBITS); cbn [negb].
  - rewrite u64_small by lia.
    replace (sh_offset (shdr c) + (next - sh_offset (shdr c))) with next by lia.
    reflexivity.
  - rewrite i64_small by lia. rewrite u64_small by lia.
    replace (sh_offset (shdr c) + sh_size (shdr c) +
             (next - (sh_offset (shdr c) + sh_size (shdr c)))) with next by lia.
    reflexivity.
Qed.

(** [clear_padding] zeroes the padding and nothing else. *)
Lemma clear_padding_spec (filesize : Z) (chunks : list OutputChunk) :
  filesize < 2 ^ 63 ->
  forall (lo : Z) (buf : mem),
    0 <= lo -> chunks_in_order lo chunks filesize -> chunks <> [] ->
    exists buf' : mem,
      clear_padding filesize chunks buf = Returns buf' /\
      forall a : Z,
        (in_padding chunks filesize a -> buf' a = 0) /\
        (~ in_padding chunks filesize a -> buf' a = buf a).
Proof.
  intros Hfs. unfold clear_padding.
  induction chunks as [|c rest IH]; intros lo buf Hlo Hord Hne; [congruence|].
  destruct rest as [|d rest].
  - cbn in Hord |- *. destruct Hord as (H1 & H2 & H3).
    eexists. split; [reflexivity|]. intros a.
    rewrite zero_spec by lia.
    destruct (Z.leb_spec (chunk_file_end c) a), (Z.ltb_spec a filesize);
      cbn [andb]; split; intros; (reflexivity || lia).
  - cbn [chunks_in_order] in Hord. destruct Hord as (H1 & H2 & H3 & H4 & H5).
    pose proof (chunk_file_end_ge c H2) as Hc.
    pose proof (chunk_file_end_ge d H4) as Hd.
    destruct (chunks_in_order_bounds _ _ _ H5) as [Hle _].
    change (last (c :: d :: rest)) with (last (d :: rest)).
    cbn [clear_gaps].
    rewrite (i64_small (sh_offset (shdr d))) by lia.
    destruct (IH (chunk_file_end c)
                 (zero c (sh_offset (shdr d)) buf) ltac:(lia))
      as (buf' & Hbuf' & Hspec).
    { cbn [chunks_in_order]. auto. }
    { discriminate. }
    exists buf'. split; [exact Hbuf'|]. intros a.
    destruct (Hspec a) as [Hp Hnp]. cbn [in_padding].
    fold (in_padding (d :: rest) filesize a).
    split.
    + intros [Hgap | Hrest]; [|auto].
      destruct (classic_padding (d :: rest) filesize a) as [Hin | Hout]; [auto|].
      rewrite (Hnp Hout), zero_spec by lia.
      destruct (Z.leb_spec (chunk_file_end c) a), (Z.ltb_spec a (sh_offset (shdr d)));
        cbn [andb]; (reflexivity || lia).
    + intros Hn. rewrite Hnp by tauto. rewrite zero_spec by lia.
      destruct (Z.leb_spec (chunk_file_end c) a), (Z.ltb_spec a (sh_offset (shdr d)));
        cbn [andb]; try reflexivity.
      exfalso. apply Hn. left. lia.
Qed.

End Padding.

Section PaddingRanges.

(** In an ordered layout the padding is what lies between the start of
    the first chunk and the end of the file and in no chunk. *)
Lemma in_padding_iff (chunks : list OutputChunk) (hi a : Z) :
  forall lo : Z,
    chunks_in_order lo chunks hi ->
    in_padding chunks hi a <->
    (exists c, c ∈ chunks /\ sh_offset (shdr c) <= a) /\ a < hi /\
    (forall c, c ∈ chunks -> ~ in_chunk_file c a).
Proof.
  induction chunks as [|c rest IH]; intros lo Hord.
  - cbn. split; [tauto|]. intros [(c & Hc & _) _]. inversion Hc.
  - destruct rest as [|d rest].
    + cbn in Hord. destruct Hord as (H1 & H2 & H3).
      pose proof (chunk_file_end_ge c H2) as Hc. cbn [in_padding]. split.
      * intros H. split; [exists c; split; [left | lia]|]. split; [lia|].
        intros e He. apply list_elem_of_singleton in He as ->.
        unfold in_chunk_file. lia.
      * intros [(e & He & Hoff) [Hlt Hnot]].
        apply list_elem_of_singleton in He as ->.
        specialize (Hnot c ltac:(left)). unfold in_chunk_file in Hnot. lia.
    + cbn [chunks_in_order] in Hord. destruct Hord as (H1 & H2 & Hrest).
      pose proof Hrest as Hrest'. cbn [chunks_in_order] in Hrest'.
      destruct Hrest' as (H3 & H4 & H5).
      pose proof (chunk_file_end_ge c H2) as Hc.
      pose proof (chunk_file_end_ge d H4) as Hd.
      destruct (chunks_in_order_bounds _ _ _ H5) as [Hle Hall].
      assert (Hafter : forall e, e ∈ d :: rest -> sh_offset (shdr d) <= sh_offset (shdr e)).
      { intros e He. apply elem_of_cons in He as [-> | He]; [lia|].
        destruct (Hall e He). lia. }
      specialize (IH _ Hrest). cbn [in_padding].
      fold (in_padding (d :: rest) hi a). rewrite IH. split.
      * intros [Hgap | [(e & He & Hoff) [Hlt Hnot]]].
        -- split; [exists c; split; [left | lia]|]. split; [lia|].
           intros e He. unfold in_chunk_file.
           apply elem_of_cons in He as [-> | He]; [lia|].
           pose proof (Hafter e He). lia.
        -- split; [exists e; split; [now right | exact Hoff]|]. split; [exact Hlt|].
           intros e' He'. apply elem_of_cons in He' as [-> | He']; [|auto].
           pose proof (Hafter e He). unfold in_chunk_file. lia.
      * intros [(e & He & Hoff) [Hlt Hnot]].
        destruct (Z.lt_ge_cases a (sh_offset (shdr d))) as [Hlow | Hhigh].
        -- left. apply elem_of_cons in He as [-> | He].
           ++ specialize (Hnot c ltac:(left)). unfold in_chunk_file in Hnot. lia.
           ++ pose proof (Hafter e He). lia.
        -- right. split; [exists d; split; [left | lia]|]. split; [exact Hlt|].
           intros e' He'. apply Hnot. now right.
Qed.

(** [clear_padding] in terms of the ranges of the chunks. *)
Lemma clear_padding_ranges (filesize lo : Z) (chunks : list OutputChunk) (buf : mem) :
  0 <= lo -> filesize < 2 ^ 63 ->
  chunks_in_order lo chunks filesize -> chunks <> [] ->
  exists buf' : mem,
    clear_padding filesize chunks buf = Returns buf' /\
    forall a : Z,
      ((exists c, c ∈ chunks /\ in_chunk_file c a) -> buf' a = buf a) /\
      ((forall c, c ∈ chunks -> a < sh_offset (shdr c)) \/ filesize <= a ->
       buf' a = buf a) /\
      ((exists c, c ∈ chunks /\ sh_offset (shdr c) <= a) -> a < filesize ->
       (forall c, c ∈ chunks -> ~ in_chunk_file c a) -> buf' a = 0).
Proof.
  intros Hlo Hfs Hord Hne.
  destruct (clear_padding_spec filesize chunks Hfs lo buf Hlo Hord Hne)
    as (buf' & Hb & Hspec).
  exists buf'. split; [exact Hb|]. intros a. destruct (Hspec a) as [Hp Hnp].
  pose proof (in_padding_iff chunks filesize a lo Hord) as Hiff.
  repeat split.
  - intros (c & Hc & Hin). apply Hnp. rewrite Hiff.
    intros (_ & _ & Hnot). exact (Hnot c Hc Hin).
  - intros [Hbefore | Hafter]; apply Hnp; rewrite Hiff.
    + intros [(c & Hc & Hoff) _]. specialize (Hbefore c Hc). lia.
    + intros (_ & Hlt & _). lia.
  - intros Hex Hlt Hnot. apply Hp. rewrite Hiff. auto.
Qed.

End PaddingRanges.


(** X20.  On chunks that lie in the file in order and without overlap,
    [clear_padding] returns, and it has left every byte of every chunk as
    it was, as well as the bytes before the first chunk and from the file
    size on, and has set to zero every other byte of the file: the
    padding between the chunks and after the last one. *)
Theorem clear_padding_zeroes (filesize lo : Z) (chunks : list OutputChunk)
  (buf : mem) :
  0 <= lo -> filesize < 2 ^ 63 ->
  chunks_in_order lo chunks filesize -> chunks <> [] ->
  exists buf' : mem,
    clear_padding filesize chunks buf = Returns buf' /\
    forall a : Z,
      ((exists c, c ∈ chunks /\ in_chunk_file c a) -> buf' a = buf a) /\
      ((forall c, c ∈ chunks -> a < sh_offset (shdr c)) \/ filesize <= a ->
       buf' a = buf a) /\
      ((exists c, c ∈ chunks /\ sh_offset (shdr c) <= a) -> a < filesize ->
       (forall c, c ∈ chunks -> ~ in_chunk_file c a) -> buf' a = 0).
Proof. apply clear_padding_ranges. Qed.

Lemma place_chunks_length (PAGE_SIZE : Z) (chunks : list OutputChunk) :
  forall st, length (fst (place_chunks PAGE_SIZE st chunks)) = length chunks.
Proof.
  induction chunks as [|c rest IH]; intros st; [reflexivity|].
  cbn [place_chunks]. destruct (place_chunk PAGE_SIZE st c) as [c' st'].
  specialize (IH st'). destruct (place_chunks PAGE_SIZE st' rest) as [rest' st''].
  cbn [fst length] in *. now rewrite IH.
Qed.

(** X21.  [set_osec_offsets] followed by [clear_padding] with the file
    size it returned, when nothing wraps around and there is a chunk:
    [clear_padding] returns, the bytes of the chunks are as they were, and
    every byte between the start of the first chunk and the end of the
    file that belongs to no chunk is zero. *)
Theorem clear_padding_after_layout (PAGE_SIZE image_base : Z)
  (chunks : list OutputChunk) (buf : mem) :
  0 < PAGE_SIZE -> 0 <= image_base ->
  Forall wf_chunk chunks -> chunks <> [] ->
  image_base + osec_weight PAGE_SIZE chunks < 2 ^ 63 ->
  let placed := fst (set_osec_offsets PAGE_SIZE image_base chunks) in
  let filesize := snd (set_osec_offsets PAGE_SIZE image_base chunks) in
  exists buf' : mem,
    clear_padding filesize placed buf = Returns buf' /\
    forall a : Z,
      ((exists c, c ∈ placed /\ in_chunk_file c a) -> buf' a = buf a) /\
      ((exists c, c ∈ placed /\ sh_offset (shdr c) <= a) -> a < filesize ->
       (forall c, c ∈ placed -> ~ in_chunk_file c a) -> buf' a = 0).
Proof.
  intros Hp Hib Hwf Hne Hb. cbv zeta.
  assert (Hlen : length (fst (set_osec_offsets PAGE_SIZE image_base chunks)) =
                 length chunks).
  { unfold set_osec_offsets.
    pose proof (place_chunks_length PAGE_SIZE chunks (0, i64 image_base)) as H.
    destruct (place_chunks PAGE_SIZE (0, i64 image_base) chunks) as [c' [fo va]].
    exact H. }
  assert (Hord : chunks_in_order 0 (fst (set_osec_offsets PAGE_SIZE image_base chunks))
                   (snd (set_osec_offsets PAGE_SIZE image_base chunks)) /\
                 snd (set_osec_offsets PAGE_SIZE image_base chunks) < 2 ^ 63).
  { unfold set_osec_offsets.
    pose proof (osec_weight_nonneg PAGE_SIZE Hp chunks Hwf) as Hw.
    rewrite (i64_small image_base) by lia.
    destruct (place_chunks_order PAGE_SIZE Hp chunks Hwf 0 image_base)
      as [Ho Hlt]; try lia.
    destruct (place_chunks PAGE_SIZE (0, image_base) chunks) as [chunks' [fo va]].
    cbn [fst snd] in *. auto. }
  destruct Hord as [Hord Hfs].
  destruct (clear_padding_ranges _ 0 _ buf ltac:(lia) Hfs Hord) as (buf' & Hb' & Hspec).
  { intros E. rewrite E in Hlen. destruct chunks; [congruence | discriminate]. }
  exists buf'. split; [exact Hb'|]. intros a.
  destruct (Hspec a) as (H1 & _ & H3). auto.
Qed.



(** The padding of the sample image: byte 100, in the padding after the
    64 bytes of the first chunk, is zeroed, and byte 4200, in [.text], is
    kept. *)
Lemma clear_padding_zeroes_witness :
  exists buf' : mem,
    clear_padding 13749 placed_chunks (fun _ => 255) = Returns buf' /\
    buf' 100 = 0 /\ buf' 4200 = 255.
Proof.
  destruct (clear_padding_zeroes 13749 0 placed_chunks (fun _ => 255))
    as (buf' & Hb & Hspec).
  - lia.
  - lia.
  - cbn. unfold chunk_file_end. cbn. repeat split; lia.
  - discriminate.
  - exists buf'. split; [exact Hb|]. split.
    + apply (proj2 (proj2 (Hspec 100))).
      * exists (mkChunk (mkShdr 0 2 2097152 0 64 8) true).
        split; [left | cbn; lia].
      * lia.
      * intros c Hc [H1 H2]. unfold placed_chunks in Hc.
        repeat (apply elem_of_cons in Hc as [-> | Hc];
                [unfold chunk_file_end in H2; cbn in H1, H2; lia|]).
        inversion Hc.
    + apply (proj1 (Hspec 4200)).
      exists (mkChunk (mkShdr 1 6 2101248 4096 4133 16) true).
      split; [right; left | unfold in_chunk_file, chunk_file_end; cbn; lia].
Defined.

(** The sample image again, through the layout. *)
Lemma clear_padding_after_layout_witness :
  exists buf' : mem,
    clear_padding (snd (set_osec_offsets 4096 2097152 sample_chunks))
                  (fst (set_osec_offsets 4096 2097152 sample_chunks))
                  (fun _ => 255) = Returns buf' /\
    buf' 4200 = 255.
Proof.
  destruct (clear_padding_after_layout 4096 2097152 sample_chunks (fun _ => 255))
    as (buf' & Hb & Hspec).
  - lia.
  - lia.
  - repeat constructor; cbn; lia.
  - discriminate.
  - vm_compute; reflexivity.
  - exists buf'. split; [exact Hb|].
    apply (proj1 (Hspec 4200)). rewrite set_osec_offsets_sample. cbn [fst].
    exists (mkChunk (mkShdr 1 6 2101248 4096 4133 16) true).
    split; [right; left | unfold in_chunk_file, chunk_file_end; cbn; lia].
Defined.

(** ** The relocation applier only writes *)

Section WriteOnly.

Lemma write_only_id : write_only (fun buf => buf).
Proof. intros b1 b2 a. now right. Qed.

Lemma write_only_store (addr : Z) (bs : list Z) : write_only (store_bytes addr bs).
Proof.
  intros b1 b2 a. unfold store_bytes.
  destruct ((addr <=? a) && (a <? addr + Z.of_nat (length bs))); [now left | now right].
Qed.

Lemma write_only_comp (f g : mem -> mem) :
  write_only f -> write_only g -> write_only (fun buf => g (f buf)).
Proof.
  intros Hf Hg b1 b2 a.
  destruct (Hg (f b1) (f b2) a) as [E | [E1 E2]]; [now left|].
  rewrite E1, E2. apply Hf.
Qed.

Variable out : Out.
Variable isec : InputSection.
Variable syms : list Symbol.

(** One iteration ends the same way whatever the buffer holds, and only
    writes to it. *)
Lemma copy_body_write_only (i : nat) (b1 b2 : mem) :
  result_map fst (copy_body out isec syms i b1) =
  result_map fst (copy_body out isec syms i b2) /\
  forall a : Z,
    snd (result_state (copy_body out isec syms i b1)) a =
    snd (result_state (copy_body out isec syms i b2)) a \/
    (snd (result_state (copy_body out isec syms i b1)) a = b1 a /\
     snd (result_state (copy_body out isec syms i b2)) a = b2 a).
Proof.
  unfold copy_body.
  destruct (rels isec !! i) as [rel|]; [|split; [reflexivity | now right]].
  destruct (rel_pieces isec !! i) as [ref|]; [|split; [reflexivity | now right]].
  destruct (syms !! r_sym rel) as [sym|]; [|split; [reflexivity | now right]].
  destruct (sym_file sym); [|split; [reflexivity | now right]].
  destruct (rel_kind (r_type rel));
    repeat match goal with
           | |- context [if ?b then _ else _] => destruct b
           end;
    (split; [reflexivity|]); intros a; cbn [result_state snd];
    unfold store_u64, store_u32, store_u16, store_u8;
    first [ now right
          | apply write_only_store
          | apply (write_only_comp (store_bytes _ _) (store_bytes _ _));
            apply write_only_store ].
Qed.

Lemma copy_loop_write_only (b1 b2 : mem) (fuel : nat) :
  forall (i : nat) (c1 c2 : mem) (r1 : result mem),
    (forall a, c1 a = c2 a \/ (c1 a = b1 a /\ c2 a = b2 a)) ->
    copy_loop fuel out isec syms i c1 = Some r1 ->
    exists r2 : result mem,
      copy_loop fuel out isec syms i c2 = Some r2 /\
      result_map (fun _ => tt) r1 = result_map (fun _ => tt) r2 /\
      forall a, result_state r1 a = result_state r2 a \/
                (result_state r1 a = b1 a /\ result_state r2 a = b2 a).
Proof.
  induction fuel as [|fuel IH]; intros i c1 c2 r1 Hinv; cbn [copy_loop];
    destruct (Nat.leb_spec (length (rels isec)) i);
    try (intros [= <-]; exists (Done c2); repeat split; assumption);
    try discriminate.
  destruct (copy_body_write_only i c1 c2) as [Hk Hw].
  assert (Hinv' : forall a,
            snd (result_state (copy_body out isec syms i c1)) a =
            snd (result_state (copy_body out isec syms i c2)) a \/
            (snd (result_state (copy_body out isec syms i c1)) a = b1 a /\
             snd (result_state (copy_body out isec syms i c2)) a = b2 a)).
  { intros a. destruct (Hw a) as [E | [E1 E2]]; [now left|].
    rewrite E1, E2. apply Hinv. }
  destruct (copy_body out isec syms i c1) as [[i1 s1] | m1 [i1 s1] | [i1 s1] | v1 [i1 s1]],
           (copy_body out isec syms i c2) as [[i2 s2] | m2 [i2 s2] | [i2 s2] | v2 [i2 s2]];
    cbn [result_map fst snd result_state] in Hk, Hinv' |- *; try discriminate.
  - injection Hk as <-. intros Hr. apply (IH _ s1 s2 r1 Hinv' Hr).
  - injection Hk as <- <-. intros [= <-]. eexists. repeat split. exact Hinv'.
  - intros [= <-]. eexists. repeat split. exact Hinv'.
  - injection Hk as <- <-. intros [= <-]. eexists. repeat split. exact Hinv'.
Qed.

Lemma copy_buf_write_only (b1 b2 : mem) (r1 : result mem) :
  copy_buf out isec syms b1 = Some r1 ->
  exists r2 : result mem,
    copy_buf out isec syms b2 = Some r2 /\
    result_map (fun _ => tt) r1 = result_map (fun _ => tt) r2 /\
    forall a, result_state r1 a = result_state r2 a \/
              (result_state r1 a = b1 a /\ result_state r2 a = b2 a).
Proof.
  unfold copy_buf. destruct (_ || _).
  - intros [= <-]. exists (Done b2). repeat split. intros a. now right.
  - apply copy_loop_write_only. intros a. apply write_only_store.
Qed.

End WriteOnly.


(** Whether an address is in a relocation window of a section, and
    whether it is in its footprint, can be decided. *)
Lemma in_reloc_window_dec (isec : InputSection) (a : Z) :
  in_reloc_window isec a \/ ~ in_reloc_window isec a.
Proof.
  unfold in_reloc_window. induction (rels isec) as [|rel rs IH].
  - right. intros (rel & Hin & _). inversion Hin.
  - destruct IH as [(rel' & Hin & Hr) | IH].
    + left. exists rel'. split; [now right | exact Hr].
    + destruct (Z.le_gt_cases (rel_loc isec rel - 4) a) as [Hlo | Hlo];
        [destruct (Z.lt_ge_cases a (rel_loc isec rel + 12)) as [Hhi | Hhi]|].
      * left. exists rel. split; [left | lia].
      * right. intros (rel' & Hin & Hr).
        apply elem_of_cons in Hin as [-> | Hin]; [lia | apply IH; eauto].
      * right. intros (rel' & Hin & Hr).
        apply elem_of_cons in Hin as [-> | Hin]; [lia | apply IH; eauto].
Qed.

Lemma footprint_dec (isec : InputSection) (a : Z) :
  footprint isec a \/ ~ footprint isec a.
Proof.
  unfold footprint, in_image.
  destruct (in_reloc_window_dec isec a) as [Hw | Hw]; [left; now right|].
  destruct (Z.le_gt_cases (isec_base isec) a) as [Hlo | Hlo];
    [destruct (Z.lt_ge_cases a (isec_base isec + Z.of_nat (length (contents isec))))
       as [Hhi | Hhi]|].
  - left. left. lia.
  - right. intros [Himg | Hw']; [lia | contradiction].
  - right. intros [Himg | Hw']; [lia | contradiction].
Qed.

(** X22.  The order in which [copy_buf] is run on two sections whose
    footprints (image and relocation windows) have no byte in common does
    not matter: if [copy_buf] on B and then on A both return, so do
    [copy_buf] on A and then on B, and the output buffer ends with the
    same contents.  [copy_buf] never reads the output buffer. *)
Theorem copy_buf_commute (out : Out) (A B : InputSection)
  (symsA symsB : list Symbol) (buf bufB bufAB : mem) :
  (forall a : Z, ~ (footprint A a /\ footprint B a)) ->
  copy_buf out B symsB buf = Some (Done bufB) ->
  copy_buf out A symsA bufB = Some (Done bufAB) ->
  exists bufA bufBA : mem,
    copy_buf out A symsA buf = Some (Done bufA) /\
    copy_buf out B symsB bufA = Some (Done bufBA) /\
    forall a : Z, bufBA a = bufAB a.
Proof.
  intros Hdisj HB HAB.
  destruct (copy_buf_write_only out A symsA bufB buf _ HAB) as (rA & HA & Hk & H1).
  destruct rA as [bufA | | |]; try discriminate Hk. clear Hk.
  destruct (copy_buf_write_only out B symsB buf bufA _ HB) as (rBA & HBA & Hk & H2).
  destruct rBA as [bufBA | | |]; try discriminate Hk. clear Hk.
  cbn [result_state] in H1, H2.
  exists bufA, bufBA. split; [exact HA|]. split; [exact HBA|]. intros a.
  pose proof (fun H => copy_buf_outside out A symsA bufB _ a HAB H) as FAB.
  pose proof (fun H => copy_buf_outside out A symsA buf _ a HA H) as FA.
  pose proof (fun H => copy_buf_outside out B symsB buf _ a HB H) as FB.
  pose proof (fun H => copy_buf_outside out B symsB bufA _ a HBA H) as FBA.
  cbn [result_state] in FAB, FA, FB, FBA.
  destruct (footprint_dec A a) as [HfA | HnA].
  - assert (HnB : ~ footprint B a) by (intros HfB; apply (Hdisj a); auto).
    rewrite (FBA HnB). destruct (H1 a) as [E | [E1 E2]]; [congruence|].
    rewrite E1, E2. symmetry. apply (FB HnB).
  - rewrite (FAB HnA). destruct (H2 a) as [E | [E1 E2]]; [congruence|].
    rewrite E2, E1. apply (FA HnA).
Qed.

(** The TLS sample at offset 4096 and the [.data] sample at offset 8192. *)
Lemma copy_buf_commute_witness :
  exists bufA bufBA bufB bufAB : mem,
    copy_buf sample_out tls_copy_isec tls_copy_syms zero_mem = Some (Done bufA) /\
    copy_buf sample_out data_scan_isec (symbols sample_scan_state) bufA =
      Some (Done bufBA) /\
    copy_buf sample_out data_scan_isec (symbols sample_scan_state) zero_mem =
      Some (Done bufB) /\
    copy_buf sample_out tls_copy_isec tls_copy_syms bufB = Some (Done bufAB) /\
    forall a : Z, bufBA a = bufAB a.
Proof.
  assert (HB : exists b : mem,
             copy_buf sample_out data_scan_isec (symbols sample_scan_state) zero_mem =
               Some (Done b)) by (eexists; reflexivity).
  destruct HB as [bufB HB].
  assert (HAB : exists b : mem,
             copy_buf sample_out tls_copy_isec tls_copy_syms bufB = Some (Done b))
    by (eexists; reflexivity).
  destruct HAB as [bufAB HAB].
  destruct (copy_buf_commute sample_out tls_copy_isec data_scan_isec
              tls_copy_syms (symbols sample_scan_state) zero_mem bufB bufAB)
    as (bufA & bufBA & HA & HBA & Heq); [| exact HB | exact HAB |].
  - intros a [HfA HfB].
    unfold footprint, in_image, in_reloc_window, rel_loc in HfA, HfB.
    change (isec_base tls_copy_isec) with 4096 in HfA.
    change (isec_base data_scan_isec) with 8192 in HfB.
    assert (Ha : 4092 <= a < 4128).
    { destruct HfA as [HfA | (rel & Hin & HfA)].
      - cbn in HfA. lia.
      - cbn [rels tls_copy_isec] in Hin.
        repeat (apply elem_of_cons in Hin as [-> | Hin]; [cbn in HfA; lia|]).
        inversion Hin. }
    destruct HfB as [HfB | (rel & Hin & HfB)].
    + cbn in HfB. lia.
    + cbn [rels data_scan_isec] in Hin.
      repeat (apply elem_of_cons in Hin as [-> | Hin]; [cbn in HfB; lia|]).
      inversion Hin.
  - exists bufA, bufBA, bufB, bufAB. repeat split; assumption.
Defined.

(** ** From the scanner to the applier *)

Section ScanThenCopy.

Variable out : Out.
Variable isec : InputSection.
Variable syms : list Symbol.

Hypothesis pieces_cover : (length (rels isec) <= length (rel_pieces isec))%nat.

Lemma slots_agree_raised (st st1 : FileState) :
  state_raised st st1 ->
  slots_agree isec (symbols st) syms -> slots_agree isec (symbols st1) syms.
Proof.
  intros [Hr _] [Hn Hag]. split.
  - rewrite <- Hn. symmetry. eapply Forall2_length; eauto.
  - intros rel s1 s' Hin Hs1 Hs'.
    destruct (Forall2_lookup_r _ _ _ _ _ Hr Hs1) as (s & Hs & Hsk & _).
    destruct (Hag rel s s' Hin Hs Hs') as (Hf & Hgd & Hld).
    rewrite (f_equal sym_file Hsk : sym_file s1 = sym_file s).
    rewrite (f_equal is_imported Hsk : is_imported s1 = is_imported s).
    auto.
Qed.

(** One iteration: where the scanner goes on without raising [has_error],
    the applier goes on too, and with the same index. *)
Lemma scan_copy_body (i i' : nat) (st st1 : FileState) (buf : mem) :
  slots_agree isec (symbols st) syms ->
  scan_body isec i st = Done (i', st1) ->
  has_error st1 = false ->
  exists buf1 : mem, copy_body out isec syms i buf = Done (i', buf1).
Proof.
  intros [Hn Hag] Hb He. unfold scan_body in Hb. unfold copy_body.
  destruct (rels isec !! i) as [rel|] eqn:Hrel; [|discriminate Hb].
  assert (Hi : (i < length (rels isec))%nat) by (eapply lookup_lt_Some; eauto).
  destruct (lookup_lt_is_Some_2 (rel_pieces isec) i ltac:(lia)) as [ref ->].
  destruct (symbols st !! r_sym rel) as [s|] eqn:Hs; [|discriminate Hb].
  destruct (lookup_lt_is_Some_2 syms (r_sym rel)) as [s' Hs'].
  { rewrite <- Hn. eapply lookup_lt_Some; eauto. }
  rewrite Hs'.
  destruct (Hag rel s s' (list_elem_of_lookup_2 _ _ _ Hrel) Hs Hs') as (Hf & Hgd & Hld).
  destruct (unresolved s) eqn:Hu.
  { injection Hb as <- <-. discriminate He. }
  unfold unresolved in Hu.
  destruct (sym_file s) as [f|] eqn:Efs; [|discriminate Hu].
  destruct (sym_file s') as [f'|] eqn:Efs';
    [|destruct Hf as [_ Hf]; discriminate (Hf eq_refl)].
  cbv zeta.
  destruct (rel_kind (r_type rel)) eqn:K; try discriminate Hb;
    try (unfold scan_tls in Hb;
         destruct (rels isec !! S i); [|discriminate Hb];
         destruct (negb _); [discriminate Hb|];
         first [rewrite (Hgd eq_refl) | rewrite (Hld eq_refl)];
         destruct (is_imported s); injection Hb as <- <-; cbn [negb];
         eexists; reflexivity);
    repeat match type of Hb with
           | (if ?b then _ else _) = _ => destruct b
           end;
    injection Hb as <- <-;
    repeat match goal with
           | |- context [if ?b then _ else _] => destruct b
           end;
    eexists; reflexivity.
Qed.

Lemma scan_copy_loop (st' : FileState) (fuel : nat) :
  forall (i : nat) (st : FileState) (buf : mem),
    slots_agree isec (symbols st) syms ->
    scan_loop fuel isec i st = Some (Done st') ->
    has_error st' = false ->
    exists buf' : mem, copy_loop fuel out isec syms i buf = Some (Done buf').
Proof.
  induction fuel as [|fuel IH]; intros i st buf Hag; cbn [scan_loop copy_loop];
    destruct (Nat.leb_spec (length (rels isec)) i) as [Hge | Hlt];
    try (intros _ _; eexists; reflexivity); try discriminate.
  destruct (scan_body isec i st) as [[i' st1] | msg x | x | v x] eqn:Hb;
    cbn [result_map]; try discriminate.
  intros Hrest He.
  pose proof (scan_loop_raises isec fuel _ _ _ Hrest) as [_ Herr].
  cbn [result_state] in Herr.
  assert (He1 : has_error st1 = false).
  { destruct (has_error st1); [|reflexivity].
    rewrite (Herr eq_refl) in He. discriminate He. }
  destruct (scan_copy_body i i' st st1 buf Hag Hb He1) as [buf1 ->].
  apply (IH (S i') st1 buf1); [|exact Hrest | exact He].
  apply (slots_agree_raised st st1); [|exact Hag].
  pose proof (scan_body_raises isec i st) as Hr. rewrite Hb in Hr. exact Hr.
Qed.

End ScanThenCopy.

(** X23.  What the scanner accepts, the applier applies.  Take an
    allocated section with a [rel_pieces] entry for every relocation, and
    symbols at the time of [copy_buf] that agree with those the scanner
    saw ([slots_agree]).  If [scan_relocations] returned and left
    [has_error] clear, then [copy_buf] returns too: it meets no unknown
    relocation type and indexes no vector out of range. *)
Theorem scan_then_copy (out : Out) (isec : InputSection) (st st' : FileState)
  (syms : list Symbol) (buf : mem) :
  has_flag (isec_shdr isec) SHF_ALLOC = true ->
  (length (rels isec) <= length (rel_pieces isec))%nat ->
  slots_agree isec (symbols st) syms ->
  scan_relocations isec st = Some (Done st') ->
  has_error st' = false ->
  exists buf' : mem, copy_buf out isec syms buf = Some (Done buf').
Proof.
  intros Halloc Hlen Hag Hscan He. unfold scan_relocations in Hscan.
  rewrite Halloc in Hscan. cbn [negb] in Hscan. unfold copy_buf.
  destruct (_ || _); [eexists; reflexivity|].
  eapply scan_copy_loop; eauto.
Qed.

(** The TLS sample: a TLSGD of a symbol that is not imported and has no
    slot, and its PLT32. *)
Lemma scan_then_copy_witness :
  scan_relocations tls_scan_isec tls_scan_state = Some (Done tls_scan_state) /\
  exists buf' : mem,
    copy_buf sample_out tls_scan_isec (symbols tls_scan_state) zero_mem =
      Some (Done buf').
Proof.
  split; [reflexivity|].
  apply (scan_then_copy sample_out tls_scan_isec tls_scan_state tls_scan_state
           (symbols tls_scan_state) zero_mem);
    [reflexivity | cbn; lia | | reflexivity | reflexivity].
  split; [reflexivity|]. intros rel s s' Hin Hs Hs'.
  rewrite Hs in Hs'. injection Hs' as <-.
  cbn [rels tls_scan_isec] in Hin.
  repeat (apply elem_of_cons in Hin as [-> | Hin];
          [cbn in Hs; injection Hs as <-;
           split; [split; discriminate|]; split; intros; (reflexivity || discriminate)|]).
  inversion Hin.
Defined.

(** ** Order and alignment within an output section *)

Section SectionAlignment.

(** The alignment [set_isec_offsets] gives an output section is the
    largest alignment among its members. *)
Lemma set_isec_offsets_osec_align (unit : nat) (osec : OutputSection) :
  (0 < unit)%nat ->
  Forall wf_member (members osec) ->
  layout_bound (members osec) < 2 ^ 63 ->
  members osec <> [] ->
  sh_addralign (oshdr (set_isec_offsets_osec unit osec)) = max_align (members osec).
Proof.
  intros Hu Hwf Hb Hne. unfold set_isec_offsets_osec.
  pose proof (split_concat (members osec) unit) as Hc.
  destruct (members osec) as [|m0 ms] eqn:Em; [congruence|].
  set (ml := m0 :: ms) in *.
  destruct (split ml unit) as [|sl0 sls] eqn:Es; [discriminate Hc|].
  assert (Hwfs : Forall (Forall wf_member) (sl0 :: sls)).
  { apply Forall_concat_slices. now rewrite Hc. }
  pose proof (total_weight_slice_le _ Hwfs) as Htws. rewrite Hc in Htws.
  pose proof (total_weight_nonneg ml Hwf) as Htw.
  pose proof (max_align_ge_1 ml) as Hma.
  unfold layout_bound in Hb.
  assert (Hlen : 1 <= Z.of_nat (length ml)) by (unfold ml; cbn [length]; lia).
  assert (Hmab : max_align ml < 2 ^ 63) by nia.
  assert (Htwb : total_weight ml < 2 ^ 63) by nia.
  set (A := max_element (map snd (map (slice_pass 0 1) (sl0 :: sls)))).
  assert (EA : A = max_align ml).
  { unfold A. rewrite passes_alignments;
      [| assumption | eapply Forall_impl; [exact Htws | cbn beta; intros; lia]].
    destruct (max_element_spec (map (fun sl => Z.max 1 (max_align sl)) (sl0 :: sls)))
      as [Hin Hmax]; [discriminate|].
    remember (max_element (map (fun sl => Z.max 1 (max_align sl)) (sl0 :: sls)))
      as M eqn:EM.
    apply list_elem_of_In, in_map_iff in Hin as (sl & Esl & Hsl).
    pose proof (max_align_ge_1 sl) as Hsl1.
    apply Z.le_antisymm.
    - rewrite <- Esl, Z.max_r by lia. apply max_align_least; [lia|].
      intros m Hm. apply max_align_member. rewrite <- Hc.
      apply list_elem_of_In, in_concat. exists sl.
      split; [exact Hsl | now apply list_elem_of_In].
    - apply max_align_least; [lia|]. intros m Hm. rewrite <- Hc in Hm.
      apply list_elem_of_In, in_concat in Hm as (sl' & Hsl' & Hm').
      pose proof (max_align_member sl' m ltac:(now apply list_elem_of_In)).
      assert (Z.max 1 (max_align sl') <= M).
      { apply Hmax. apply list_elem_of_In, in_map_iff. exists sl'. now split. }
      lia. }
  fold A. clearbody A. cbn [map].
  destruct (slice_pass 0 1 sl0) as [[sl0' sz0] al0].
  cbn [oshdr sh_addralign set_size_align]. rewrite u64_small by lia. exact EA.
Qed.

End SectionAlignment.

(** X24.  [set_isec_offsets] keeps the members of an output section in
    their order and gives the section the largest alignment among them.
    Provided the sizes are non-negative, the alignments are powers of two
    and the layout cannot wrap around, for every slice length [unit > 0]
    (the code uses 10000): the [sh_addralign] of a section that has
    members becomes the maximum of its members' [sh_addralign], and of two
    members the one that comes first in [members] ends no later than the
    other starts. *)
Theorem set_isec_offsets_ordered (unit : nat) (osec : OutputSection) :
  (0 < unit)%nat ->
  Forall wf_member (members osec) ->
  layout_bound (members osec) < 2 ^ 63 ->
  members osec <> [] ->
  let osec' := set_isec_offsets_osec unit osec in
  sh_addralign (oshdr osec') = max_align (members osec) /\
  forall (i j : nat) (a b : InputChunk),
    (i < j)%nat ->
    members osec' !! i = Some a -> members osec' !! j = Some b ->
    offset a + sh_size (ishdr a) <= offset b.
Proof.
  intros Hu Hwf Hb Hne. cbv zeta.
  split; [now apply set_isec_offsets_osec_align|].
  destruct (set_isec_offsets_osec_laid_out unit osec Hu Hwf Hb) as (Hmap & Hlaid & _).
  intros i j a b Hij Ha Hbj.
  apply (laid_out_ordered (members (set_isec_offsets_osec unit osec))) with 0 i j;
    try assumption.
  apply (Forall_same_headers (fun h => 0 <= sh_size h) _ _ Hmap).
  now apply wf_size_nonneg.
Qed.

(** The sample of seven members, in slices of three: the alignment of the
    section becomes 16. *)
Lemma set_isec_offsets_ordered_witness :
  let osec' := set_isec_offsets_osec 3 sample_osec in
  sh_addralign (oshdr osec') = 16 /\
  forall (i j : nat) (a b : InputChunk),
    (i < j)%nat ->
    members osec' !! i = Some a -> members osec' !! j = Some b ->
    offset a + sh_size (ishdr a) <= offset b.
Proof.
  apply (set_isec_offsets_ordered 3 sample_osec).
  - lia.
  - unfold sample_osec, wf_member. cbn [members ishdr sh_size sh_addralign].
    repeat first
      [ apply Forall_nil_2
      | apply Forall_cons_2;
        [ cbn [ishdr sh_size sh_addralign]; split; [lia|];
          first [ exists 0; split; [lia | reflexivity]
                | exists 1; split; [lia | reflexivity]
                | exists 2; split; [lia | reflexivity]
                | exists 3; split; [lia | reflexivity]
                | exists 4; split; [lia | reflexivity] ] | ] ].
  - vm_compute. reflexivity.
  - discriminate.
Defined.

(** ** The order of the chunks in memory *)

Section AddressOrder.

Variable PAGE_SIZE : Z.
Hypothesis page_size_pos : 0 < PAGE_SIZE.

(** One iteration of the loop, when nothing wraps around: the running
    address does not go back, and an allocated chunk is put at or after
    it, the running address moving to the end of the chunk's addresses. *)
Lemma place_chunk_addr (fileoff vaddr : Z) (chunk : OutputChunk) :
  wf_chunk chunk ->
  0 <= vaddr ->
  vaddr + osec_weight PAGE_SIZE [chunk] < 2 ^ 63 ->
  let r := place_chunk PAGE_SIZE (fileoff, vaddr) chunk in
  vaddr <= snd (snd r) /\
  (has_flag (shdr (fst r)) SHF_ALLOC = true ->
   vaddr <= sh_addr (shdr (fst r)) /\ chunk_addr_end (fst r) = snd (snd r)).
Proof.
  intros [Hsz Hal] Hv Hbv. cbn [osec_weight] in Hbv.
  unfold place_chunk. cbv zeta.
  set (a := sh_addralign (shdr chunk)) in *.
  set (sz := sh_size (shdr chunk)) in *.
  set (vaddr1 := if starts_new_ptload chunk
                 then i64 (align_to (u64 vaddr) PAGE_SIZE) else vaddr).
  assert (Hv1 : vaddr <= vaddr1 < vaddr + PAGE_SIZE).
  { unfold vaddr1. destruct (starts_new_ptload chunk); [|lia].
    apply (align_to_small vaddr PAGE_SIZE); lia. }
  set (fileoff1 := if Z.rem vaddr1 PAGE_SIZE >? Z.rem fileoff PAGE_SIZE then _ else _).
  pose proof (align_to_small vaddr1 a ltac:(lia) Hal ltac:(lia)) as [Hv2 _].
  set (fileoff2 := i64 (align_to (u64 fileoff1) a)) in *.
  set (vaddr2 := i64 (align_to (u64 vaddr1) a)) in *.
  set (h := set_sh_offset (u64 fileoff2) (shdr chunk)).
  set (h' := if has_flag h SHF_ALLOC then set_sh_addr (u64 vaddr2) h else h).
  assert (Hh : sh_size h' = sz /\ sh_type h' = sh_type (shdr chunk) /\
               sh_flags h' = sh_flags (shdr chunk) /\
               (has_flag h' SHF_ALLOC = true -> sh_addr h' = vaddr2)).
  { unfold h'. destruct (has_flag h SHF_ALLOC) eqn:E; repeat split.
    - intros _. cbn [sh_addr set_sh_addr]. apply u64_small. lia.
    - intros E'. rewrite E' in E. discriminate E. }
  destruct Hh as (Hsize & Htype & Hflags & Haddr).
  cbn [fst snd shdr]. unfold chunk_addr_end. cbn [shdr]. rewrite Hsize.
  destruct ((sh_type h' =? SHT_NOBITS) && has_flag h' SHF_TLS); cbn [negb].
  - split; [lia|]. intros Halloc. rewrite (Haddr Halloc). lia.
  - rewrite i64_small by lia. split; [lia|].
    intros Halloc. rewrite (Haddr Halloc). lia.
Qed.

Lemma place_chunks_addrs (chunks : list OutputChunk) :
  Forall wf_chunk chunks ->
  forall fileoff vaddr : Z,
    0 <= fileoff -> 0 <= vaddr ->
    fileoff + osec_weight PAGE_SIZE chunks < 2 ^ 63 ->
    vaddr + osec_weight PAGE_SIZE chunks < 2 ^ 63 ->
    let r := place_chunks PAGE_SIZE (fileoff, vaddr) chunks in
    vaddr <= snd (snd r) /\
    (forall c, c ∈ fst r -> has_flag (shdr c) SHF_ALLOC = true ->
       vaddr <= sh_addr (shdr c) /\ chunk_addr_end c <= snd (snd r)) /\
    (forall (i j : nat) (a b : OutputChunk),
       (i < j)%nat -> fst r !! i = Some a -> fst r !! j = Some b ->
       has_flag (shdr a) SHF_ALLOC = true -> has_flag (shdr b) SHF_ALLOC = true ->
       chunk_addr_end a <= sh_addr (shdr b)).
Proof.
  induction 1 as [|chunk rest Hwf Hrest IH]; intros fileoff vaddr Hf Hv Hbf Hbv.
  - cbn [place_chunks fst snd]. split; [lia|]. split.
    + intros c Hc. inversion Hc.
    + intros i j a b _ Hi. discriminate Hi.
  - cbn [place_chunks osec_weight] in *.
    pose proof (osec_weight_nonneg PAGE_SIZE page_size_pos rest Hrest) as Hw.
    destruct (place_chunk_order PAGE_SIZE page_size_pos fileoff vaddr chunk Hwf Hf Hv)
      as (H1 & H2 & H3 & H4 & H5); try (cbn [osec_weight]; lia).
    destruct (place_chunk_addr fileoff vaddr chunk Hwf Hv) as [A1 A2];
      try (cbn [osec_weight]; lia).
    cbn [osec_weight] in H4, H5. destruct Hwf as [Hsz Hal].
    destruct (place_chunk PAGE_SIZE (fileoff, vaddr) chunk) as [c' [fileoff' vaddr']].
    cbn [fst snd] in *.
    assert (Hf' : 0 <= fileoff').
    { rewrite <- H3. unfold chunk_file_end.
      destruct (sh_type (shdr c') =? SHT_NOBITS); lia. }
    destruct (IH fileoff' vaddr' Hf' ltac:(lia) ltac:(lia) ltac:(lia))
      as (B1 & B2 & B3).
    destruct (place_chunks PAGE_SIZE (fileoff', vaddr') rest) as [rest' [fo va]].
    cbn [fst snd] in *. split; [lia|]. split.
    + intros c Hc Halloc. apply elem_of_cons in Hc as [-> | Hc].
      * destruct (A2 Halloc). lia.
      * destruct (B2 c Hc Halloc). lia.
    + intros i j a b Hij Hi Hj Ha Hb.
      destruct j as [|j]; [lia|]. cbn in Hj.
      destruct i as [|i]; cbn in Hi.
      * injection Hi as <-. destruct (A2 Ha) as [_ ->].
        apply list_elem_of_lookup_2 in Hj. destruct (B2 b Hj Hb). lia.
      * apply (B3 i j a b); (assumption || lia).
Qed.

End AddressOrder.

(** X25.  When no offset or address wraps around, [set_osec_offsets]
    gives the allocated chunks addresses in the order of the list, from
    the image base on and without overlap: every allocated chunk starts at
    or after the end of every allocated chunk before it, a [.tbss] chunk
    ([SHT_NOBITS] with [SHF_TLS]) taking no addresses. *)
Theorem set_osec_offsets_addresses (PAGE_SIZE image_base : Z)
  (chunks : list OutputChunk) :
  0 < PAGE_SIZE -> 0 <= image_base ->
  Forall wf_chunk chunks ->
  image_base + osec_weight PAGE_SIZE chunks < 2 ^ 63 ->
  let placed := fst (set_osec_offsets PAGE_SIZE image_base chunks) in
  (forall c : OutputChunk,
     c ∈ placed -> has_flag (shdr c) SHF_ALLOC = true ->
     image_base <= sh_addr (shdr c)) /\
  (forall (i j : nat) (a b : OutputChunk),
     (i < j)%nat -> placed !! i = Some a -> placed !! j = Some b ->
     has_flag (shdr a) SHF_ALLOC = true -> has_flag (shdr b) SHF_ALLOC = true ->
     chunk_addr_end a <= sh_addr (shdr b)).
Proof.
  intros Hp Hib Hwf Hb. cbv zeta. unfold set_osec_offsets.
  pose proof (osec_weight_nonneg PAGE_SIZE Hp chunks Hwf) as Hw.
  rewrite (i64_small image_base) by lia.
  destruct (place_chunks_addrs PAGE_SIZE Hp chunks Hwf 0 image_base)
    as (_ & Hm & Ho); try lia.
  destruct (place_chunks PAGE_SIZE (0, image_base) chunks) as [chunks' [fo va]].
  cbn [fst snd] in *. split; [|exact Ho].
  intros c Hc Halloc. now destruct (Hm c Hc Halloc).
Qed.

(** The sample image, laid out from 0x200000 with pages of 4096 bytes:
    [.tbss], at 0x202fd8, takes no addresses, and [.data] follows at
    0x202fe0. *)
Lemma set_osec_offsets_addresses_witness :
  let placed := fst (set_osec_offsets 4096 2097152 sample_chunks) in
  (forall c : OutputChunk,
     c ∈ placed -> has_flag (shdr c) SHF_ALLOC = true ->
     2097152 <= sh_addr (shdr c)) /\
  (forall (i j : nat) (a b : OutputChunk),
     (i < j)%nat -> placed !! i = Some a -> placed !! j = Some b ->
     has_flag (shdr a) SHF_ALLOC = true -> has_flag (shdr b) SHF_ALLOC = true ->
     chunk_addr_end a <= sh_addr (shdr b)).
Proof.
  apply (set_osec_offsets_addresses 4096 2097152 sample_chunks);
    [lia | lia | | vm_compute; reflexivity].
  repeat constructor; cbn; lia.
Defined.
